(** * OpenMDAO N2 viewer: Dimensions.js and OmLayout.js

    A shallow embedding of the two JavaScript classes
    - [Dimensions] (gen/Dimensions.js), a bag of coordinates that keeps the
      values it had before the last update, and
    - [OmLayout] (src/OmLayout.js), the solver-tree part of the diagram layout,
    followed by the properties proved about them.

    JavaScript numbers are IEEE 754 binary64 values: they are embedded as Rocq's
    primitive floats, whose operations round the same way, so a division by zero
    evaluates here to the value it has in the browser. *)

From Stdlib Require Import Floats ZArith.
From stdpp Require Import gmap strings list.

Set Warnings "-inexact-float,-register-all,-clear-no-such-hyp".
Local Open Scope Z_scope.

(* ===================================================================== *)
(** * Part I: the embedding *)
(* ===================================================================== *)

(** ** The fragment of JavaScript the two classes use *)
Module Js.

(** The values stored in coordinates: a number, or [undefined] (what reading
    a missing property yields). *)
Inductive value : Type :=
| Undefined
| Num (f : float).

(** ToNumber: [undefined] becomes NaN. *)
Definition to_number (v : value) : float :=
  match v with
  | Undefined => nan
  | Num f => f
  end.

(** ToBoolean, as in [x ? a : b]: a number is false when it is +0, -0 or
    NaN, and [undefined] is false. *)
Definition truthy_number (f : float) : bool :=
  negb (PrimFloat.eqb f 0 || PrimFloat.is_nan f).

Definition truthy (v : value) : bool :=
  match v with
  | Undefined => false
  | Num f => truthy_number f
  end.

(** [Math.max(a, b)]: NaN if either is NaN, and +0 is larger than -0. *)
Definition Math_max (a b : float) : float :=
  if PrimFloat.is_nan a || PrimFloat.is_nan b then nan
  else if PrimFloat.ltb a b then b
  else if PrimFloat.ltb b a then a
  else if PrimFloat.is_zero a && PrimFloat.get_sign a then b
  else a.

Inductive exn : Type :=
| TypeError (msg : string)
| RangeError (msg : string).

(** The outcome of a method that mutates its receiver: the receiver when it
    returns, or the exception together with the receiver as the statements
    run before the throw left it. *)
Inductive result (S : Type) : Type :=
| Ok (s : S)
| Throw (e : exn) (s : S).
Arguments Ok {S} s.
Arguments Throw {S} e s.

Definition bind {S : Type} (r : result S) (k : S -> result S) : result S :=
  match r with
  | Ok s => k s
  | Throw e s => Throw e s
  end.

Definition returned {S : Type} (r : result S) : Prop :=
  match r with
  | Ok _ => True
  | Throw _ _ => False
  end.

(** The state a call leaves behind, however it ended. *)
Definition final {S : Type} (r : result S) : S :=
  match r with
  | Ok s => s
  | Throw _ s => s
  end.

(** The two kinds of object that [for (const p of o)] meets in Dimensions.js:
    an object written [{}] and filled by [o[k] = v], and a [Set] of property
    names in insertion order. *)
Inductive object : Type :=
| PlainObject (props : gmap string value)
| SetObject (elems : list string).

(** GetIterator: a Set has a [Symbol.iterator] method, a plain object has
    none. *)
Definition GetIterator (o : object) : option (list string) :=
  match o with
  | PlainObject _ => None
  | SetObject l => Some l
  end.

(** [for (const p of o) body]. *)
Definition for_of {S : Type} (o : object) (body : string -> S -> S) (s : S)
  : result S :=
  match GetIterator o with
  | Some l => Ok (foldl (fun acc p => body p acc) s l)
  | None => Throw (TypeError "object is not iterable") s
  end.

(** [set.add(p)] on a Set kept as the list of its elements. *)
Definition Set_add (p : string) (l : list string) : list string :=
  if decide (p ∈ l) then l else l ++ [p].

(** [o[p]]: the value of a property, [undefined] when it is missing. *)
Definition get (o : gmap string value) (p : string) : value :=
  default Undefined (o !! p).

(** [p in o]. *)
Definition has (o : gmap string value) (p : string) : bool :=
  bool_decide (is_Some (o !! p)).

End Js.

(** ** gen/Dimensions.js *)
Module Dimensions.
Import Js.

Definition allowedProps : list string :=
  ["x"; "y"; "z"; "height"; "width"; "margin"; "top"; "right"; "bottom"; "left"].

(** An instance. [own] holds the properties set by [this[prop] = ...] (and any
    other coordinate property written from outside, as OmLayout does with
    [dims.x = ...]); [unit], [_managedProps] and [prev] are the three
    properties the class names itself. *)
Record Dimensions : Type := mkDimensions {
  unit : string;
  _managedProps : list string;
  own : gmap string value;
  prev : gmap string value
}.

Definition set_unit (u : string) (d : Dimensions) : Dimensions :=
  mkDimensions u (_managedProps d) (own d) (prev d).
Definition set_managedProps (m : list string) (d : Dimensions) : Dimensions :=
  mkDimensions (unit d) m (own d) (prev d).
Definition set_own (o : gmap string value) (d : Dimensions) : Dimensions :=
  mkDimensions (unit d) (_managedProps d) o (prev d).
Definition set_prev (p : gmap string value) (d : Dimensions) : Dimensions :=
  mkDimensions (unit d) (_managedProps d) (own d) p.

(** [this[prop]] and [this[prop] = v] for a coordinate property. *)
Definition get_prop (d : Dimensions) (prop : string) : value :=
  get (own d) prop.
Definition set_prop (prop : string) (v : value) (d : Dimensions) : Dimensions :=
  set_own (<[prop := v]> (own d)) d.

(** An instance seen as the argument [obj] of [initFrom]: its coordinate
    properties. Its three other properties have names outside
    [allowedProps], which are the only names [initFrom] looks up. *)
Definition as_object (d : Dimensions) : gmap string value := own d.

(** The body of the loop of [initFrom] for one allowed name. *)
Definition initFrom_step (obj : gmap string value) (initPrev : bool)
    (prop : string) (this : Dimensions) : Dimensions :=
  if has obj prop then
    let this := set_managedProps (Set_add prop (_managedProps this)) this in
    let this := set_prop prop (get obj prop) this in
    if initPrev then set_prev (<[prop := Num 0%float]> (prev this)) this
    else this
  else this.

(** [initFrom(obj, unit = 'px', initPrev = true)] *)
Definition initFrom (obj : gmap string value) (unit : string) (initPrev : bool)
    (this : Dimensions) : Dimensions :=
  let this := set_unit unit this in
  let this := set_managedProps [] this in
  let this := if initPrev then set_prev ∅ this else this in
  foldl (fun acc prop => initFrom_step obj initPrev prop acc) this allowedProps.

(** The object [new] hands to the constructor, before any property is set. *)
Definition blank : Dimensions := mkDimensions "" [] ∅ ∅.

(** [new Dimensions(obj, unit = 'px')] *)
Definition new (obj : gmap string value) (unit : string) : Dimensions :=
  initFrom obj unit true blank.

(** [copyFrom(other)] *)
Definition copyFrom (other : Dimensions) (this : Dimensions) : result Dimensions :=
  let this := initFrom (as_object other) (unit other) false this in
  let this := set_prev ∅ this in
  for_of (PlainObject (prev other))
    (fun prop this => set_prev (<[prop := get (prev other) prop]> (prev this)) this)
    this.

(** [preserve()] *)
Definition preserve (this : Dimensions) : result Dimensions :=
  let this := set_prev ∅ this in
  for_of (SetObject (_managedProps this))
    (fun prop this => set_prev (<[prop := get_prop this prop]> (prev this)) this)
    this.

(** A coordinate read as a number, as in [1 - dims.x]. *)
Definition num (d : Dimensions) (prop : string) : float :=
  to_number (get_prop d prop).

End Dimensions.

(** ** src/OmLayout.js *)
Module OmLayout.
Import Js.
Export Dimensions.

(** *** The objects the layout works on *)

(** The identity of a tree node object: [a === b] is equality of references. *)
Definition ref : Type := nat.

(** [node.draw] *)
Record Draw : Type := mkDraw {
  minimized : bool;
  filtered : bool;
  filterParent : option ref;
  numLeaves : float;
  dims : Dimensions;
  solverDims : Dimensions
}.

(** An OmTreeNode, apart from [children] (see [Tree]). The class is declared
    in OmTreeNode.js, which is not in src: the last five fields hold what its
    predicate methods answer for this node, and [instanceofOmTreeNode] what
    [node instanceof OmTreeNode] evaluates to. [subsystem_children] is the
    truth value of that property, as the layout only tests it. *)
Record OmTreeNode : Type := mkNode {
  instanceofOmTreeNode : bool;
  type : string;
  depth : Z;
  parent : option ref;
  parentComponent : option ref;
  subsystem_children : bool;
  draw : Draw;
  isVisible : bool;
  isVisibleLeaf : bool;
  isInput : bool;
  isInputOrOutput : bool;
  hasChildren : bool
}.

(** The shape of the model tree: each node object with its [children] array. *)
Inductive Tree : Type :=
| TNode (node : ref) (children : list Tree).

Definition tree_ref (t : Tree) : ref :=
  match t with TNode r _ => r end.

Record Model : Type := mkModel {
  root : Tree;
  maxDepth : Z
}.

Record TreeSize : Type := mkTreeSize {
  width : float;
  height : float
}.

(** [this.size] *)
Record Size : Type := mkSize {
  partitionTree : TreeSize;
  solverTree : TreeSize;
  parentNodeWidth : float
}.

(** An element of [this.cols] or [this.solverCols]. *)
Record Column : Type := mkColumn {
  col_width : float;
  col_location : float
}.

(** Modelled from the spec: Scale.js is not in src; a scaler of a Scale is
    one of its "linear mappings ..., each domain→range". Of it the
    embedding keeps the domain and the range last given by
    [.domain([a, b])] and [.range([a, b])]. *)
Record Scaler : Type := mkScaler {
  domain : float * float;
  range : float * float
}.

Definition set_domain (d : float * float) (s : Scaler) : Scaler :=
  mkScaler d (range s).
Definition set_range (r : float * float) (s : Scaler) : Scaler :=
  mkScaler (domain s) r.

(** Modelled from the spec: the class Scale (gen/Scale.js is not in src) is
    "a pair of linear mappings (x, y), each domain→range, ... carries its own
    previous-value preservation". *)
Record Scale : Type := mkScale {
  scale_x : Scaler;
  scale_y : Scaler;
  scale_prev : option (Scaler * Scaler)
}.

(** Modelled from the spec: [preserve()] of a Scale keeps the present
    scalers as the previous ones. *)
Definition Scale_preserve (s : Scale) : Scale :=
  mkScale (scale_x s) (scale_y s) (Some (scale_x s, scale_y s)).

(** The layout object: the properties OmLayout.js reads or writes.
    [scales_solver] and [transitCoords_solver] are [None] while
    [this.scales.solver] and [this.transitCoords.solver] are undefined.
    [heap] holds the node objects, which the layout shares with the model. *)
Record OmLayout : Type := mkLayout {
  model : Model;
  heap : gmap ref OmTreeNode;
  zoomedElement : ref;
  size : Size;
  cols : list Column;
  solverCols : list Column;
  leafSolverWidthsPx : list float;
  greatestDepth : Z;
  zoomedSolverNodes : list ref;
  visibleSolverNodes : list ref;
  showSolvers : bool;
  scales_solver : option Scale;
  transitCoords_solver : option Dimensions
}.

(** *** Field updates *)

Definition set_solverDims (d : Dimensions) (n : OmTreeNode) : OmTreeNode :=
  let w := draw n in
  mkNode (instanceofOmTreeNode n) (type n) (depth n) (parent n)
    (parentComponent n) (subsystem_children n)
    (mkDraw (minimized w) (filtered w) (filterParent w) (numLeaves w) (dims w) d)
    (isVisible n) (isVisibleLeaf n) (isInput n) (isInputOrOutput n)
    (hasChildren n).

Definition set_heap (h : gmap ref OmTreeNode) (L : OmLayout) : OmLayout :=
  mkLayout (model L) h (zoomedElement L) (size L) (cols L) (solverCols L)
    (leafSolverWidthsPx L) (greatestDepth L) (zoomedSolverNodes L)
    (visibleSolverNodes L) (showSolvers L) (scales_solver L)
    (transitCoords_solver L).

Definition set_solverCols (c : list Column) (L : OmLayout) : OmLayout :=
  mkLayout (model L) (heap L) (zoomedElement L) (size L) (cols L) c
    (leafSolverWidthsPx L) (greatestDepth L) (zoomedSolverNodes L)
    (visibleSolverNodes L) (showSolvers L) (scales_solver L)
    (transitCoords_solver L).

Definition set_leafSolverWidthsPx (l : list float) (L : OmLayout) : OmLayout :=
  mkLayout (model L) (heap L) (zoomedElement L) (size L) (cols L) (solverCols L)
    l (greatestDepth L) (zoomedSolverNodes L)
    (visibleSolverNodes L) (showSolvers L) (scales_solver L)
    (transitCoords_solver L).

Definition set_greatestDepth (g : Z) (L : OmLayout) : OmLayout :=
  mkLayout (model L) (heap L) (zoomedElement L) (size L) (cols L) (solverCols L)
    (leafSolverWidthsPx L) g (zoomedSolverNodes L)
    (visibleSolverNodes L) (showSolvers L) (scales_solver L)
    (transitCoords_solver L).

Definition set_zoomedSolverNodes (l : list ref) (L : OmLayout) : OmLayout :=
  mkLayout (model L) (heap L) (zoomedElement L) (size L) (cols L) (solverCols L)
    (leafSolverWidthsPx L) (greatestDepth L) l
    (visibleSolverNodes L) (showSolvers L) (scales_solver L)
    (transitCoords_solver L).

Definition set_visibleSolverNodes (l : list ref) (L : OmLayout) : OmLayout :=
  mkLayout (model L) (heap L) (zoomedElement L) (size L) (cols L) (solverCols L)
    (leafSolverWidthsPx L) (greatestDepth L) (zoomedSolverNodes L)
    l (showSolvers L) (scales_solver L)
    (transitCoords_solver L).

Definition set_scales_solver (s : option Scale) (L : OmLayout) : OmLayout :=
  mkLayout (model L) (heap L) (zoomedElement L) (size L) (cols L) (solverCols L)
    (leafSolverWidthsPx L) (greatestDepth L) (zoomedSolverNodes L)
    (visibleSolverNodes L) (showSolvers L) s
    (transitCoords_solver L).

Definition set_transitCoords_solver (d : option Dimensions) (L : OmLayout)
  : OmLayout :=
  mkLayout (model L) (heap L) (zoomedElement L) (size L) (cols L) (solverCols L)
    (leafSolverWidthsPx L) (greatestDepth L) (zoomedSolverNodes L)
    (visibleSolverNodes L) (showSolvers L) (scales_solver L) d.

(** [arr[i]] for a numeric index: [undefined] (here [None]) outside the
    array, also for a negative index. *)
Definition at_index {A : Type} (arr : list A) (i : Z) : option A :=
  if i <? 0 then None else arr !! Z.to_nat i.

(** [arr[i].width = w], when [arr[i]] is an object. *)
Definition set_col_width (i : Z) (w : float) (arr : list Column)
  : option (list Column) :=
  match at_index arr i with
  | Some c => Some (<[Z.to_nat i := mkColumn w (col_location c)]> arr)
  | None => None
  end.

(** [node.draw.solverDims[prop] = v] on the node object [r]. *)
Definition assign (r : ref) (prop : string) (v : value) (L : OmLayout)
  : OmLayout :=
  match heap L !! r with
  | Some n =>
      set_heap
        (<[r := set_solverDims (set_prop prop v (solverDims (draw n))) n]> (heap L))
        L
  | None => L
  end.

(** Reading or writing a property of [undefined] or [null]. *)
Definition undefined_read (what : string) : exn :=
  TypeError ("Cannot read properties of undefined: " +:+ what).
Definition undefined_write (what : string) : exn :=
  TypeError ("Cannot set properties of undefined: " +:+ what).

(** [o.p ...] where [o] may be undefined: continue with the object, or throw
    leaving the layout as it is. *)
Definition try {A : Type} (o : option A) (e : exn) (L : OmLayout)
    (k : A -> result OmLayout) : result OmLayout :=
  match o with
  | Some a => k a
  | None => Throw e L
  end.

(** A reference that names no object of the heap: no JavaScript value is
    such a reference, the embedding stops there. *)
Definition dangling : exn := TypeError "no such node".

(** *** What OmLayout.js calls and src does not hold

    [preserveDims] is the method of OmTreeNode called on each node of the
    walk; [_setColumnWidthsFromWidestText] and [_setColumnLocations] are
    methods of the base class Layout, here with the arguments OmLayout.js
    passes them (the solver columns, leaf widths and tree size); [new_Scale]
    is the constructor of Scale. They are parameters of the embedding. *)
Class Collaborators : Type := mkCollaborators {
  preserveDims : bool -> float -> OmTreeNode -> OmTreeNode;
  _setColumnWidthsFromWidestText : OmLayout -> OmLayout;
  _setColumnLocations : OmLayout -> OmLayout;
  new_Scale : TreeSize -> Scale
}.

Section Methods.
Context `{Collaborators}.

(** *** _computeSolverColumnWidths *)

(** Lines 86 to 89: the fresh arrays. [new Array(n)] throws a RangeError
    for a length that is negative or greater than 2^32 - 1. *)
Definition reset_columns (L : OmLayout) : result OmLayout :=
  let L := set_greatestDepth 0 L in
  let n := maxDepth (model L) + 1 in
  if (n <? 0) || (2 ^ 32 - 1 <? n)
  then Throw (RangeError "Invalid array length") L
  else
    let L := set_leafSolverWidthsPx (replicate (Z.to_nat n) 0%float) L in
    Ok (set_solverCols (replicate (Z.to_nat n) (mkColumn 0 0)) L).

(** The values [i] takes in the loop of line 96: from [length - 1] down to
    [depth]. *)
Definition loop_indices (len : nat) (depth : Z) : list Z :=
  reverse (seqZ depth (Z.of_nat len - depth)).

(** The loop of lines 96 to 100 from the index list on: [None] when
    [this.solverCols[i]] is undefined. *)
Fixpoint shortfall_loop (solverCols : list Column) (leaf : list float)
    (idx : list Z) (sum lastColumnWidth : float) : option float :=
  match idx with
  | [] => Some lastColumnWidth
  | i :: idx =>
      match at_index solverCols i with
      | None => None
      | Some c =>
          let sum := (sum + col_width c)%float in
          let lastWidthNeeded := (default nan (at_index leaf i) - sum)%float in
          shortfall_loop solverCols leaf idx sum
            (Math_max lastWidthNeeded lastColumnWidth)
      end
  end.

(** Lines 94 to 103, after the base class has filled the arrays. *)
Definition adjust_ends (L : OmLayout) : result OmLayout :=
  try (heap L !! zoomedElement L) dangling L (fun z =>
  try (shortfall_loop (solverCols L) (leafSolverWidthsPx L)
         (loop_indices (length (leafSolverWidthsPx L)) (depth z)) 0 0)
      (undefined_read "width") L (fun lastColumnWidth =>
  try (set_col_width (depth z - 1) (parentNodeWidth (size L)) (solverCols L))
      (undefined_write "width") L (fun c =>
  let L := set_solverCols c L in
  try (set_col_width (greatestDepth L) lastColumnWidth (solverCols L))
      (undefined_write "width") L (fun c =>
  Ok (set_solverCols c L))))).

(** [_computeSolverColumnWidths(node = this.zoomedElement)] *)
Definition _computeSolverColumnWidths (L : OmLayout) : result OmLayout :=
  bind (reset_columns L) (fun L =>
  adjust_ends (_setColumnWidthsFromWidestText L)).

(** *** _computeSolverNormalizedPositions *)

(** [node.type.match(/^(subsystem|root)$/)] *)
Definition is_subsystem_or_root (ty : string) : bool :=
  bool_decide (ty = "subsystem") || bool_decide (ty = "root").

(** Lines 127 to 129. *)
Definition enters_zoomed (L : OmLayout) (r : ref) (isChildOfZoomed : bool)
  : bool :=
  if isChildOfZoomed then true else bool_decide (r = zoomedElement L).

(** Lines 131 to 144: the two lists the node may be pushed on. *)
Definition record_node (node : OmTreeNode) (r : ref) (isChildOfZoomed : bool)
    (earliestMinimizedParent : option ref) (L : OmLayout) : OmLayout :=
  match earliestMinimizedParent with
  | None =>
      if isChildOfZoomed then
        let L :=
          if is_subsystem_or_root (type node)
          then set_zoomedSolverNodes (zoomedSolverNodes L ++ [r]) L
          else L in
        if isVisibleLeaf node then
          if negb (isInput node)
          then set_visibleSolverNodes (visibleSolverNodes L ++ [r]) L
          else L
        else L
      else L
  | Some _ => L
  end.

(** Lines 131 to 144: the value of [earliestMinimizedParent] after them. *)
Definition anchor (node : OmTreeNode) (r : ref) (isChildOfZoomed : bool)
    (earliestMinimizedParent : option ref) : option ref :=
  match earliestMinimizedParent with
  | None =>
      if isChildOfZoomed then
        if isVisibleLeaf node then Some r
        else if filtered (draw node) then filterParent (draw node)
        else None
      else None
  | Some _ => earliestMinimizedParent
  end.

(** Line 146. *)
Definition call_preserveDims (r : ref) (leafCounter : float) (L : OmLayout)
  : OmLayout :=
  match heap L !! r with
  | Some node => set_heap (<[r := preserveDims true leafCounter node]> (heap L)) L
  | None => L
  end.

(** Lines 147 to 165: the rectangle of the node [r], statement by
    statement. *)
Definition assign_geometry (r : ref) (leafCounter : float)
    (earliestMinimizedParent : option ref) (L : OmLayout) : result OmLayout :=
  let workNode := default r earliestMinimizedParent in
  try (heap L !! r) dangling L (fun node =>
  if negb (isVisible node) then
    try (parentComponent node) (undefined_read "depth") L (fun pc =>
    try (heap L !! pc) dangling L (fun pcn =>
    try (at_index (cols L) (depth pcn + 1)) (undefined_read "location") L (fun c =>
    let L := assign r "x"
               (Num (col_location c / width (partitionTree (size L)))) L in
    try (heap L !! pc) dangling L (fun pcn =>
    let L := assign r "y" (get_prop (dims (draw pcn)) "y") L in
    let L := assign r "width" (Num 1e-6) L in
    Ok (assign r "height" (Num 1e-6) L)))))
  else
    try (heap L !! workNode) dangling L (fun wn =>
    try (at_index (solverCols L) (depth wn)) (undefined_read "location") L (fun c =>
    let L := assign r "x"
               (Num (col_location c / width (solverTree (size L)))) L in
    try (heap L !! tree_ref (root (model L))) dangling L (fun rt =>
    let L := assign r "y" (Num (leafCounter / numLeaves (draw rt))) L in
    bind
      (if subsystem_children node && negb (minimized (draw node)) then
         try (heap L !! workNode) dangling L (fun wn =>
         try (at_index (solverCols L) (depth wn)) (undefined_read "width") L (fun c =>
         Ok (assign r "width"
               (Num (col_width c / width (solverTree (size L)))) L)))
       else
         try (heap L !! workNode) dangling L (fun wn =>
         Ok (assign r "width" (Num (1 - num (solverDims (draw wn)) "x")) L)))
      (fun L =>
    try (heap L !! workNode) dangling L (fun wn =>
    try (heap L !! tree_ref (root (model L))) dangling L (fun rt =>
    Ok (assign r "height"
          (Num (numLeaves (draw wn) / numLeaves (draw rt))) L))))))))%float.

(** Line 172: the anchor handed to a child. *)
Definition child_anchor (child : OmTreeNode)
    (earliestMinimizedParent : option ref) : option ref :=
  match filterParent (draw child) with
  | Some f => Some f
  | None => earliestMinimizedParent
  end.

(** Lines 168 to 177: the loop over [node.children], given the function to
    call on each child. *)
Fixpoint for_children
    (walk : Tree -> float -> bool -> option ref -> OmLayout -> result OmLayout)
    (children : list Tree) (leafCounter : float) (isChildOfZoomed : bool)
    (earliestMinimizedParent : option ref) (L : OmLayout) : result OmLayout :=
  match children with
  | [] => Ok L
  | child :: children =>
      try (heap L !! tree_ref child) dangling L (fun c =>
      if negb (isInputOrOutput c) || negb (minimized (draw c)) then
        bind (walk child leafCounter isChildOfZoomed
                (child_anchor c earliestMinimizedParent) L) (fun L =>
        try (heap L !! tree_ref child) dangling L (fun c =>
        let leafCounter :=
          match earliestMinimizedParent with
          | None => (leafCounter + numLeaves (draw c))%float
          | Some _ => leafCounter
          end in
        for_children walk children leafCounter isChildOfZoomed
          earliestMinimizedParent L))
      else
        for_children walk children leafCounter isChildOfZoomed
          earliestMinimizedParent L)
  end.

(** [_computeSolverNormalizedPositions(node, leafCounter, isChildOfZoomed,
    earliestMinimizedParent)] *)
Fixpoint _computeSolverNormalizedPositions (node : Tree) (leafCounter : float)
    (isChildOfZoomed : bool) (earliestMinimizedParent : option ref)
    (L : OmLayout) {struct node} : result OmLayout :=
  match node with
  | TNode r children =>
      try (heap L !! r) dangling L (fun n =>
      if negb (instanceofOmTreeNode n) then Ok L
      else
        let isChildOfZoomed := enters_zoomed L r isChildOfZoomed in
        let L := record_node n r isChildOfZoomed earliestMinimizedParent L in
        let earliestMinimizedParent :=
          anchor n r isChildOfZoomed earliestMinimizedParent in
        let L := call_preserveDims r leafCounter L in
        bind (assign_geometry r leafCounter earliestMinimizedParent L) (fun L =>
        try (heap L !! r) dangling L (fun n =>
        if hasChildren n then
          for_children _computeSolverNormalizedPositions children leafCounter
            isChildOfZoomed earliestMinimizedParent L
        else Ok L)))
  end.

(** *** _init, preservePreviousScaleValues, updateScaleValues

    Each starts with a call of the method it overrides; the embedding is
    of the statements after that call, on the layout as the call left
    it. *)

Definition origin : gmap string value :=
  <["x" := Num 0%float]> (<["y" := Num 0%float]> ∅).

(** [_init()], after [super._init()]. *)
Definition _init (L : OmLayout) : result OmLayout :=
  bind
    (if showSolvers L then
       bind (_computeSolverColumnWidths L) (fun L =>
       let L := _setColumnLocations L in
       bind (_computeSolverNormalizedPositions (root (model L)) 0%float false
               None L) (fun L =>
       try (heap L !! zoomedElement L) dangling L (fun z =>
       let L :=
         match parent z with
         | Some p => set_zoomedSolverNodes (zoomedSolverNodes L ++ [p]) L
         | None => L
         end in
       Ok (set_scales_solver (Some (new_Scale (solverTree (size L)))) L))))
     else Ok L)
    (fun L => Ok (set_transitCoords_solver (Some (new origin "px")) L)).

(** [preservePreviousScaleValues()], after the base class's. *)
Definition preservePreviousScaleValues (L : OmLayout) : result OmLayout :=
  try (transitCoords_solver L) (undefined_read "preserve") L (fun tc =>
  match preserve tc with
  | Throw e tc => Throw e (set_transitCoords_solver (Some tc) L)
  | Ok tc =>
      let L := set_transitCoords_solver (Some tc) L in
      try (scales_solver L) (undefined_read "preserve") L (fun sc =>
      Ok (set_scales_solver (Some (Scale_preserve sc)) L))
  end).

(** [updateScaleValues()], after the base class's. *)
Definition updateScaleValues (L : OmLayout) : result OmLayout :=
  try (heap L !! zoomedElement L) dangling L (fun z =>
  let elemDims := solverDims (draw z) in
  let treeSize := solverTree (size L) in
  try (transitCoords_solver L) (undefined_write "x") L (fun tc =>
  let tc := set_prop "x"
              (Num ((if truthy (get_prop elemDims "x")
                     then width treeSize - parentNodeWidth (size L)
                     else width treeSize) / (1 - num elemDims "x"))) tc in
  let tc := set_prop "y" (Num (height treeSize / num elemDims "height")) tc in
  let L := set_transitCoords_solver (Some tc) L in
  try (scales_solver L) (undefined_read "x") L (fun sc =>
  let sx := set_range
              (if truthy (get_prop elemDims "x") then parentNodeWidth (size L)
               else 0, width treeSize)
              (set_domain (num elemDims "x", 1) (scale_x sc)) in
  let sy := set_range (0, height treeSize)
              (set_domain (num elemDims "y",
                           num elemDims "y" + num elemDims "height")
                 (scale_y sc)) in
  Ok (set_scales_solver (Some (mkScale sx sy (scale_prev sc))) L))))%float.

End Methods.

End OmLayout.

(** ** src/OmLayout.js: the solver names *)
Module SolverText.

(** The properties of a node that [getSolverText] reads. A solver name is a
    string, or [undefined] ([None]) when the node has no such property;
    [hasOwn_solve_subsystems] is what
    [node.hasOwnProperty("solve_subsystems")] answers and
    [solve_subsystems] the truth value of [node.solve_subsystems]. *)
Record SolverNames : Type := mkSolverNames {
  linear_solver : option string;
  nonlinear_solver : option string;
  hasOwn_solve_subsystems : bool;
  solve_subsystems : bool
}.

(** ToString of a name, as [+] applies it before it concatenates. *)
Definition ToString (v : option string) : string :=
  default "undefined" v.

Definition sub_solve : string := " (sub_solve)".

(** [getSolverText(node)], for the truth value of
    [this.showLinearSolverNames]. *)
Definition getSolverText (showLinearSolverNames : bool) (node : SolverNames)
  : option string :=
  let solver_name :=
    if showLinearSolverNames then linear_solver node
    else nonlinear_solver node in
  if negb showLinearSolverNames && hasOwn_solve_subsystems node
     && solve_subsystems node
  then Some (ToString solver_name +:+ sub_solve)
  else solver_name.

End SolverText.

(** The walk of [_computeSolverNormalizedPositions] as the list of its
    visits, and the rectangles it is expected to leave. *)
Module WalkSpec.
Import Js OmLayout.

(** A node without its solver rectangle, and a layout without what the walk
    writes: the solver rectangles and the two lists of solver nodes. The
    walk reads its way through the tree from what is left. *)
Definition static_node (n : OmTreeNode) : OmTreeNode :=
  set_solverDims blank n.

Definition static (L : OmLayout) : OmLayout :=
  set_heap (static_node <$> heap L)
    (set_zoomedSolverNodes [] (set_visibleSolverNodes [] L)).

(** One call of the function on an OmTreeNode: the node, the [leafCounter]
    it was called with, [isChildOfZoomed] after line 129,
    [earliestMinimizedParent] before and after lines 131 to 144, and the
    node's [children]. *)
Record Visit : Type := mkVisit {
  v_node : ref;
  v_leafCounter : float;
  v_isChildOfZoomed : bool;
  v_incoming : option ref;
  v_anchor : option ref;
  v_children : list Tree
}.

(** [workNode] at the visit. *)
Definition v_workNode (v : Visit) : ref := default (v_node v) (v_anchor v).

Section Visits.
Variable L : OmLayout.

(** The visits made from the loop over [node.children]. *)
Fixpoint children_visits
    (visits : Tree -> float -> bool -> option ref -> list Visit)
    (children : list Tree) (leafCounter : float) (isChildOfZoomed : bool)
    (earliestMinimizedParent : option ref) : list Visit :=
  match children with
  | [] => []
  | child :: children =>
      match heap L !! tree_ref child with
      | None => []
      | Some c =>
          if negb (isInputOrOutput c) || negb (minimized (draw c)) then
            visits child leafCounter isChildOfZoomed
              (child_anchor c earliestMinimizedParent)
            ++ children_visits visits children
                 (match earliestMinimizedParent with
                  | None => (leafCounter + numLeaves (draw c))%float
                  | Some _ => leafCounter
                  end)
                 isChildOfZoomed earliestMinimizedParent
          else
            children_visits visits children leafCounter isChildOfZoomed
              earliestMinimizedParent
      end
  end.

(** The visits of a call on a subtree, in order. *)
Fixpoint visits (node : Tree) (leafCounter : float) (isChildOfZoomed : bool)
    (earliestMinimizedParent : option ref) {struct node} : list Visit :=
  match node with
  | TNode r children =>
      match heap L !! r with
      | None => []
      | Some n =>
          if negb (instanceofOmTreeNode n) then []
          else
            let isChildOfZoomed := enters_zoomed L r isChildOfZoomed in
            let a := anchor n r isChildOfZoomed earliestMinimizedParent in
            mkVisit r leafCounter isChildOfZoomed earliestMinimizedParent a
              children
            :: (if hasChildren n
                then children_visits visits children leafCounter
                       isChildOfZoomed a
                else [])
      end
  end.

(** The rectangle of lines 151 to 155, for a node that is not visible. *)
Definition pinned (n : OmTreeNode) (d : Dimensions) : Prop :=
  exists pc pcn c,
    parentComponent n = Some pc /\
    heap L !! pc = Some pcn /\
    at_index (cols L) (depth pcn + 1) = Some c /\
    own d !! "x" =
      Some (Num (col_location c / width (partitionTree (size L)))) /\
    own d !! "y" = Some (get_prop (dims (draw pcn)) "y") /\
    own d !! "width" = Some (Num 1e-6) /\
    own d !! "height" = Some (Num 1e-6).

(** The rectangle of lines 158 to 164, for a visible node: x, y and
    height, and the width in the two cases where it does not depend on
    another node's rectangle. *)
Definition placed (v : Visit) (n : OmTreeNode) (d : Dimensions) : Prop :=
  exists wn c rt,
    heap L !! v_workNode v = Some wn /\
    at_index (solverCols L) (depth wn) = Some c /\
    heap L !! tree_ref (root (model L)) = Some rt /\
    let W := width (solverTree (size L)) in
    let N := numLeaves (draw rt) in
    own d !! "x" = Some (Num (col_location c / W)) /\
    own d !! "y" = Some (Num (v_leafCounter v / N)) /\
    own d !! "height" = Some (Num (numLeaves (draw wn) / N)) /\
    is_Some (own d !! "width") /\
    (subsystem_children n && negb (minimized (draw n)) = true ->
       own d !! "width" = Some (Num (col_width c / W))) /\
    (subsystem_children n && negb (minimized (draw n)) = false ->
       v_workNode v = v_node v ->
       own d !! "width" = Some (Num (1 - col_location c / W))).

End Visits.

(** What a visit leaves in the layout [L'], read against the layout [L] the
    walk started from. *)
Definition visit_done (L : OmLayout) (v : Visit) (L' : OmLayout) : Prop :=
  exists n n',
    heap L !! v_node v = Some n /\
    heap L' !! v_node v = Some n' /\
    (isVisible n = false -> pinned L n (solverDims (draw n'))) /\
    (isVisible n = true -> placed L v n (solverDims (draw n'))).

(** The [leafCounter] handed to each child the loop over [node.children]
    walks, while [earliestMinimizedParent] is null: the counter the loop
    started with plus the leaf counts of the children walked before. *)
Fixpoint sibling_counters (L : OmLayout) (children : list Tree)
    (leafCounter : float) : list (ref * float) :=
  match children with
  | [] => []
  | child :: children =>
      match heap L !! tree_ref child with
      | None => []
      | Some c =>
          if negb (isInputOrOutput c) || negb (minimized (draw c)) then
            (tree_ref child, leafCounter)
            :: sibling_counters L children
                 (leafCounter + numLeaves (draw c))%float
          else sibling_counters L children leafCounter
      end
  end.

(** [node.draw.solverDims[p]] of the node object [r], and
    [this.transitCoords.solver[p]]. *)
Definition solver_coord (L : OmLayout) (r : ref) (p : string) : value :=
  match heap L !! r with
  | Some n => get_prop (solverDims (draw n)) p
  | None => Undefined
  end.

Definition transit_coord (L : OmLayout) (p : string) : value :=
  match transitCoords_solver L with
  | Some tc => get_prop tc p
  | None => Undefined
  end.

(** The four coordinates of a rectangle have been given a value. *)
Definition has_rectangle (d : Dimensions) : Prop :=
  is_Some (own d !! "x") /\ is_Some (own d !! "y") /\
  is_Some (own d !! "width") /\ is_Some (own d !! "height").

(** *** What one visit writes *)

(** The layout with the node object [r] replaced. *)
Definition put (r : ref) (n : OmTreeNode) (L : OmLayout) : OmLayout :=
  set_heap (<[r := n]> (heap L)) L.

(** The node [n] with the coordinate [p] of its solver rectangle set. *)
Definition with_coord (p : string) (v : value) (n : OmTreeNode) : OmTreeNode :=
  set_solverDims (set_prop p v (solverDims (draw n))) n.

(** The rectangle lines 151 to 155 write over [d]. *)
Definition hidden_rect (L : OmLayout) (pcn : OmTreeNode) (c : Column)
    (d : Dimensions) : Dimensions :=
  set_prop "height" (Num 1e-6)
    (set_prop "width" (Num 1e-6)
       (set_prop "y" (get_prop (dims (draw pcn)) "y")
          (set_prop "x"
             (Num (col_location c / width (partitionTree (size L)))) d))).

(** The width of lines 160 to 162; [x] is the value just given to
    [dims.x]. *)
Definition visible_width (L : OmLayout) (r : ref) (a : option ref)
    (n wn : OmTreeNode) (c : Column) : float :=
  if subsystem_children n && negb (minimized (draw n))
  then (col_width c / width (solverTree (size L)))%float
  else (1 - (if decide (default r a = r)
             then col_location c / width (solverTree (size L))
             else num (solverDims (draw wn)) "x"))%float.

Definition visible_rect (L : OmLayout) (r : ref) (lc : float) (a : option ref)
    (n wn rt : OmTreeNode) (c : Column) (d : Dimensions) : Dimensions :=
  set_prop "height" (Num (numLeaves (draw wn) / numLeaves (draw rt)))
    (set_prop "width" (Num (visible_width L r a n wn c))
       (set_prop "y" (Num (lc / numLeaves (draw rt)))
          (set_prop "x"
             (Num (col_location c / width (solverTree (size L)))) d))).

Section Runs.
Context `{Collaborators}.

(** Lines 127 to 165 on the node [n] found at [r]. *)
Definition visit (r : ref) (lc : float) (ic : bool) (emp : option ref)
    (n : OmTreeNode) (L : OmLayout) : result OmLayout :=
  assign_geometry r lc (anchor n r ic emp)
    (call_preserveDims r lc (record_node n r ic emp L)).

(** What a call that returns has done: it has written nothing but solver
    rectangles and the two lists, it has left the nodes it did not visit
    as they were, and, when no node object is visited twice, each visit
    has left its rectangle. *)
Definition walk_spec (visits_of : OmLayout -> list Visit)
    (run : OmLayout -> result OmLayout) : Prop :=
  forall L L', run L = Ok L' ->
    static L' = static L /\
    (forall r, r ∉ (v_node <$> visits_of L) -> heap L' !! r = heap L !! r) /\
    (NoDup (v_node <$> visits_of L) ->
     forall v, v ∈ visits_of L -> visit_done L v L').

Definition tree_spec (t : Tree) : Prop :=
  forall lc ic emp,
    walk_spec (fun L => visits L t lc ic emp)
      (_computeSolverNormalizedPositions t lc ic emp).

(** A call under a collapsed node pushes nothing on the two lists. *)
Definition same_lists (L L' : OmLayout) : Prop :=
  zoomedSolverNodes L' = zoomedSolverNodes L /\
  visibleSolverNodes L' = visibleSolverNodes L.

Definition anchored_spec (t : Tree) : Prop :=
  forall lc ic w L L',
    _computeSolverNormalizedPositions t lc ic (Some w) L = Ok L' ->
    same_lists L L'.

(** The visits made from the loop over the children of a visited node;
    they are visits of the walk. *)
Definition below (L : OmLayout) (v : Visit) : list Visit :=
  children_visits L (visits L) (v_children v) (v_leafCounter v)
    (v_isChildOfZoomed v) (v_anchor v).

Definition below_spec (L : OmLayout) (vs : list Visit) : Prop :=
  forall v n u,
    v ∈ vs -> heap L !! v_node v = Some n -> hasChildren n = true ->
    u ∈ below L v -> u ∈ vs.

End Runs.

End WalkSpec.

(** ** Definitions the statements of Part II use *)

(** The order of binary64 values and the largest of a list. *)
Module Float64.

(** [a <= b] as JavaScript computes it: false when either is NaN. *)
Definition le (a b : float) : Prop := PrimFloat.leb a b = true.

Definition le_or_eq (c : option comparison) : bool :=
  match c with Some Eq | Some Lt => true | _ => false end.

(** The largest of the numbers of a list and 0, by [Math.max]. *)
Definition max0 (l : list float) : float :=
  foldl (fun acc s => Js.Math_max s acc) 0%float l.

Definition no_nan (l : list float) : Prop :=
  Forall (fun s => PrimFloat.is_nan s = false) l.

(** Neither NaN nor an infinity. *)
Definition finite (a : float) : Prop := PrimFloat.is_finite a = true.

End Float64.

(** The two loops of Dimensions.js over an arbitrary list of names. *)
Module DimensionsLoops.
Import Js Dimensions.

Definition initFrom_loop (obj : gmap string value) (initPrev : bool)
    (l : list string) (d : Dimensions) : Dimensions :=
  foldl (fun acc prop => initFrom_step obj initPrev prop acc) d l.

Definition preserve_loop (l : list string) (d : Dimensions) : Dimensions :=
  foldl (fun acc prop => set_prev (<[prop := get_prop acc prop]> (prev acc)) acc)
    d l.

End DimensionsLoops.

(** What the statements about OmLayout.js use. *)
Module OmLayoutSpec.
Import Js OmLayout.

(** The shortfalls the loop of [_computeSolverColumnWidths] compares: for
    each depth of the list in turn, the leaf width required at that depth
    minus the sum of the column widths from the first depth of the list down
    to it. *)
Fixpoint shortfalls (solverCols : list Column) (leaf : list float)
    (idx : list Z) (sum : float) : list float :=
  match idx with
  | [] => []
  | i :: idx =>
      let sum := (sum + default nan (col_width <$> at_index solverCols i))%float in
      (default nan (at_index leaf i) - sum)%float
        :: shortfalls solverCols leaf idx sum
  end.

(** The condition on [OmTreeNode.preserveDims] under which the walk is
    studied: called with [solver] true it changes, of the node, only its
    [draw.solverDims], and of that none of the current coordinates (it takes
    the snapshot kept in [prev]). *)
Definition preserveDims_snapshots `{Collaborators} : Prop :=
  forall (leafNum : float) (n : OmTreeNode),
    exists d, preserveDims true leafNum n = set_solverDims d n /\
              own d = own (solverDims (draw n)).

(** The layout as [_setColumnWidthsFromWidestText] returns it to
    [_computeSolverColumnWidths]. *)
Definition after_widest_text `{Collaborators} (L : OmLayout) : OmLayout :=
  _setColumnWidthsFromWidestText (final (reset_columns L)).

(** A method of the base class that works on the column arrays and the
    sizes: it leaves the node objects, the model and the zoomed element as
    they are. *)
Definition columns_only (f : OmLayout -> OmLayout) : Prop :=
  forall L, heap (f L) = heap L /\ model (f L) = model L /\
            zoomedElement (f L) = zoomedElement L.

(** The width of a column, for a numeric index. *)
Definition width_at (cols : list Column) (i : Z) : option float :=
  col_width <$> at_index cols i.

End OmLayoutSpec.

(** ** Concrete layouts

    The inputs at which the statements of Part II are evaluated. *)
Module Fixtures.
Import Js OmLayout.

Definition set_dims (d : Dimensions) (n : OmTreeNode) : OmTreeNode :=
  let w := draw n in
  mkNode (instanceofOmTreeNode n) (type n) (depth n) (parent n)
    (parentComponent n) (subsystem_children n)
    (mkDraw (minimized w) (filtered w) (filterParent w) (numLeaves w) d
       (solverDims w))
    (isVisible n) (isVisibleLeaf n) (isInput n) (isInputOrOutput n)
    (hasChildren n).

(** A [preserveDims] that calls [preserve()] on the rectangle it is asked
    for. *)
Definition preserve_rectangle (solver : bool) (leafNum : float)
    (n : OmTreeNode) : OmTreeNode :=
  if solver then set_solverDims (final (preserve (solverDims (draw n)))) n
  else set_dims (final (preserve (dims (draw n)))) n.

Definition unit_scale (sz : TreeSize) : Scale :=
  mkScale (mkScaler (0, 1)%float (0%float, width sz))
    (mkScaler (0, 1)%float (0%float, height sz)) None.

(** Collaborators whose column methods leave the layout as it is. *)
Definition plain : Collaborators :=
  mkCollaborators preserve_rectangle (fun L => L) (fun L => L) unit_scale.

(** A rectangle with the four coordinates given. *)
Definition rect (x y w h : float) : Dimensions :=
  new (<["x" := Num x]> (<["y" := Num y]> (<["width" := Num w]>
        (<["height" := Num h]> ∅)))) "px".

Definition sizes : Size :=
  mkSize (mkTreeSize 300 600) (mkTreeSize 200 600) 20.

(** A subsystem-like node and a leaf-like node, both visible. *)
Definition group (ty : string) (d : Z) (up : option ref) (leaves : float)
    (r sr : Dimensions) : OmTreeNode :=
  mkNode true ty d up up true (mkDraw false false None leaves r sr)
    true false false false true.

Definition leaf (ty : string) (d : Z) (up : option ref) (r sr : Dimensions)
  : OmTreeNode :=
  mkNode true ty d up up false (mkDraw false false None 1 r sr)
    true true false false false.

(** *** Two instances of Dimensions

    [new Dimensions({x: 1, y: 2})] after [preserve()], and
    [new Dimensions({})]. *)
Definition point : Dimensions :=
  final (preserve (new (<["x" := Num 1]> (<["y" := Num 2]> ∅)) "px")).

Definition empty : Dimensions := new ∅ "px".

(** *** A layout zoomed on a subsystem below the root

    root (0) > sub (1) > out (2); [sub] is the zoomed element and its solver
    rectangle starts at x = 0.25. *)
Definition zoomed_heap : gmap ref OmTreeNode :=
  <[0%nat := group "root" 1 None 1 (rect 0 0 0.25 1) (rect 0 0 0.25 1)]>
  (<[1%nat := group "subsystem" 2 (Some 0%nat) 1 (rect 0.25 0 0.25 1)
                (rect 0.25 0 0.25 0.5)]>
  (<[2%nat := leaf "output" 3 (Some 1%nat) (rect 0.5 0 0.5 1) (rect 0.5 0 0.5 1)]>
   ∅)).

(** The same nodes with a zoomed element whose solver rectangle has no
    height. *)
Definition flat_heap : gmap ref OmTreeNode :=
  <[1%nat := group "subsystem" 2 (Some 0%nat) 0 (rect 0.25 0 0.25 1)
               (rect 0.25 0 0.25 0)]> zoomed_heap.

Definition zoomed_tree : Tree :=
  TNode 0%nat [TNode 1%nat [TNode 2%nat []]].

Definition zoomed_layout : OmLayout :=
  mkLayout (mkModel zoomed_tree 3) zoomed_heap 1%nat sizes
    [mkColumn 0 0; mkColumn 75 0; mkColumn 75 75; mkColumn 150 150]
    [mkColumn 0 0; mkColumn 50 0; mkColumn 50 50; mkColumn 100 100]
    [0; 0; 0; 0]%float 3 [] [] true
    (Some (unit_scale (solverTree sizes))) (Some (new origin "px")).

Definition input (d : Z) (up : option ref) (r sr : Dimensions) : OmTreeNode :=
  mkNode true "input" d up up false (mkDraw false false None 0 r sr)
    false false true true false.

(** *** The same model with an input beside the output

    root (0) > sub (1) > in (3), out (2); the input is not visible. The
    root is the zoomed element. *)
Definition input_heap : gmap ref OmTreeNode :=
  <[3%nat := input 3 (Some 1%nat) (rect 0.5 0 0.5 0) (rect 0 0 0 0)]> zoomed_heap.

Definition input_tree : Tree :=
  TNode 0%nat [TNode 1%nat [TNode 3%nat []; TNode 2%nat []]].

Definition input_layout : OmLayout :=
  mkLayout (mkModel input_tree 3) input_heap 0%nat sizes
    [mkColumn 0 0; mkColumn 75 0; mkColumn 75 75; mkColumn 150 150]
    [mkColumn 0 0; mkColumn 50 0; mkColumn 50 50; mkColumn 100 100]
    [0; 0; 0; 0]%float 3 [] [] true None None.

(** *** Two leaves under the root, and a chain

    root (0) > a (1), b (2), and root (0) > A (1) > B (2), the root
    zoomed. *)
Definition two_leaves_layout : OmLayout :=
  mkLayout (mkModel (TNode 0%nat [TNode 1%nat []; TNode 2%nat []]) 2)
    (<[0%nat := group "root" 1 None 2 (rect 0 0 0 0) (rect 0 0 0 0)]>
     (<[1%nat := leaf "subsystem" 2 (Some 0%nat) (rect 0 0 0 0) (rect 0 0 0 0)]>
      (<[2%nat := leaf "subsystem" 2 (Some 0%nat) (rect 0 0 0 0) (rect 0 0 0 0)]>
       ∅)))
    0%nat sizes
    [mkColumn 0 0; mkColumn 150 0; mkColumn 150 150]
    [mkColumn 0 0; mkColumn 100 0; mkColumn 100 100]
    [0; 0; 0]%float 2 [] [] true None None.

Definition chain_layout : OmLayout :=
  mkLayout (mkModel (TNode 0%nat [TNode 1%nat [TNode 2%nat []]]) 3)
    (<[0%nat := group "root" 1 None 1 (rect 0 0 0 0) (rect 0 0 0 0)]>
     (<[1%nat := group "subsystem" 2 (Some 0%nat) 1 (rect 0 0 0 0)
                   (rect 0 0 0 0)]>
      (<[2%nat := leaf "subsystem" 3 (Some 1%nat) (rect 0 0 0 0) (rect 0 0 0 0)]>
       ∅)))
    0%nat sizes
    [mkColumn 0 0; mkColumn 75 0; mkColumn 75 75; mkColumn 150 150]
    [mkColumn 0 0; mkColumn 50 0; mkColumn 50 50; mkColumn 100 100]
    [0; 0; 0; 0]%float 3 [] [] true None None.

(** *** A model of five leaves

    root (0) > P (1) > A (2), B (3) > B1 (4), B2 (5); root > C (6), D (7).
    Every node is visible and none is collapsed; the leaf counts are those
    of the tree (root 5, P 3, B 2, each leaf 1). *)
Definition stale : Dimensions := rect 0 0 0 0.

Definition five_heap : gmap ref OmTreeNode :=
  <[0%nat := group "root" 1 None 5 stale stale]>
  (<[1%nat := group "subsystem" 2 (Some 0%nat) 3 stale stale]>
  (<[2%nat := leaf "subsystem" 3 (Some 1%nat) stale stale]>
  (<[3%nat := group "subsystem" 3 (Some 1%nat) 2 stale stale]>
  (<[4%nat := leaf "subsystem" 4 (Some 3%nat) stale stale]>
  (<[5%nat := leaf "subsystem" 4 (Some 3%nat) stale stale]>
  (<[6%nat := leaf "subsystem" 2 (Some 0%nat) stale stale]>
  (<[7%nat := leaf "subsystem" 2 (Some 0%nat) stale stale]> ∅))))))).

Definition five_tree : Tree :=
  TNode 0%nat
    [TNode 1%nat [TNode 2%nat []; TNode 3%nat [TNode 4%nat []; TNode 5%nat []]];
     TNode 6%nat []; TNode 7%nat []].

Definition five_layout : OmLayout :=
  mkLayout (mkModel five_tree 4) five_heap 0%nat sizes
    [mkColumn 0 0; mkColumn 75 0; mkColumn 75 75; mkColumn 75 150;
     mkColumn 75 225]
    [mkColumn 0 0; mkColumn 40 0; mkColumn 40 40; mkColumn 40 80;
     mkColumn 80 120]
    [0; 0; 0; 0; 0]%float 4 [] [] true None None.

(** *** A model whose only child is a minimized input

    root (0) > in (1). The input's solver rectangle holds no coordinate
    yet. *)
Definition minimized_input : OmTreeNode :=
  mkNode true "input" 2 (Some 0%nat) (Some 0%nat) false
    (mkDraw true false None 0 (rect 0.5 0 0.5 0) (new ∅ "px"))
    false false true true false.

Definition skipped_heap : gmap ref OmTreeNode :=
  <[0%nat := group "root" 1 None 1 (rect 0 0 1 1) (new ∅ "px")]>
  (<[1%nat := minimized_input]> ∅).

Definition skipped_layout : OmLayout :=
  mkLayout (mkModel (TNode 0%nat [TNode 1%nat []]) 2) skipped_heap 0%nat sizes
    [mkColumn 0 0; mkColumn 150 0; mkColumn 150 150]
    [] [] 0 [] [] true None None.

(** *** Zero denominators

    A zoomed subsystem with no visible leaf (root (0) > sub (1), out (2)),
    and a model with no visible leaf at all. *)
Definition empty_group_heap : gmap ref OmTreeNode :=
  <[0%nat := group "root" 1 None 1 stale stale]>
  (<[1%nat := group "subsystem" 2 (Some 0%nat) 0 stale stale]>
  (<[2%nat := leaf "output" 2 (Some 0%nat) stale stale]> ∅)).

Definition empty_group_layout : OmLayout :=
  mkLayout (mkModel (TNode 0%nat [TNode 1%nat []; TNode 2%nat []]) 2)
    empty_group_heap 1%nat sizes
    [mkColumn 0 0; mkColumn 150 0; mkColumn 150 150]
    [] [] 0 [] [] true None None.

Definition no_leaf_layout : OmLayout :=
  mkLayout (mkModel (TNode 0%nat []) 1)
    (<[0%nat := group "root" 1 None 0 stale stale]> ∅) 0%nat sizes
    [mkColumn 0 0; mkColumn 300 0]
    [mkColumn 0 0; mkColumn 200 0]
    [0; 0]%float 1 [] [] true None None.

Definition flat_layout : OmLayout :=
  mkLayout (mkModel zoomed_tree 3) flat_heap 1%nat sizes
    [mkColumn 0 0; mkColumn 75 0; mkColumn 75 75; mkColumn 150 150]
    [mkColumn 0 0; mkColumn 50 0; mkColumn 50 50; mkColumn 100 100]
    [0; 0; 0; 0]%float 3 [] [] true
    (Some (unit_scale (solverTree sizes))) (Some (new origin "px")).

(** The layout above as the base class's [_init] leaves it: no solver
    scale, no solver transit coordinates. *)
Definition uninitialised (solvers : bool) : OmLayout :=
  mkLayout (mkModel zoomed_tree 3) zoomed_heap 1%nat sizes
    [mkColumn 0 0; mkColumn 75 0; mkColumn 75 75; mkColumn 150 150]
    [] [] 0 [] [] solvers None None.

(** A widest-text pass that found a column 50 wide at depth 2, and at
    depth 3, the greatest it met, a leaf label 120 wide. *)
Definition found_widths (L : OmLayout) : OmLayout :=
  set_greatestDepth 3
    (set_leafSolverWidthsPx [0; 0; 0; 120]%float
       (set_solverCols
          [mkColumn 0 0; mkColumn 0 0; mkColumn 50 0; mkColumn 0 0] L)).

Definition measured : Collaborators :=
  mkCollaborators preserve_rectangle found_widths (fun L => L) unit_scale.

End Fixtures.

(** ** The solver-node lists and the conditions of a walk that returns *)
Module WalkLists.
Import Js OmLayout WalkSpec.

(** The node objects of a tree. *)
Fixpoint tree_refs (t : Tree) : list ref :=
  match t with
  | TNode r children => r :: concat (map tree_refs children)
  end.

(** Whether a visit pushes its node on [zoomedSolverNodes] (line 133) and
    on [visibleSolverNodes] (line 137). *)
Definition pushes_zoomed (L : OmLayout) (v : Visit) : bool :=
  match v_incoming v, heap L !! v_node v with
  | None, Some n => v_isChildOfZoomed v && is_subsystem_or_root (type n)
  | _, _ => false
  end.

Definition pushes_visible (L : OmLayout) (v : Visit) : bool :=
  match v_incoming v, heap L !! v_node v with
  | None, Some n => v_isChildOfZoomed v && isVisibleLeaf n && negb (isInput n)
  | _, _ => false
  end.

(** The nodes pushed by the visits of a list, in order. *)
Definition pushed (f : Visit -> bool) (vs : list Visit) : list ref :=
  v_node <$> List.filter f vs.

(** What lines 150 to 165 read at a visit is there: for a node that is not
    visible its parent component and the partition column one level below
    it; for a visible node its work node, the solver column at the work
    node's depth, and the root. *)
Definition ready (L : OmLayout) (v : Visit) : bool :=
  match heap L !! v_node v with
  | None => false
  | Some n =>
      if isVisible n then
        match heap L !! v_workNode v, heap L !! tree_ref (root (model L)) with
        | Some wn, Some _ =>
            bool_decide (is_Some (at_index (solverCols L) (depth wn)))
        | _, _ => false
        end
      else
        match parentComponent n with
        | None => false
        | Some pc =>
            match heap L !! pc with
            | None => false
            | Some pcn =>
                bool_decide (is_Some (at_index (cols L) (depth pcn + 1)))
            end
        end
  end.

(** Every reference of the tree names a node object. *)
Definition all_nodes_exist (L : OmLayout) (t : Tree) : bool :=
  forallb (fun r => bool_decide (is_Some (heap L !! r))) (tree_refs t).

(** A method of the base class that leaves the two lists of solver nodes
    as they are. *)
Definition keeps_solver_lists (f : OmLayout -> OmLayout) : Prop :=
  forall L, zoomedSolverNodes (f L) = zoomedSolverNodes L /\
            visibleSolverNodes (f L) = visibleSolverNodes L.

Section Specs.
Context `{Collaborators}.

(** The two lists after a call that returns. *)
Definition lists_after (vs : list Visit) (L L' : OmLayout) : Prop :=
  zoomedSolverNodes L' = zoomedSolverNodes L ++ pushed (pushes_zoomed L) vs /\
  visibleSolverNodes L' =
    visibleSolverNodes L ++ pushed (pushes_visible L) vs.

Definition lists_spec (t : Tree) : Prop :=
  forall lc ic emp L L',
    _computeSolverNormalizedPositions t lc ic emp L = Ok L' ->
    lists_after (visits L t lc ic emp) L L'.

Definition returns_spec (t : Tree) : Prop :=
  forall lc ic emp L,
    Forall (fun r => is_Some (heap L !! r)) (tree_refs t) ->
    Forall (fun v => ready L v = true) (visits L t lc ic emp) ->
    exists L', _computeSolverNormalizedPositions t lc ic emp L = Ok L'.

End Specs.

End WalkLists.

(** ** Further concrete layouts *)
Module Scenarios.
Import Js OmLayout.
Import Fixtures.

(** A widest-text pass whose greatest depth is the depth just above the
    zoomed element's. *)
Definition shallow_widths (L : OmLayout) : OmLayout :=
  set_greatestDepth 1
    (set_leafSolverWidthsPx [0; 0; 0; 120]%float
       (set_solverCols
          [mkColumn 0 0; mkColumn 0 0; mkColumn 50 0; mkColumn 0 0] L)).

Definition shallow : Collaborators :=
  mkCollaborators preserve_rectangle shallow_widths (fun L => L) unit_scale.

(** A widest-text pass that measured a leaf label whose width is NaN. *)
Definition nan_widths (L : OmLayout) : OmLayout :=
  set_greatestDepth 3
    (set_leafSolverWidthsPx [0; 0; 0; nan]%float
       (set_solverCols
          [mkColumn 0 0; mkColumn 0 0; mkColumn 50 0; mkColumn 0 0] L)).

Definition unmeasured : Collaborators :=
  mkCollaborators preserve_rectangle nan_widths (fun L => L) unit_scale.

(** *** A minimized output beside an output

    root (0) > comp (1) > out1 (2), out2 (3): both outputs are visible
    leaves of one leaf each, and out2 is minimized. The root is the zoomed
    element. *)
Definition output (min : bool) (d : Z) (up : option ref) (r sr : Dimensions)
  : OmTreeNode :=
  mkNode true "output" d up up false (mkDraw min false None 1 r sr)
    true true false true false.

Definition minimized_output : OmTreeNode :=
  output true 3 (Some 1%nat) stale stale.

Definition minimized_output_layout : OmLayout :=
  mkLayout
    (mkModel (TNode 0%nat [TNode 1%nat [TNode 2%nat []; TNode 3%nat []]]) 3)
    (<[0%nat := group "root" 1 None 2 stale stale]>
     (<[1%nat := group "subsystem" 2 (Some 0%nat) 2 stale stale]>
      (<[2%nat := output false 3 (Some 1%nat) stale stale]>
       (<[3%nat := minimized_output]> ∅))))
    0%nat sizes
    [mkColumn 0 0; mkColumn 75 0; mkColumn 75 75; mkColumn 150 150]
    [mkColumn 0 0; mkColumn 50 0; mkColumn 50 50; mkColumn 100 100]
    [0; 0; 0; 0]%float 3 [] [] true None None.

(** *** A collapsed subsystem

    root (0) > M (1) > K (2): M is collapsed, a visible leaf that has
    children; K is visible. The root is the zoomed element. *)
Definition collapsed (d : Z) (up : option ref) (leaves : float)
    (r sr : Dimensions) : OmTreeNode :=
  mkNode true "subsystem" d up up true (mkDraw true false None leaves r sr)
    true true false false true.

Definition collapsed_layout : OmLayout :=
  mkLayout (mkModel (TNode 0%nat [TNode 1%nat [TNode 2%nat []]]) 3)
    (<[0%nat := group "root" 1 None 1 stale stale]>
     (<[1%nat := collapsed 2 (Some 0%nat) 1 stale stale]>
      (<[2%nat := leaf "subsystem" 3 (Some 1%nat) stale stale]> ∅)))
    0%nat sizes
    [mkColumn 0 0; mkColumn 75 0; mkColumn 75 75; mkColumn 150 150]
    [mkColumn 0 0; mkColumn 50 0; mkColumn 50 50; mkColumn 100 100]
    [0; 0; 0; 0]%float 3 [] [] true None None.

(** *** A root that is not visible

    The only node has no parent component. *)
Definition hidden_root : OmTreeNode :=
  input 1 None (rect 0 0 0 0) (new ∅ "px").

Definition hidden_root_layout : OmLayout :=
  mkLayout (mkModel (TNode 0%nat []) 1) (<[0%nat := hidden_root]> ∅) 0%nat sizes
    [mkColumn 0 0; mkColumn 300 0]
    [mkColumn 0 0; mkColumn 200 0]
    [0; 0]%float 1 [] [] true None None.

End Scenarios.

(** ** Proof automation *)
Module Tactics.

(** Case analysis on the comparisons of exponents and mantissas in
    [SFcompare]. *)
Ltac cases_compare :=
  repeat match goal with
    | H : context [(?a ?= ?b)%Z] |- _ => destruct (Z.compare_spec a b)
    | |- context [(?a ?= ?b)%Z] => destruct (Z.compare_spec a b)
    | H : context [PosDef.Pos.compare_cont Eq ?a ?b] |- _ =>
        change (PosDef.Pos.compare_cont Eq a b) with (Pos.compare a b) in *;
        destruct (Pos.compare_spec a b)
    | |- context [PosDef.Pos.compare_cont Eq ?a ?b] =>
        change (PosDef.Pos.compare_cont Eq a b) with (Pos.compare a b) in *;
        destruct (Pos.compare_spec a b)
    end.

(** Lookups in a map written by a chain of inserts at literal keys. *)
Ltac coord :=
  repeat first [rewrite lookup_insert_eq | rewrite lookup_insert_ne by done].

End Tactics.
(* ===================================================================== *)
(** * Part II: properties *)
(* ===================================================================== *)

(** ** Binary64 arithmetic

    What the proofs below need of IEEE 754, from the specification of Rocq's
    primitive floats (FloatAxioms). *)
Module FloatFacts.
Import Float64 Tactics.
Local Open Scope Z_scope.


Lemma SFcompare_refl x : x <> S754_nan -> SFcompare x x = Some Eq.
Proof.
  destruct x as [s|s| |s m e]; cbn; try congruence.
  - by destruct s.
  - intros _. rewrite Z.compare_refl.
    change (PosDef.Pos.compare_cont Eq m m) with (Pos.compare m m).
    rewrite Pos.compare_refl. by destruct s.
Qed.

Lemma SFcompare_antisym x y :
  SFcompare y x = option_map CompOpp (SFcompare x y).
Proof.
  destruct x as [s|s| |s m e], y as [s'|s'| |s' m' e']; cbn;
    try destruct s; try destruct s'; cbn; try reflexivity;
    cases_compare; cbn; try reflexivity; try lia.
Qed.

Lemma SFleb_trans x y z :
  SFleb x y = true -> SFleb y z = true -> SFleb x z = true.
Proof.
  unfold SFleb.
  destruct x as [s|s| |s m e], y as [s'|s'| |s' m' e'], z as [s''|s''| |s'' m'' e''];
    cbn; try destruct s; try destruct s'; try destruct s''; cbn;
    try discriminate; try reflexivity;
    cases_compare; cbn; try discriminate; try reflexivity; try lia.
Qed.

Lemma leb_SF a b :
  PrimFloat.leb a b = le_or_eq (SFcompare (Prim2SF a) (Prim2SF b)).
Proof. by rewrite FloatAxioms.leb_spec. Qed.

Lemma ltb_SF a b :
  PrimFloat.ltb a b =
  match SFcompare (Prim2SF a) (Prim2SF b) with Some Lt => true | _ => false end.
Proof. by rewrite FloatAxioms.ltb_spec. Qed.

Lemma is_nan_spec a : PrimFloat.is_nan a = true <-> Prim2SF a = S754_nan.
Proof.
  unfold PrimFloat.is_nan. rewrite FloatAxioms.eqb_spec. unfold SFeqb.
  destruct (Prim2SF a) as [s|s| |s m e] eqn:Ha.
  - by destruct s.
  - by destruct s.
  - done.
  - rewrite SFcompare_refl by done. done.
Qed.

Lemma is_nan_false a : PrimFloat.is_nan a = false <-> Prim2SF a <> S754_nan.
Proof. rewrite <- is_nan_spec. by destruct (PrimFloat.is_nan a). Qed.

(** Rocq's binary64 has one NaN. *)
Lemma nan_unique a : PrimFloat.is_nan a = true -> a = nan.
Proof.
  intros Ha%is_nan_spec. apply Prim2SF_inj. by rewrite Ha.
Qed.

Lemma SFcompare_total x y :
  x <> S754_nan -> y <> S754_nan -> exists c, SFcompare x y = Some c.
Proof.
  destruct x as [s|s| |s m e], y as [s'|s'| |s' m' e']; cbn; try congruence; eauto.
Qed.

Lemma le_trans a b c : le a b -> le b c -> le a c.
Proof. unfold le. rewrite !FloatAxioms.leb_spec. apply SFleb_trans. Qed.

Lemma le_refl a : PrimFloat.is_nan a = false -> le a a.
Proof.
  intros Ha%is_nan_false. unfold le. rewrite leb_SF, SFcompare_refl; done.
Qed.

(** *** Math.max *)

Lemma Math_max_nan a b :
  PrimFloat.is_nan (Js.Math_max a b) = PrimFloat.is_nan a || PrimFloat.is_nan b.
Proof.
  unfold Js.Math_max.
  destruct (PrimFloat.is_nan a) eqn:Ha, (PrimFloat.is_nan b) eqn:Hb; cbn; try done.
  by repeat case_match.
Qed.

Lemma Math_max_cases a b : Js.Math_max a b = a \/ Js.Math_max a b = b.
Proof.
  unfold Js.Math_max.
  destruct (PrimFloat.is_nan a) eqn:Ha; cbn.
  { left. symmetry. by apply nan_unique. }
  destruct (PrimFloat.is_nan b) eqn:Hb; cbn.
  { right. symmetry. by apply nan_unique. }
  repeat case_match; auto.
Qed.

Lemma Math_max_ge a b :
  PrimFloat.is_nan a = false -> PrimFloat.is_nan b = false ->
  le a (Js.Math_max a b) /\ le b (Js.Math_max a b).
Proof.
  intros Ha Hb. unfold Js.Math_max. rewrite Ha, Hb. cbn [orb].
  pose proof (le_refl a Ha) as Haa. pose proof (le_refl b Hb) as Hbb.
  apply is_nan_false in Ha, Hb.
  destruct (SFcompare_total _ _ Ha Hb) as [c Hc].
  pose proof (SFcompare_antisym (Prim2SF a) (Prim2SF b)) as Hanti.
  rewrite Hc in Hanti. cbn in Hanti.
  assert (Hfacts :
    (PrimFloat.ltb a b = true /\ le a b) \/
    (PrimFloat.ltb a b = false /\ PrimFloat.ltb b a = true /\ le b a) \/
    (PrimFloat.ltb a b = false /\ PrimFloat.ltb b a = false /\ le a b /\ le b a)).
  { unfold le. rewrite !ltb_SF, !leb_SF, Hc, Hanti. destruct c; cbn; auto 10. }
  destruct Hfacts as [(-> & ?)|[(-> & -> & ?)|(-> & -> & ? & ?)]]; try done.
  by destruct (_ && _).
Qed.

(** *** Division by zero *)

Lemma is_zero_spec b :
  PrimFloat.is_zero b = true -> exists s, Prim2SF b = S754_zero s.
Proof.
  unfold PrimFloat.is_zero. rewrite FloatAxioms.eqb_spec. unfold SFeqb.
  change (Prim2SF zero) with (S754_zero false).
  destruct (Prim2SF b) as [s|s| |s m e]; cbn; try done.
  - eauto.
  - by destruct s.
  - by destruct s.
Qed.

(** IEEE 754 division by zero: NaN for 0/0 and NaN/0, an infinity
    otherwise. *)
Lemma div_by_zero a b :
  PrimFloat.is_zero b = true ->
  (a / b = nan \/ a / b = infinity \/ a / b = neg_infinity)%float.
Proof.
  intros [s Hb]%is_zero_spec.
  pose proof (div_spec a b) as Hd. rewrite Hb in Hd.
  rewrite <- (SF2Prim_Prim2SF (a / b)), Hd.
  unfold SF64div, SFdiv.
  destruct (Prim2SF a) as [sa|sa| |sa ma ea]; auto;
    destruct sa, s; cbn; auto.
Qed.

Lemma div_by_zero_not_finite a b :
  PrimFloat.is_zero b = true -> PrimFloat.is_finite (a / b) = false.
Proof.
  intros Hb. by destruct (div_by_zero a b Hb) as [-> | [-> | ->]].
Qed.

(** *** The largest of a list of numbers and 0 *)

Lemma foldl_max_spec l acc :
  no_nan l -> PrimFloat.is_nan acc = false ->
  let m := foldl (fun acc s => Js.Math_max s acc) acc l in
  PrimFloat.is_nan m = false /\ le acc m /\
  Forall (fun s => le s m) l /\ (m = acc \/ m ∈ l).
Proof.
  intros Hl. revert acc. induction Hl as [|s l Hs Hl IH]; intros acc Hacc; cbn.
  - split_and!; [done|by apply le_refl|constructor|by left].
  - assert (Hn : PrimFloat.is_nan (Js.Math_max s acc) = false).
    { by rewrite Math_max_nan, Hs, Hacc. }
    destruct (IH _ Hn) as (Hm & Hle & Hall & Hin).
    destruct (Math_max_ge s acc Hs Hacc) as [Hge1 Hge2].
    split_and!.
    + done.
    + by eapply le_trans.
    + constructor; [by eapply le_trans|done].
    + destruct Hin as [->|Hin]; [|by right; right].
      destruct (Math_max_cases s acc) as [->| ->]; [right; by left|by left].
Qed.
End FloatFacts.

(** ** Dimensions *)
Module DimensionsFacts.
Import Js Dimensions DimensionsLoops.

(** *** One step of the loop of [initFrom] *)

Lemma initFrom_step_unit obj b p d :
  unit (initFrom_step obj b p d) = unit d.
Proof. unfold initFrom_step. by destruct (has obj p), b. Qed.

Lemma initFrom_step_managed obj b p d :
  _managedProps (initFrom_step obj b p d) =
  if has obj p then Set_add p (_managedProps d) else _managedProps d.
Proof. unfold initFrom_step. by destruct (has obj p), b. Qed.

Lemma initFrom_step_own obj b p d :
  own (initFrom_step obj b p d) =
  if has obj p then <[p := get obj p]> (own d) else own d.
Proof. unfold initFrom_step. by destruct (has obj p), b. Qed.

Lemma initFrom_step_prev obj b p d :
  prev (initFrom_step obj b p d) =
  if has obj p && b then <[p := Num 0%float]> (prev d) else prev d.
Proof. unfold initFrom_step. by destruct (has obj p), b. Qed.

Lemma has_true obj p : has obj p = true ↔ is_Some (obj !! p).
Proof. unfold has. by rewrite bool_decide_eq_true. Qed.

Lemma elem_of_Set_add p q l : p ∈ Set_add q l ↔ p = q ∨ p ∈ l.
Proof. unfold Set_add. case_decide; set_solver. Qed.

Lemma NoDup_Set_add q l : NoDup l → NoDup (Set_add q l).
Proof.
  intros Hl. unfold Set_add. case_decide; [done|].
  apply NoDup_app. split_and!; [done| |apply NoDup_singleton].
  by intros x Hx ->%list_elem_of_singleton.
Qed.

(** *** The whole loop, over any list of names *)

Section InitFromLoop.
Variables (obj : gmap string value) (initPrev : bool).

Local Abbreviation initFrom_loop := (initFrom_loop obj initPrev).

Lemma initFrom_loop_cons p l d :
  initFrom_loop (p :: l) d = initFrom_loop l (initFrom_step obj initPrev p d).
Proof. done. Qed.

Lemma initFrom_loop_unit l d : unit (initFrom_loop l d) = unit d.
Proof.
  revert d. induction l as [|p l IH]; intros d; [done|].
  by rewrite initFrom_loop_cons, IH, initFrom_step_unit.
Qed.

Lemma initFrom_loop_managed l d p :
  p ∈ _managedProps (initFrom_loop l d) ↔
  p ∈ _managedProps d ∨ (p ∈ l ∧ is_Some (obj !! p)).
Proof.
  revert d. induction l as [|q l IH]; intros d.
  - cbn. set_solver.
  - rewrite initFrom_loop_cons, IH, initFrom_step_managed.
    destruct (has obj q) eqn:Hq.
    + apply has_true in Hq. rewrite elem_of_Set_add, elem_of_cons.
      split; [intros [[->|?]|[??]]|intros [?|[[->|?] ?]]]; tauto.
    + assert (¬ is_Some (obj !! q)) by (rewrite <- has_true; congruence).
      rewrite elem_of_cons.
      split; [intros [?|[??]]|intros [?|[[->|?] ?]]]; tauto.
Qed.

Lemma initFrom_loop_NoDup l d :
  NoDup (_managedProps d) → NoDup (_managedProps (initFrom_loop l d)).
Proof.
  revert d. induction l as [|q l IH]; intros d Hd; [done|].
  rewrite initFrom_loop_cons. apply IH. rewrite initFrom_step_managed.
  destruct (has obj q); [by apply NoDup_Set_add|done].
Qed.

Lemma initFrom_loop_own l d p :
  own (initFrom_loop l d) !! p =
  if decide (p ∈ l ∧ is_Some (obj !! p)) then Some (get obj p) else own d !! p.
Proof.
  revert d. induction l as [|q l IH]; intros d.
  - cbn. case_decide as Hc; [|done]. destruct Hc as [Hc _]. by inversion Hc.
  - rewrite initFrom_loop_cons, IH, initFrom_step_own.
    destruct (decide (p ∈ l ∧ is_Some (obj !! p))) as [[Hl Hp]|Hn].
    { rewrite decide_True; [done|]. split; [by right|done]. }
    destruct (has obj q) eqn:Hq.
    + apply has_true in Hq. destruct (decide (p = q)) as [->|Hne].
      * rewrite lookup_insert_eq, decide_True; [done|]. split; [by left|done].
      * rewrite lookup_insert_ne by done.
        rewrite decide_False; [done|].
        intros [[->|?]%elem_of_cons ?]; tauto.
    + assert (¬ is_Some (obj !! q)) by (rewrite <- has_true; congruence).
      rewrite decide_False; [done|].
      intros [[->|?]%elem_of_cons ?]; tauto.
Qed.

Lemma initFrom_loop_prev l d p :
  prev (initFrom_loop l d) !! p =
  if decide (initPrev = true ∧ p ∈ l ∧ is_Some (obj !! p))
  then Some (Num 0%float) else prev d !! p.
Proof.
  revert d. induction l as [|q l IH]; intros d.
  - cbn. case_decide as Hc; [|done]. destruct Hc as (_ & Hc & _). by inversion Hc.
  - rewrite initFrom_loop_cons, IH, initFrom_step_prev.
    destruct (decide (initPrev = true ∧ p ∈ l ∧ is_Some (obj !! p)))
      as [(Hb & Hl & Hp)|Hn].
    { rewrite decide_True; [done|]. split_and!; [done|by right|done]. }
    destruct (has obj q) eqn:Hq, initPrev eqn:Hb; cbn.
    + apply has_true in Hq. destruct (decide (p = q)) as [->|Hne].
      * rewrite lookup_insert_eq, decide_True; [done|].
        split_and!; [done|by left|done].
      * rewrite lookup_insert_ne by done.
        rewrite decide_False; [done|].
        intros (_ & [->|?]%elem_of_cons & ?); tauto.
    + rewrite decide_False; [done|]. by intros [? _].
    + assert (¬ is_Some (obj !! q)) by (rewrite <- has_true; congruence).
      rewrite decide_False; [done|].
      intros (_ & [->|?]%elem_of_cons & ?); tauto.
    + rewrite decide_False; [done|]. by intros [? _].
Qed.

(** A key outside the list is not looked at. *)
Lemma initFrom_step_other_key k v p d :
  k ≠ p →
  initFrom_step (<[k := v]> obj) initPrev p d = initFrom_step obj initPrev p d.
Proof.
  intros Hk. unfold initFrom_step, has, get. by rewrite lookup_insert_ne.
Qed.

End InitFromLoop.

Lemma initFrom_loop_other_key obj b k v l d :
  k ∉ l → initFrom_loop (<[k := v]> obj) b l d = initFrom_loop obj b l d.
Proof.
  revert d. induction l as [|p l IH]; intros d Hk; [done|].
  rewrite !initFrom_loop_cons, initFrom_step_other_key.
  - apply IH. by intros ?; apply Hk; right.
  - intros ->. apply Hk. by left.
Qed.

Lemma initFrom_unfold obj u b d :
  initFrom obj u b d =
  initFrom_loop obj b allowedProps
    (if b then set_prev ∅ (set_managedProps [] (set_unit u d))
     else set_managedProps [] (set_unit u d)).
Proof. done. Qed.

(** C3: [initFrom(source, unit, initPrev)] sets the unit; makes the managed
    set exactly the allowed names that are keys of the source (each once);
    gives each managed field the source's value and leaves the receiver's
    other properties alone; does not look at any other key of the source, so
    adding one changes nothing; with [initPrev] true makes [prev] the map of
    exactly the managed fields to 0, and with [initPrev] false leaves [prev]
    alone. The function is total: no source makes it throw. *)
Theorem initFrom_spec (source : gmap string value) (u : string) (initPrev : bool)
    (this : Dimensions) :
  let d := initFrom source u initPrev this in
  unit d = u ∧
  NoDup (_managedProps d) ∧
  (∀ p, p ∈ _managedProps d ↔ p ∈ allowedProps ∧ is_Some (source !! p)) ∧
  (∀ p, p ∈ _managedProps d → own d !! p = Some (get source p)) ∧
  (∀ p, p ∉ _managedProps d → own d !! p = own this !! p) ∧
  (∀ k v, k ∉ allowedProps →
     initFrom (<[k := v]> source) u initPrev this = d) ∧
  (initPrev = true →
     ∀ p, prev d !! p =
          if decide (p ∈ _managedProps d) then Some (Num 0%float) else None) ∧
  (initPrev = false → prev d = prev this).
Proof.
  intros d. subst d. rewrite initFrom_unfold.
  set (d0 := if initPrev then _ else _).
  assert (Hm0 : _managedProps d0 = []) by (subst d0; by destruct initPrev).
  assert (Ho0 : own d0 = own this) by (subst d0; by destruct initPrev).
  assert (Hu0 : unit d0 = u) by (subst d0; by destruct initPrev).
  assert (Hm : ∀ p, p ∈ _managedProps (initFrom_loop source initPrev allowedProps d0)
                    ↔ p ∈ allowedProps ∧ is_Some (source !! p)).
  { intros p. rewrite initFrom_loop_managed, Hm0.
    split; [intros [H|H]; [by inversion H|done]|by right]. }
  split_and!.
  - by rewrite initFrom_loop_unit.
  - apply initFrom_loop_NoDup. rewrite Hm0. constructor.
  - done.
  - intros p Hp%Hm. by rewrite initFrom_loop_own, decide_True.
  - intros p Hp. rewrite initFrom_loop_own, decide_False, Ho0; [done|].
    by intros ?%Hm.
  - intros k v Hk. rewrite initFrom_unfold. fold d0.
    by apply initFrom_loop_other_key.
  - intros ->  p. rewrite initFrom_loop_prev. subst d0. cbn.
    destruct (decide (p ∈ _managedProps _)) as [Hp%Hm|Hp].
    + by rewrite decide_True.
    + rewrite decide_False; [done|]. intros (_ & ? & ?). apply Hp, Hm. done.
  - intros ->. subst d0. apply map_eq. intros p.
    rewrite initFrom_loop_prev, decide_False; [done|]. by intros [? _].
Qed.

(** *** preserve *)

Lemma Dimensions_eq (d e : Dimensions) :
  unit d = unit e → _managedProps d = _managedProps e → own d = own e →
  prev d = prev e → d = e.
Proof. destruct d, e. cbn. by intros -> -> -> ->. Qed.

Lemma preserve_loop_cons p l d :
  preserve_loop (p :: l) d =
  preserve_loop l (set_prev (<[p := get_prop d p]> (prev d)) d).
Proof. done. Qed.

Lemma preserve_loop_frame l d :
  unit (preserve_loop l d) = unit d ∧
  _managedProps (preserve_loop l d) = _managedProps d ∧
  own (preserve_loop l d) = own d.
Proof.
  revert d. induction l as [|p l IH]; intros d; [done|].
  rewrite preserve_loop_cons.
  destruct (IH (set_prev (<[p := get_prop d p]> (prev d)) d)) as (-> & -> & ->).
  done.
Qed.

Lemma preserve_loop_prev l d p :
  prev (preserve_loop l d) !! p =
  if decide (p ∈ l) then Some (get_prop d p) else prev d !! p.
Proof.
  revert d. induction l as [|q l IH]; intros d.
  - cbn. rewrite decide_False; [done|]. by inversion 1.
  - rewrite preserve_loop_cons, IH. cbn.
    destruct (decide (p ∈ l)) as [Hl|Hl].
    + rewrite decide_True; [done|by right].
    + destruct (decide (p = q)) as [->|Hne].
      * rewrite lookup_insert_eq, decide_True; [done|by left].
      * rewrite lookup_insert_ne by done.
        rewrite decide_False; [done|]. by intros [->|?]%elem_of_cons.
Qed.

Lemma preserve_unfold d :
  preserve d = Ok (preserve_loop (_managedProps d) (set_prev ∅ d)).
Proof. done. Qed.

(** C2: [preserve()] returns, changes nothing but [prev], and makes [prev]
    the map whose keys are exactly the managed fields, each bound to the
    field's current value; a second call with no change in between returns
    the same instance again, so [prev] equals the current values after both
    calls. *)
Theorem preserve_spec (this : Dimensions) :
  ∃ d, preserve this = Ok d ∧
       unit d = unit this ∧
       _managedProps d = _managedProps this ∧
       own d = own this ∧
       (∀ p, prev d !! p =
             if decide (p ∈ _managedProps this) then Some (get_prop this p)
             else None) ∧
       preserve d = Ok d.
Proof.
  eexists. split; [apply preserve_unfold|].
  destruct (preserve_loop_frame (_managedProps this) (set_prev ∅ this))
    as (Hu & Hm & Ho).
  assert (Hp : ∀ p, prev (preserve_loop (_managedProps this) (set_prev ∅ this)) !! p =
                    if decide (p ∈ _managedProps this) then Some (get_prop this p)
                    else None).
  { intros p. rewrite preserve_loop_prev. by case_decide. }
  split_and!; try done.
  rewrite preserve_unfold. f_equal.
  set (d := preserve_loop _ _) in *.
  destruct (preserve_loop_frame (_managedProps d) (set_prev ∅ d)) as (Hu' & Hm' & Ho').
  apply Dimensions_eq.
  - by rewrite Hu'.
  - by rewrite Hm'.
  - by rewrite Ho'.
  - apply map_eq. intros p. rewrite preserve_loop_prev, Hp, Hm.
    unfold get_prop. cbn. rewrite Ho. by case_decide.
Qed.

(** *** copyFrom *)

(** C1: [copyFrom(other)] does not return, whatever the two instances are:
    the loop [for (const prop of other.prev)] asks a plain object for an
    iterator and throws a TypeError. When it throws, the receiver has the
    unit and coordinates of [other] and an empty [prev]; [other.prev] was
    not read. *)
Theorem copyFrom_throws (other this : Dimensions) :
  ∃ d, copyFrom other this = Throw (TypeError "object is not iterable") d ∧
       unit d = unit other ∧
       prev d = ∅.
Proof.
  eexists. split; [reflexivity|]. split.
  - change (unit (initFrom (as_object other) (unit other) false this) = unit other).
    by rewrite initFrom_unfold, initFrom_loop_unit.
  - done.
Qed.

(** At two instances: the receiver is left with the coordinates and the
    unit of the other and an empty [prev], where the other has
    [prev = {x: 1, y: 2}]. *)
Example copyFrom_point :
  copyFrom Fixtures.point Fixtures.empty =
    Throw (TypeError "object is not iterable")
      (mkDimensions "px" ["x"; "y"]
         (<["x" := Num 1]> (<["y" := Num 2]> ∅)) ∅) /\
  prev Fixtures.point = <["x" := Num 1]> (<["y" := Num 2]> ∅).
Proof. split; vm_compute; reflexivity. Qed.

End DimensionsFacts.

(** ** OmLayout: the scale methods *)
Module ScaleFacts.
Import Js OmLayout OmLayoutSpec Float64 FloatFacts.

Lemma truthy_nonzero (v : value) :
  PrimFloat.is_nan (to_number v) = false ->
  truthy v = negb (PrimFloat.is_zero (to_number v)).
Proof.
  destruct v as [|f]; cbn; [done|].
  intros Hf. unfold truthy_number, PrimFloat.is_zero. rewrite Hf.
  by rewrite orb_false_r.
Qed.

Lemma num_set_prop_eq p v d : num (set_prop p v d) p = to_number v.
Proof. unfold num, get_prop, get, set_prop. cbn. by rewrite lookup_insert_eq. Qed.

Lemma num_set_prop_ne p q v d : p <> q -> num (set_prop p v d) q = num d q.
Proof.
  intros Hne. unfold num, get_prop, get, set_prop. cbn.
  by rewrite lookup_insert_ne.
Qed.



(** The transit coordinates [updateScaleValues()] leaves, whatever the
    zoomed element's rectangle holds. *)
Lemma updateScaleValues_transit (L : OmLayout) (z : OmTreeNode)
    (tc : Dimensions) (sc : Scale) :
  heap L !! zoomedElement L = Some z ->
  transitCoords_solver L = Some tc ->
  scales_solver L = Some sc ->
  let e := solverDims (draw z) in
  let t := solverTree (size L) in
  exists L' tc',
    updateScaleValues L = Ok L' /\
    transitCoords_solver L' = Some tc' /\
    num tc' "x" =
      ((if truthy (get_prop e "x")
        then width t - parentNodeWidth (size L) else width t)
       / (1 - num e "x"))%float /\
    num tc' "y" = (height t / num e "height")%float.
Proof.
  intros Hz Htc Hsc e t.
  unfold updateScaleValues, try. rewrite Hz, Htc. cbn. rewrite Hsc.
  do 2 eexists. split; [reflexivity|]. cbn. fold e t.
  split_and!; try reflexivity.
  - by rewrite num_set_prop_ne, num_set_prop_eq.
  - by rewrite num_set_prop_eq.
Qed.

Lemma preserve_returns (d : Dimensions) : exists d', preserve d = Ok d'.
Proof. eexists. reflexivity. Qed.

Lemma preservePreviousScaleValues_returns (L : OmLayout) (tc : Dimensions) :
  transitCoords_solver L = Some tc ->
  returned (preservePreviousScaleValues L) <-> is_Some (scales_solver L).
Proof.
  intros Htc. unfold preservePreviousScaleValues, try. rewrite Htc.
  destruct (preserve_returns tc) as [tc' ->]. cbn.
  destruct (scales_solver L); cbn; split; done.
Qed.

Section Init.
Context `{Collaborators}.

Lemma init_without_solvers (L : OmLayout) :
  showSolvers L = false ->
  _init L = Ok (set_transitCoords_solver (Some (new origin "px")) L).
Proof. intros Hs. unfold _init. by rewrite Hs. Qed.

Lemma init_with_solvers (L L' : OmLayout) :
  showSolvers L = true -> _init L = Ok L' ->
  transitCoords_solver L' = Some (new origin "px") /\
  is_Some (scales_solver L').
Proof.
  intros Hs. unfold _init. rewrite Hs.
  destruct (_computeSolverColumnWidths L) as [L1|]; [|done]. cbn.
  destruct (_computeSolverNormalizedPositions _ _ _ _ _) as [L2|]; [|done].
  cbn. unfold try. destruct (heap L2 !! zoomedElement L2); [|done]. cbn.
  intros [= <-]. by split; [|eexists].
Qed.

(** C10: on a layout to which the base class has given no solver scale,
    [_init()] with [showSolvers] false returns, with
    [transitCoords.solver] created and [scales.solver] still undefined;
    and whenever [_init()] returns, [transitCoords.solver] exists, while
    [scales.solver] exists exactly when [showSolvers] is true, which is
    also exactly when [preservePreviousScaleValues()] returns instead of
    throwing on [scales.solver.preserve]. *)
Theorem solver_scale_needs_showSolvers (L : OmLayout) :
  scales_solver L = None ->
  (showSolvers L = false ->
     exists L', _init L = Ok L' /\
                transitCoords_solver L' = Some (new origin "px") /\
                scales_solver L' = None) /\
  (forall L', _init L = Ok L' ->
     transitCoords_solver L' = Some (new origin "px") /\
     (is_Some (scales_solver L') <-> showSolvers L = true) /\
     (returned (preservePreviousScaleValues L') <-> showSolvers L = true)).
Proof.
  intros Hsc. split.
  - intros Hs. eexists. split; [by apply init_without_solvers|]. by split.
  - intros L' Hinit. destruct (showSolvers L) eqn:Hs.
    + destruct (init_with_solvers L L' Hs Hinit) as [Htc Hsome].
      split_and!; [done|done|].
      by rewrite (preservePreviousScaleValues_returns L' _ Htc).
    + rewrite init_without_solvers in Hinit by done.
      injection Hinit as <-.
      assert (Hnone : ~ is_Some (scales_solver
                 (set_transitCoords_solver (Some (new origin "px")) L))).
      { cbn. rewrite Hsc. by intros [? ?]. }
      split_and!; [done|by split| ].
      rewrite (preservePreviousScaleValues_returns _ (new origin "px"))
        by done.
      by split.
Qed.

End Init.

Lemma solver_scale_needs_showSolvers_witness :
  (showSolvers (Fixtures.uninitialised false) = false ->
     exists L', @_init Fixtures.plain (Fixtures.uninitialised false) = Ok L' /\
                transitCoords_solver L' = Some (new origin "px") /\
                scales_solver L' = None) /\
  (forall L', @_init Fixtures.plain (Fixtures.uninitialised false) = Ok L' ->
     transitCoords_solver L' = Some (new origin "px") /\
     (is_Some (scales_solver L') <->
      showSolvers (Fixtures.uninitialised false) = true) /\
     (returned (preservePreviousScaleValues L') <->
      showSolvers (Fixtures.uninitialised false) = true)).
Proof.
  exact (@solver_scale_needs_showSolvers Fixtures.plain
           (Fixtures.uninitialised false) eq_refl).
Defined.

(** With [showSolvers] true the same layout is initialised without an
    exception, and then has a solver scale. *)
Example init_with_solvers_returns :
  let init := @_init Fixtures.plain (Fixtures.uninitialised true) in
  returned init /\
  is_Some (scales_solver (final init)) /\
  returned (preservePreviousScaleValues (final init)).
Proof. cbv zeta. split_and!; vm_compute; by try eexists. Qed.

End ScaleFacts.

(** ** OmLayout: the solver column widths *)
Module ColumnFacts.
Import Js OmLayout OmLayoutSpec Float64 FloatFacts.

Lemma at_index_Some {A : Type} (arr : list A) (i : Z) (a : A) :
  at_index arr i = Some a <-> 0 <= i /\ arr !! Z.to_nat i = Some a.
Proof.
  unfold at_index. destruct (Z.ltb_spec i 0) as [Hlt|Hge].
  - split; [done|intros [? _]; lia].
  - split; [by intros ?; split; [lia|]|by intros [_ ?]].
Qed.

Lemma set_col_width_lookup (i : Z) (w : float) (arr arr' : list Column) :
  set_col_width i w arr = Some arr' ->
  width_at arr' i = Some w /\
  length arr' = length arr /\
  forall j, j <> i -> at_index arr' j = at_index arr j.
Proof.
  unfold set_col_width, width_at.
  destruct (at_index arr i) as [c|] eqn:Hc; [|done].
  intros [= <-]. apply at_index_Some in Hc as [Hi Hc].
  assert (Hlt : (Z.to_nat i < length arr)%nat) by by eapply lookup_lt_Some.
  split_and!.
  - replace (at_index (<[Z.to_nat i:=_]> arr) i)
      with (Some (mkColumn w (col_location c))); [done|].
    symmetry. apply at_index_Some. split; [done|].
    by apply list_lookup_insert_eq.
  - apply length_insert.
  - intros j Hj. unfold at_index. destruct (Z.ltb_spec j 0); [done|].
    apply list_lookup_insert_ne. lia.
Qed.

Lemma shortfall_loop_spec cols leaf idx sum last r :
  shortfall_loop cols leaf idx sum last = Some r ->
  r = foldl (fun acc s => Math_max s acc) last (shortfalls cols leaf idx sum).
Proof.
  revert sum last. induction idx as [|i idx IH]; intros sum last; cbn.
  - by intros [= ->].
  - destruct (at_index cols i) as [c|]; [|done]. cbn. apply IH.
Qed.

(** What [adjust_ends] leaves, when it returns. *)
Lemma adjust_ends_spec (L L' : OmLayout) :
  adjust_ends L = Ok L' ->
  exists z c1,
    heap L !! zoomedElement L = Some z /\
    set_col_width (depth z - 1) (parentNodeWidth (size L)) (solverCols L) = Some c1 /\
    set_col_width (greatestDepth L)
      (max0 (shortfalls (solverCols L) (leafSolverWidthsPx L)
               (loop_indices (length (leafSolverWidthsPx L)) (depth z)) 0))
      c1 = Some (solverCols L') /\
    L' = set_solverCols (solverCols L') L.
Proof.
  unfold adjust_ends, try.
  destruct (heap L !! zoomedElement L) as [z|]; [|done].
  destruct (shortfall_loop _ _ _ _ _) as [last|] eqn:Hloop; [|done].
  apply shortfall_loop_spec in Hloop. fold (max0 (shortfalls (solverCols L)
    (leafSolverWidthsPx L) (loop_indices (length (leafSolverWidthsPx L)) (depth z)) 0))
    in Hloop. subst last.
  destruct (set_col_width (depth z - 1) _ _) as [c1|] eqn:H1; [|done]. cbn.
  destruct (set_col_width (greatestDepth L) _ c1) as [c2|] eqn:H2; [|done].
  intros [= <-]. exists z, c1. by split_and!.
Qed.

(** [Math.max] keeps a NaN it has met. *)
Lemma foldl_max_nan (l : list float) (acc : float) :
  PrimFloat.is_nan acc = true \/ Exists (fun s => PrimFloat.is_nan s = true) l ->
  PrimFloat.is_nan (foldl (fun acc s => Math_max s acc) acc l) = true.
Proof.
  revert acc. induction l as [|s l IH]; intros acc; cbn.
  - intros [Hacc|Hl]; [done|by inversion Hl].
  - intros Hnan. apply IH. rewrite Math_max_nan.
    destruct Hnan as [->|[->|Hl]%Exists_cons];
      [left; apply orb_true_r|by left|by right].
Qed.

Section ColumnWidths.
Context `{Collaborators}.


End ColumnWidths.


(** At that layout the zoomed element has depth 2 and the widest-text pass
    met depth 3: the column at depth 1 has the parent-node width, 20, and
    the column at depth 3 the shortfall 120 of the shortfalls 120 and
    -50. *)
Example measured_widths :
  let L' := final (@_computeSolverColumnWidths Fixtures.measured
                     (Fixtures.uninitialised true)) in
  greatestDepth L' = 3 /\
  width_at (solverCols L') 1 = Some 20%float /\
  width_at (solverCols L') 3 = Some 120%float.
Proof. cbv zeta. split_and!; vm_compute; reflexivity. Qed.


End ColumnFacts.

(** ** OmLayout: the walk over the tree *)
Module WalkFacts.
Import Js OmLayout OmLayoutSpec WalkSpec Float64 FloatFacts Tactics.

(** *** Writing a node of the heap *)

Lemma assign_put r p v L n :
  heap L !! r = Some n -> assign r p v L = put r (with_coord p v n) L.
Proof. intros Hn. unfold assign. by rewrite Hn. Qed.

Lemma put_put r n1 n2 L : put r n2 (put r n1 L) = put r n2 L.
Proof. unfold put, set_heap. cbn. by rewrite insert_insert_eq. Qed.

Lemma heap_put_eq r n L : heap (put r n L) !! r = Some n.
Proof. cbn. apply lookup_insert_eq. Qed.

Lemma heap_put_ne r r' n L : r <> r' -> heap (put r n L) !! r' = heap L !! r'.
Proof. intros Hne. cbn. by apply lookup_insert_ne. Qed.

(** A lookup after a write of the solver rectangle of [r] finds the node
    that was there, up to that rectangle. *)
Lemma heap_put_static r r' d n m' L :
  heap L !! r = Some n ->
  heap (put r (set_solverDims d n) L) !! r' = Some m' ->
  exists m, heap L !! r' = Some m /\ static_node m' = static_node m /\
            (r' <> r -> m' = m) /\ (r' = r -> m' = set_solverDims d n).
Proof.
  intros Hn Hm. destruct (decide (r' = r)) as [->|Hne].
  - rewrite heap_put_eq in Hm. injection Hm as <-.
    exists n. by split_and!.
  - rewrite heap_put_ne in Hm by done. exists m'. by split_and!.
Qed.

Lemma static_node_fields n m :
  static_node n = static_node m ->
  instanceofOmTreeNode n = instanceofOmTreeNode m /\
  type n = type m /\ depth n = depth m /\ parent n = parent m /\
  parentComponent n = parentComponent m /\
  subsystem_children n = subsystem_children m /\
  minimized (draw n) = minimized (draw m) /\
  filtered (draw n) = filtered (draw m) /\
  filterParent (draw n) = filterParent (draw m) /\
  numLeaves (draw n) = numLeaves (draw m) /\
  dims (draw n) = dims (draw m) /\
  isVisible n = isVisible m /\ isVisibleLeaf n = isVisibleLeaf m /\
  isInput n = isInput m /\ isInputOrOutput n = isInputOrOutput m /\
  hasChildren n = hasChildren m.
Proof.
  destruct n as [? ? ? ? ? ? [] ? ? ? ? ?], m as [? ? ? ? ? ? [] ? ? ? ? ?].
  unfold static_node, set_solverDims. cbn. intros [=]. by subst.
Qed.

Lemma static_node_set_solverDims d n :
  static_node (set_solverDims d n) = static_node n.
Proof. done. Qed.

Lemma static_put r d n L :
  heap L !! r = Some n -> static (put r (set_solverDims d n) L) = static L.
Proof.
  intros Hn. unfold static, put, set_heap. cbn. f_equal.
  rewrite fmap_insert, static_node_set_solverDims.
  apply insert_id. by rewrite lookup_fmap, Hn.
Qed.

(** *** The rectangle of one node *)


Lemma assign_geometry_hidden r lc a L L' n :
  heap L !! r = Some n -> isVisible n = false ->
  assign_geometry r lc a L = Ok L' ->
  exists pc pcn c,
    parentComponent n = Some pc /\
    heap L !! pc = Some pcn /\
    at_index (cols L) (depth pcn + 1) = Some c /\
    L' = put r (set_solverDims (hidden_rect L pcn c (solverDims (draw n))) n) L.
Proof.
  intros Hn Hvis. unfold assign_geometry, try. rewrite Hn, Hvis. cbn.
  destruct (parentComponent n) as [pc|]; [|done].
  destruct (heap L !! pc) as [pcn|] eqn:Hpc; [|done].
  destruct (at_index (cols L) (depth pcn + 1)) as [c|] eqn:Hc; [|done].
  rewrite (assign_put r "x" _ L n Hn).
  destruct (heap (put r _ L) !! pc) as [pcn'|] eqn:Hpc'; [|done].
  destruct (heap_put_static _ _ _ _ _ _ Hn Hpc') as (m & Hm & Hst & _).
  assert (m = pcn) as -> by congruence.
  apply static_node_fields in Hst as (_&_&_&_&_&_&_&_&_&_&Hdims&_).
  rewrite (assign_put r "y" _ _ _ (heap_put_eq _ _ _)), put_put.
  rewrite (assign_put r "width" _ _ _ (heap_put_eq _ _ _)), put_put.
  rewrite (assign_put r "height" _ _ _ (heap_put_eq _ _ _)), put_put.
  intros [= <-]. exists pc, pcn, c. split_and!; try done.
  unfold hidden_rect, with_coord. cbn. by rewrite Hdims.
Qed.


Lemma visible_rect_own L r lc a n wn rt c d :
  own (visible_rect L r lc a n wn rt c d) =
  <["height" := Num (numLeaves (draw wn) / numLeaves (draw rt))]>
    (<["width" := Num (visible_width L r a n wn c)]>
       (<["y" := Num (lc / numLeaves (draw rt))]>
          (<["x" := Num (col_location c / width (solverTree (size L)))]>
             (own d)))).
Proof. done. Qed.

Lemma hidden_rect_own L pcn c d :
  own (hidden_rect L pcn c d) =
  <["height" := Num 1e-6]>
    (<["width" := Num 1e-6]>
       (<["y" := get_prop (dims (draw pcn)) "y"]>
          (<["x" := Num (col_location c / width (partitionTree (size L)))]>
             (own d)))).
Proof. done. Qed.

Lemma assign_geometry_visible r lc a L L' n :
  heap L !! r = Some n -> isVisible n = true ->
  assign_geometry r lc a L = Ok L' ->
  exists wn c rt,
    heap L !! default r a = Some wn /\
    at_index (solverCols L) (depth wn) = Some c /\
    heap L !! tree_ref (root (model L)) = Some rt /\
    L' = put r (set_solverDims
                  (visible_rect L r lc a n wn rt c (solverDims (draw n))) n) L.
Proof.
  intros Hn Hvis. unfold assign_geometry, try. rewrite Hn, Hvis. cbn [negb].
  destruct (heap L !! default r a) as [wn|] eqn:Hwn; [|done].
  destruct (at_index (solverCols L) (depth wn)) as [c|] eqn:Hc; [|done].
  rewrite (assign_put r "x" _ L n Hn).
  set (L1 := put r _ L).
  destruct (heap L1 !! tree_ref (root (model L1))) as [rt1|] eqn:Hrt1; [|done].
  destruct (heap_put_static _ _ _ _ _ _ Hn Hrt1) as (rt & Hrt & Hst & _).
  change (heap L !! tree_ref (root (model L)) = Some rt) in Hrt.
  apply static_node_fields in Hst as (_&_&_&_&_&_&_&_&_&HN&_).
  rewrite (assign_put r "y" _ L1 _ (heap_put_eq _ _ _)). subst L1.
  rewrite put_put. set (L2 := put r _ L).
  assert (Hwn2 : exists wn2, heap L2 !! default r a = Some wn2 /\
                  depth wn2 = depth wn /\
                  numLeaves (draw wn2) = numLeaves (draw wn) /\
                  num (solverDims (draw wn2)) "x" =
                    if decide (default r a = r)
                    then (col_location c / width (solverTree (size L)))%float
                    else num (solverDims (draw wn)) "x").
  { destruct (decide (default r a = r)) as [Heq|Hne].
    - rewrite Heq in *. eexists. split; [apply heap_put_eq|].
      assert (wn = n) as -> by congruence. split_and!; [done|done|].
      unfold with_coord. cbn.
      by rewrite ScaleFacts.num_set_prop_ne, ScaleFacts.num_set_prop_eq.
    - exists wn. unfold L2. rewrite heap_put_ne by done. by split_and!. }
  destruct Hwn2 as (wn2 & Hwn2 & Hd2 & Hn2 & Hx2).
  rewrite Hwn2. cbv beta iota. rewrite Hd2.
  change (solverCols L2) with (solverCols L). rewrite Hc.
  change (size L2) with (size L).
  assert (Hw : (if subsystem_children n && negb (minimized (draw n))
                then Ok (assign r "width"
                       (Num (col_width c / width (solverTree (size L)))) L2)
                else Ok (assign r "width"
                       (Num (1 - num (solverDims (draw wn2)) "x")) L2))
               = Ok (assign r "width" (Num (visible_width L r a n wn c)) L2)).
  { unfold visible_width. rewrite Hx2. by destruct (_ && _). }
  rewrite Hw. cbn [bind].
  rewrite (assign_put r "width" _ L2 _ (heap_put_eq _ _ _)). subst L2.
  rewrite put_put. set (L3 := put r _ L).
  assert (Hwn3 : exists wn3, heap L3 !! default r a = Some wn3 /\
                  numLeaves (draw wn3) = numLeaves (draw wn)).
  { destruct (decide (default r a = r)) as [Heq|Hne].
    - rewrite Heq in *. eexists. split; [apply heap_put_eq|].
      assert (wn = n) as -> by congruence. done.
    - exists wn. unfold L3. by rewrite heap_put_ne. }
  destruct Hwn3 as (wn3 & -> & Hn3).
  change (model L3) with (model L).
  assert (Hrt3 : exists rt3, heap L3 !! tree_ref (root (model L)) = Some rt3 /\
                  numLeaves (draw rt3) = numLeaves (draw rt)).
  { destruct (decide (tree_ref (root (model L)) = r)) as [Heq|Hne].
    - rewrite Heq in *. eexists. split; [apply heap_put_eq|].
      assert (rt = n) as -> by congruence. done.
    - exists rt. unfold L3. by rewrite heap_put_ne. }
  destruct Hrt3 as (rt3 & -> & HN3).
  rewrite (assign_put r "height" _ L3 _ (heap_put_eq _ _ _)). subst L3.
  rewrite put_put.
  intros [= <-]. exists wn, c, rt. split_and!; try done.
  unfold visible_rect, with_coord. cbn. by rewrite HN, Hn3, HN3.
Qed.

(** *** What the walk leaves alone *)

Lemma static_lookup L1 L2 r n1 :
  static L1 = static L2 -> heap L1 !! r = Some n1 ->
  exists n2, heap L2 !! r = Some n2 /\ static_node n2 = static_node n1.
Proof.
  intros Hst Hn1. apply (f_equal heap) in Hst. cbn in Hst.
  apply (f_equal (fun h => h !! r)) in Hst. cbn in Hst.
  rewrite !lookup_fmap, Hn1 in Hst. cbn in Hst.
  destruct (heap L2 !! r) as [n2|]; [|done]. cbn in Hst.
  exists n2. split; [done|congruence].
Qed.

Lemma static_lookup_None L1 L2 r :
  static L1 = static L2 -> heap L1 !! r = None -> heap L2 !! r = None.
Proof.
  intros Hst Hn1. apply (f_equal heap) in Hst. cbn in Hst.
  apply (f_equal (fun h => h !! r)) in Hst. cbn in Hst.
  rewrite !lookup_fmap, Hn1 in Hst. cbn in Hst.
  by destruct (heap L2 !! r).
Qed.

Lemma static_fields L1 L2 :
  static L1 = static L2 ->
  model L1 = model L2 /\ zoomedElement L1 = zoomedElement L2 /\
  size L1 = size L2 /\ cols L1 = cols L2 /\ solverCols L1 = solverCols L2.
Proof.
  intros Hst. split_and!.
  - by apply (f_equal model) in Hst.
  - by apply (f_equal zoomedElement) in Hst.
  - by apply (f_equal size) in Hst.
  - by apply (f_equal cols) in Hst.
  - by apply (f_equal solverCols) in Hst.
Qed.

Lemma static_record_node n r ic emp L :
  static (record_node n r ic emp L) = static L /\
  heap (record_node n r ic emp L) = heap L.
Proof.
  unfold record_node.
  destruct emp, ic, (is_subsystem_or_root (type n)), (isVisibleLeaf n),
    (isInput n); done.
Qed.

Lemma anchor_static n m r ic emp :
  static_node n = static_node m -> anchor n r ic emp = anchor m r ic emp.
Proof.
  intros Hst. apply static_node_fields in Hst
    as (_&_&_&_&_&_&_&Hf&Hfp&_&_&_&Hvl&_).
  unfold anchor. by rewrite Hf, Hfp, Hvl.
Qed.

Lemma child_anchor_static n m emp :
  static_node n = static_node m -> child_anchor n emp = child_anchor m emp.
Proof.
  intros Hst. apply static_node_fields in Hst
    as (_&_&_&_&_&_&_&_&Hfp&_).
  unfold child_anchor. by rewrite Hfp.
Qed.

(** *** Induction on trees *)

Lemma Tree_ind_Forall (P : Tree -> Prop) :
  (forall r cs, Forall P cs -> P (TNode r cs)) -> forall t, P t.
Proof.
  intros Hnode. fix IH 1. intros [r cs]. apply Hnode.
  induction cs as [|c cs IHcs]; constructor; [apply IH|apply IHcs].
Qed.

(** The visits depend only on what the walk leaves alone. *)
Lemma children_visits_static L1 L2 cs :
  static L1 = static L2 ->
  Forall (fun t => forall lc ic emp,
            visits L1 t lc ic emp = visits L2 t lc ic emp) cs ->
  forall lc ic emp,
    children_visits L1 (visits L1) cs lc ic emp =
    children_visits L2 (visits L2) cs lc ic emp.
Proof.
  intros Hst Hcs. induction Hcs as [|c cs Hc Hcs IH]; intros lc ic emp; [done|].
  cbn [children_visits].
  destruct (heap L1 !! tree_ref c) as [n1|] eqn:Hn1.
  - destruct (static_lookup _ _ _ _ Hst Hn1) as (n2 & -> & Hn).
    rewrite (child_anchor_static _ _ emp Hn).
    apply static_node_fields in Hn
      as (_&_&_&_&_&_&Hmin&_&_&HN&_&_&_&_&Hio&_).
    rewrite Hmin, HN, Hio, Hc, !IH. done.
  - by rewrite (static_lookup_None _ _ _ Hst Hn1).
Qed.

Lemma visits_static L1 L2 :
  static L1 = static L2 ->
  forall t lc ic emp, visits L1 t lc ic emp = visits L2 t lc ic emp.
Proof.
  intros Hst t. induction t as [r cs IH] using Tree_ind_Forall.
  intros lc ic emp. cbn [visits].
  destruct (heap L1 !! r) as [n1|] eqn:Hn1.
  - destruct (static_lookup _ _ _ _ Hst Hn1) as (n2 & -> & Hn).
    rewrite (anchor_static _ _ r _ emp Hn).
    destruct (static_fields _ _ Hst) as (_ & Hz & _).
    unfold enters_zoomed. rewrite Hz.
    apply static_node_fields in Hn as (Hi&_&_&_&_&_&_&_&_&_&_&_&_&_&_&Hc).
    rewrite Hi, Hc, (children_visits_static L1 L2 cs Hst IH). done.
  - by rewrite (static_lookup_None _ _ _ Hst Hn1).
Qed.

Lemma visits_same_heap L1 L2 :
  heap L1 = heap L2 -> zoomedElement L1 = zoomedElement L2 ->
  forall t lc ic emp, visits L1 t lc ic emp = visits L2 t lc ic emp.
Proof.
  intros Hh Hz t. induction t as [r cs IH] using Tree_ind_Forall.
  intros lc ic emp. cbn [visits]. unfold enters_zoomed. rewrite Hh, Hz.
  destruct (heap L2 !! r) as [n|]; [|done].
  destruct (negb (instanceofOmTreeNode n)); [done|]. f_equal.
  destruct (hasChildren n); [|done].
  generalize (anchor n r (if ic then true else bool_decide (r = zoomedElement L2))
                emp).
  generalize (if ic then true else bool_decide (r = zoomedElement L2)).
  revert lc. induction IH as [|c cs Hc Hcs IHcs]; intros lc ic' a; [done|].
  cbn [children_visits]. rewrite Hh.
  destruct (heap L2 !! tree_ref c) as [cn|]; [|done].
  by rewrite Hc, !IHcs.
Qed.

(** *** One visit *)

Lemma pinned_static L1 L2 n d :
  static L1 = static L2 -> pinned L1 n d -> pinned L2 n d.
Proof.
  intros Hst (pc & pcn & c & Hpc & Hpcn & Hc & Hx & Hy & Hw & Hh).
  destruct (static_lookup _ _ _ _ Hst Hpcn) as (pcn2 & Hpcn2 & Hn).
  destruct (static_fields _ _ Hst) as (_ & _ & Hsize & Hcols & _).
  apply static_node_fields in Hn as (_&_&Hdepth&_&_&_&_&_&_&_&Hdims&_).
  exists pc, pcn2, c. rewrite <- Hsize, <- Hcols, Hdepth, Hdims. by split_and!.
Qed.

Lemma placed_static L1 L2 v n d :
  static L1 = static L2 -> placed L1 v n d -> placed L2 v n d.
Proof.
  intros Hst (wn & c & rt & Hwn & Hc & Hrt & Hrest).
  destruct (static_lookup _ _ _ _ Hst Hwn) as (wn2 & Hwn2 & Hn).
  destruct (static_lookup _ _ _ _ Hst Hrt) as (rt2 & Hrt2 & Hr).
  destruct (static_fields _ _ Hst) as (Hmodel & _ & Hsize & _ & Hsc).
  apply static_node_fields in Hn as (_&_&Hdepth&_&_&_&_&_&_&HN&_).
  apply static_node_fields in Hr as (_&_&_&_&_&_&_&_&_&HNr&_).
  exists wn2, c, rt2. rewrite <- Hmodel, <- Hsize, <- Hsc, Hdepth, HN, HNr.
  by split_and!.
Qed.

Lemma visit_done_static L1 L2 v L' :
  static L1 = static L2 -> visit_done L1 v L' -> visit_done L2 v L'.
Proof.
  intros Hst (n & n' & Hn & Hn' & Hpin & Hpl).
  destruct (static_lookup _ _ _ _ Hst Hn) as (n2 & Hn2 & Hs).
  pose proof (static_node_fields _ _ Hs)
    as (_&_&_&_&Hpc&Hsc&Hmin&_&_&_&_&Hvis&_).
  exists n2, n'. split_and!; try done.
  - rewrite Hvis. intros Hv. apply (pinned_static L1); [done|].
    destruct (Hpin Hv) as (pc & pcn & c & Hp & Hrest).
    exists pc, pcn, c. by rewrite Hpc, Hp.
  - rewrite Hvis. intros Hv. apply (placed_static L1); [done|].
    destruct (Hpl Hv) as (wn & c & rt & Hw & Hc & Hrt & Hrest).
    exists wn, c, rt. rewrite Hsc, Hmin. by split_and!.
Qed.

(** A visit done stays done while its node is not written again. *)
Lemma visit_done_frame L v L1 L2 :
  heap L2 !! v_node v = heap L1 !! v_node v ->
  visit_done L v L1 -> visit_done L v L2.
Proof.
  intros Heq (n & n' & Hn & Hn' & Hrest). exists n, n'. by rewrite Heq.
Qed.

Section Walk.
Context `{Collaborators}.
Hypothesis Hpd : preserveDims_snapshots.


Lemma walk_unfold r cs lc ic emp L :
  _computeSolverNormalizedPositions (TNode r cs) lc ic emp L =
  try (heap L !! r) dangling L (fun n =>
    if negb (instanceofOmTreeNode n) then Ok L
    else
      bind (visit r lc (enters_zoomed L r ic) emp n L) (fun L3 =>
      try (heap L3 !! r) dangling L3 (fun n3 =>
      if hasChildren n3 then
        for_children _computeSolverNormalizedPositions cs lc
          (enters_zoomed L r ic) (anchor n r (enters_zoomed L r ic) emp) L3
      else Ok L3))).
Proof. done. Qed.

Lemma visit_spec r lc ic emp n L L3 :
  heap L !! r = Some n ->
  visit r lc ic emp n L = Ok L3 ->
  exists d3,
    L3 = put r (set_solverDims d3 n) (record_node n r ic emp L) /\
    (isVisible n = false -> pinned L n d3) /\
    (isVisible n = true ->
       forall cs,
         placed L (mkVisit r lc ic emp (anchor n r ic emp) cs) n d3).
Proof.
  intros Hn. unfold visit.
  destruct (static_record_node n r ic emp L) as [Hst1 Hh1].
  set (L1 := record_node n r ic emp L) in *.
  assert (Hn1 : heap L1 !! r = Some n) by by rewrite Hh1.
  unfold call_preserveDims. rewrite Hn1.
  destruct (Hpd lc n) as (d & -> & Hd).
  fold (put r (set_solverDims d n) L1). set (L2 := put r _ L1).
  assert (Hst2 : static L2 = static L).
  { unfold L2. by rewrite static_put. }
  assert (Hn2 : heap L2 !! r = Some (set_solverDims d n)) by apply heap_put_eq.
  intros Hgeo. destruct (isVisible n) eqn:Hvis.
  - apply (assign_geometry_visible r lc _ L2 L3 _ Hn2 Hvis) in Hgeo
      as (wn & c & rt & Hwn & Hc & Hrt & ->).
    eexists. split.
    { unfold L2. rewrite put_put. reflexivity. }
    split; [done|]. intros _ cs.
    apply (placed_static L2); [done|].
    exists wn, c, rt. cbn [v_workNode v_node v_anchor v_leafCounter].
    rewrite visible_rect_own.
    split_and!;
      [done|done|done|by coord|by coord|by coord|coord; by eexists| |].
    + intros Hsc. coord. unfold visible_width.
      change (subsystem_children (set_solverDims d n))
        with (subsystem_children n).
      change (minimized (draw (set_solverDims d n)))
        with (minimized (draw n)).
      by rewrite Hsc.
    + intros Hsc Hself. coord. unfold visible_width.
      change (subsystem_children (set_solverDims d n))
        with (subsystem_children n).
      change (minimized (draw (set_solverDims d n)))
        with (minimized (draw n)).
      unfold v_workNode in Hself. cbn in Hself.
      by rewrite Hsc, decide_True.
  - apply (assign_geometry_hidden r lc _ L2 L3 _ Hn2 Hvis) in Hgeo
      as (pc & pcn & c & Hpc & Hpcn & Hc & ->).
    eexists. split.
    { unfold L2. rewrite put_put. reflexivity. }
    split; [|done]. intros _.
    apply (pinned_static L2); [done|].
    exists pc, pcn, c. rewrite hidden_rect_own.
    split_and!; try done; by coord.
Qed.

(** *** The whole walk *)


Lemma children_spec cs :
  Forall tree_spec cs ->
  forall lc ic emp,
    walk_spec (fun L => children_visits L (visits L) cs lc ic emp)
      (for_children _computeSolverNormalizedPositions cs lc ic emp).
Proof.
  intros Hcs. induction Hcs as [|c cs Hc Hcs IH]; intros lc ic emp L L'.
  { cbn. intros [= <-]. split_and!; [done|done|]. by intros _ v ?%elem_of_nil. }
  cbn [for_children children_visits]. unfold try.
  destruct (heap L !! tree_ref c) as [cn|] eqn:Hcn; [|done].
  destruct (negb (isInputOrOutput cn) || negb (minimized (draw cn))); [|apply IH].
  destruct (_computeSolverNormalizedPositions c lc ic _ L) as [L1|] eqn:Hwalk;
    [|done].
  cbn [bind].
  destruct (Hc _ _ _ _ _ Hwalk) as (Hst1 & Hframe1 & Hdone1).
  destruct (static_lookup _ _ _ _ (eq_sym Hst1) Hcn) as (cn1 & -> & Hs).
  apply static_node_fields in Hs as (_&_&_&_&_&_&_&_&_&HN&_).
  rewrite HN. intros Hrest.
  destruct (IH _ _ _ _ _ Hrest) as (Hst2 & Hframe2 & Hdone2).
  rewrite (children_visits_static L1 L cs Hst1) in Hframe2, Hdone2
    by (apply Forall_forall; intros; by apply visits_static).
  set (A := visits L c lc ic (child_anchor cn emp)) in *.
  set (B := children_visits L (visits L) cs _ ic emp) in *.
  split_and!.
  - congruence.
  - intros r Hr. rewrite fmap_app in Hr.
    rewrite Hframe2, Hframe1; [done| |]; intros ?; apply Hr;
      apply elem_of_app; auto.
  - rewrite fmap_app. intros (HA & Hdisj & HB)%NoDup_app v
      [Hv|Hv]%elem_of_app.
    + apply (visit_done_frame L v L1); [|by apply Hdone1].
      apply Hframe2, Hdisj. by apply list_elem_of_fmap_2.
    + apply (visit_done_static L1); [done|]. by apply Hdone2.
Qed.

Lemma tree_spec_all t : tree_spec t.
Proof.
  induction t as [r cs IH] using Tree_ind_Forall.
  intros lc ic emp L L'. rewrite walk_unfold. cbn [visits]. unfold try.
  destruct (heap L !! r) as [n|] eqn:Hn; [|done].
  destruct (instanceofOmTreeNode n); cbn [negb].
  2:{ intros [= <-]. split_and!; [done|done|]. by intros _ v ?%elem_of_nil. }
  set (ic' := enters_zoomed L r ic). set (a := anchor n r ic' emp).
  destruct (visit r lc ic' emp n L) as [L3|] eqn:Hvisit; [|done].
  cbn [bind].
  destruct (visit_spec r lc ic' emp n L L3 Hn Hvisit) as (d3 & HL3 & Hpin & Hpl).
  fold a in Hpl.
  destruct (static_record_node n r ic' emp L) as [Hst0 Hh0].
  assert (Hst3 : static L3 = static L).
  { rewrite HL3, static_put; [done|]. by rewrite Hh0. }
  assert (Hn3 : heap L3 !! r = Some (set_solverDims d3 n)).
  { rewrite HL3. apply heap_put_eq. }
  assert (Hframe3 : forall r', r' <> r -> heap L3 !! r' = heap L !! r').
  { intros r' Hr'. rewrite HL3, heap_put_ne, Hh0; done. }
  assert (Hdone3 : visit_done L (mkVisit r lc ic' emp a cs) L3).
  { exists n, (set_solverDims d3 n). split_and!; [done|done|done|].
    intros Hv. by apply Hpl. }
  rewrite Hn3.
  change (hasChildren (set_solverDims d3 n)) with (hasChildren n).
  destruct (hasChildren n).
  - intros Hrest.
    destruct (children_spec cs IH _ _ _ _ _ Hrest) as (Hst & Hframe & Hdone).
    rewrite (children_visits_static L3 L cs Hst3) in Hframe, Hdone
      by (apply Forall_forall; intros; by apply visits_static).
    set (B := children_visits L (visits L) cs lc ic' a) in *.
    split_and!.
    + congruence.
    + intros r' Hr'. rewrite fmap_cons in Hr'. cbn in Hr'.
      rewrite Hframe, Hframe3; [done| |]; intros ?; apply Hr';
        [subst; by left|by right].
    + rewrite fmap_cons. cbn [v_node].
      intros [Hr HB]%NoDup_cons v [->|Hv]%elem_of_cons.
      * apply (visit_done_frame _ _ L3); [|done]. by apply Hframe.
      * apply (visit_done_static L3); [done|]. by apply Hdone.
  - intros [= <-]. split_and!.
    + done.
    + intros r' Hr'. apply Hframe3. intros ->. apply Hr'. by left.
    + intros _ v ->%list_elem_of_singleton. done.
Qed.


(** *** Below a collapsed node *)


Lemma children_anchored cs :
  Forall anchored_spec cs ->
  forall lc ic w L L',
    for_children _computeSolverNormalizedPositions cs lc ic (Some w) L = Ok L' ->
    same_lists L L'.
Proof.
  intros Hcs. induction Hcs as [|c cs Hc Hcs IH]; intros lc ic w L L'.
  { cbn. by intros [= <-]. }
  cbn [for_children]. unfold try.
  destruct (heap L !! tree_ref c) as [cn|] eqn:Hcn; [|done].
  destruct (negb (isInputOrOutput cn) || negb (minimized (draw cn))); [|apply IH].
  assert (Ha : exists w', child_anchor cn (Some w) = Some w').
  { unfold child_anchor. destruct (filterParent (draw cn)); by eexists. }
  destruct Ha as [w' ->].
  destruct (_computeSolverNormalizedPositions c lc ic _ L) as [L1|] eqn:Hwalk;
    [|done].
  cbn [bind]. destruct (heap L1 !! tree_ref c); [|done].
  intros Hrest. destruct (Hc _ _ _ _ _ Hwalk) as [Hz1 Hv1].
  destruct (IH _ _ _ _ _ Hrest) as [Hz2 Hv2].
  split; congruence.
Qed.

Lemma anchored_spec_all t : anchored_spec t.
Proof.
  induction t as [r cs IH] using Tree_ind_Forall.
  intros lc ic w L L'. rewrite walk_unfold. unfold try.
  destruct (heap L !! r) as [n|] eqn:Hn; [|done].
  destruct (instanceofOmTreeNode n); cbn [negb]; [|by intros [= <-]].
  destruct (visit r lc _ (Some w) n L) as [L3|] eqn:Hvisit; [|done].
  cbn [bind].
  destruct (visit_spec _ _ _ _ _ _ _ Hn Hvisit) as (d3 & HL3 & _).
  assert (Hlists : same_lists L L3) by by rewrite HL3.
  destruct (heap L3 !! r) as [n3|]; [|done].
  destruct (hasChildren n3).
  - cbn [anchor]. intros Hrest.
    destruct (children_anchored cs IH _ _ _ _ _ Hrest) as [Hz Hv].
    destruct Hlists as [Hz3 Hv3]. split; congruence.
  - by intros [= <-].
Qed.

(** A collapsed node of the zoomed subtree (a visible leaf that is not an
    input, met with no collapsed ancestor) is pushed on
    [visibleSolverNodes], and nothing below it is. *)
Lemma collapsed_pushes_one r cs lc ic L L' n :
  heap L !! r = Some n ->
  instanceofOmTreeNode n = true ->
  enters_zoomed L r ic = true ->
  isVisibleLeaf n = true ->
  isInput n = false ->
  _computeSolverNormalizedPositions (TNode r cs) lc ic None L = Ok L' ->
  visibleSolverNodes L' = visibleSolverNodes L ++ [r].
Proof.
  intros Hn Hi Hz Hvl Hin. rewrite walk_unfold. unfold try.
  rewrite Hn, Hi, Hz. cbn [negb].
  destruct (visit r lc true None n L) as [L3|] eqn:Hvisit; [|done].
  cbn [bind].
  destruct (visit_spec _ _ _ _ _ _ _ Hn Hvisit) as (d3 & HL3 & _).
  assert (Hv3 : visibleSolverNodes L3 = visibleSolverNodes L ++ [r]).
  { rewrite HL3. cbn. rewrite Hvl, Hin. cbn.
    by destruct (is_subsystem_or_root (type n)). }
  destruct (heap L3 !! r) as [n3|]; [|done].
  destruct (hasChildren n3); [|by intros [= <-]].
  unfold anchor. rewrite Hvl. intros Hrest.
  destruct (children_anchored cs
              (proj2 (Forall_forall _ _) (fun t _ => anchored_spec_all t))
              _ _ _ _ _ Hrest) as [_ Hv].
  congruence.
Qed.

(** *** Siblings *)

Lemma sibling_counters_visited L cs lc ic c lc_c cn :
  (c, lc_c) ∈ sibling_counters L cs lc ->
  heap L !! c = Some cn ->
  instanceofOmTreeNode cn = true ->
  exists v, v ∈ children_visits L (visits L) cs lc ic None /\
            v_node v = c /\ v_leafCounter v = lc_c /\
            v_anchor v =
              anchor cn c (enters_zoomed L c ic) (child_anchor cn None).
Proof.
  revert lc. induction cs as [|[r cs'] cs IH]; intros lc; cbn.
  { by intros ?%elem_of_nil. }
  destruct (heap L !! r) as [n|] eqn:Hn; [|by intros ?%elem_of_nil].
  destruct (negb (isInputOrOutput n) || negb (minimized (draw n))).
  - intros [[= -> ->]|Hin]%elem_of_cons Hcn Hi.
    + rewrite Hn in Hcn. injection Hcn as ->. rewrite Hi. cbn [negb].
      eexists. split; [apply elem_of_app; left; by left|]. done.
    + destruct (IH _ Hin Hcn Hi) as (v & Hv & Hrest).
      exists v. split; [|done]. apply elem_of_app. by right.
  - apply IH.
Qed.



Lemma children_below L cs :
  Forall (fun t => forall lc ic emp, below_spec L (visits L t lc ic emp)) cs ->
  forall lc ic emp,
    below_spec L (children_visits L (visits L) cs lc ic emp).
Proof.
  intros Hcs. induction Hcs as [|c cs Hc Hcs IH]; intros lc ic emp v n u.
  { by intros ?%elem_of_nil. }
  cbn [children_visits].
  destruct (heap L !! tree_ref c) as [cn|]; [|by intros ?%elem_of_nil].
  destruct (negb (isInputOrOutput cn) || negb (minimized (draw cn))).
  - intros [Hv|Hv]%elem_of_app Hn Hc' Hu; apply elem_of_app.
    + left. by eapply Hc.
    + right. by eapply IH.
  - apply IH.
Qed.

Lemma visits_below L t :
  forall lc ic emp, below_spec L (visits L t lc ic emp).
Proof.
  induction t as [r cs IH] using Tree_ind_Forall.
  intros lc ic emp v n u. cbn [visits].
  destruct (heap L !! r) as [n0|] eqn:Hn0; [|by intros ?%elem_of_nil].
  destruct (negb (instanceofOmTreeNode n0)); [by intros ?%elem_of_nil|].
  intros [->|Hv]%elem_of_cons Hn Hc Hu.
  - cbn in Hn. assert (n0 = n) as -> by congruence. rewrite Hc.
    right. exact Hu.
  - right. destruct (hasChildren n0); [|by apply elem_of_nil in Hv].
    by eapply (children_below L cs IH).
Qed.

End Walk.
End WalkFacts.

(** ** OmLayout: the solver geometry pass *)
Module GeometryFacts.
Import Js OmLayout OmLayoutSpec WalkSpec Float64 FloatFacts WalkFacts Tactics.

(** The collaborators of the concrete layouts satisfy the conditions the
    statements below put on them. *)
Lemma preserve_rectangle_snapshots : @preserveDims_snapshots Fixtures.plain.
Proof.
  intros lc n. eexists. split; [reflexivity|].
  rewrite DimensionsFacts.preserve_unfold. cbn [final].
  by destruct (DimensionsFacts.preserve_loop_frame
                 (_managedProps (solverDims (draw n)))
                 (set_prev ∅ (solverDims (draw n)))) as (_ & _ & ->).
Qed.

Lemma identity_columns_only : columns_only (fun L => L).
Proof. by intros L. Qed.

Section Pass.
Context `{Collaborators}.

(** C5, as the code has it: when a call of the walk returns and no node
    object is visited twice, every node it visited that is not visible
    has a parent component, and its [draw.solverDims] holds the rectangle
    with x = the location of the partition-tree column one level below
    that parent, over the partition-tree width (not the x of the parent),
    y = the parent's [dims.y], and width and height equal to 1e-6, which
    is greater than 0. *)
Theorem hidden_nodes_pinned (t : Tree) (lc : float) (ic : bool)
    (emp : option ref) (L L' : OmLayout) (v : Visit) (n : OmTreeNode) :
  preserveDims_snapshots ->
  _computeSolverNormalizedPositions t lc ic emp L = Ok L' ->
  NoDup (v_node <$> visits L t lc ic emp) ->
  v ∈ visits L t lc ic emp ->
  heap L !! v_node v = Some n ->
  isVisible n = false ->
  exists n' pc pcn c,
    heap L' !! v_node v = Some n' /\
    parentComponent n = Some pc /\
    heap L !! pc = Some pcn /\
    at_index (cols L) (depth pcn + 1) = Some c /\
    let d := solverDims (draw n') in
    get_prop d "x" =
      Num (col_location c / width (partitionTree (size L))) /\
    get_prop d "y" = get_prop (dims (draw pcn)) "y" /\
    get_prop d "width" = Num 1e-6 /\
    get_prop d "height" = Num 1e-6 /\
    PrimFloat.ltb 0 1e-6 = true.
Proof.
  intros Hpd Hwalk Hnodup Hv Hn Hvis.
  destruct (tree_spec_all Hpd t lc ic emp L L' Hwalk) as (_ & _ & Hdone).
  destruct (Hdone Hnodup v Hv) as (n0 & n' & Hn0 & Hn' & Hpin & _).
  assert (n0 = n) as -> by congruence.
  destruct (Hpin Hvis) as (pc & pcn & c & Hpc & Hpcn & Hc & Hx & Hy & Hw & Hh).
  exists n', pc, pcn, c. unfold get_prop, get.
  rewrite Hx, Hy, Hw, Hh. by split_and!.
Qed.


(** C9, as the code has it: when [_init()] returns with [showSolvers]
    true, [OmTreeNode.preserveDims] only takes snapshots, the two column
    methods of the base class leave the nodes alone and no node object is
    visited twice, then, after it, the solver rectangle of every node the
    walk from the root visits has its four coordinates, the [draw.dims] of
    every node is what it was, and a node the walk does not visit (a
    minimized input or output, anything below a node without children) is
    the object it was. *)
Theorem init_assigns_visited (L L' : OmLayout) :
  preserveDims_snapshots ->
  columns_only _setColumnWidthsFromWidestText ->
  columns_only _setColumnLocations ->
  showSolvers L = true ->
  _init L = Ok L' ->
  NoDup (v_node <$> visits L (root (model L)) 0 false None) ->
  (forall v, v ∈ visits L (root (model L)) 0 false None ->
     exists n', heap L' !! v_node v = Some n' /\
                has_rectangle (solverDims (draw n'))) /\
  (forall r n, heap L !! r = Some n ->
     exists n', heap L' !! r = Some n' /\ dims (draw n') = dims (draw n)) /\
  (forall r, r ∉ (v_node <$> visits L (root (model L)) 0 false None) ->
     heap L' !! r = heap L !! r).
Proof.
  intros Hpd Hw Hl Hs. unfold _init. rewrite Hs.
  destruct (_computeSolverColumnWidths L) as [L1|] eqn:H1; [|done].
  cbn [bind]. set (L2 := _setColumnLocations L1).
  destruct (_computeSolverNormalizedPositions _ _ _ _ L2) as [L3|] eqn:H3;
    [|done].
  cbn [bind]. unfold try.
  destruct (heap L3 !! zoomedElement L3) as [z|]; [|done]. cbn [bind].
  intros [= <-].
  assert (Hframe : heap L2 = heap L /\ model L2 = model L /\
                   zoomedElement L2 = zoomedElement L).
  { unfold L2. destruct (Hl L1) as (-> & -> & ->).
    unfold _computeSolverColumnWidths in H1.
    destruct (reset_columns L) as [L0|] eqn:H0; [|done]. cbn [bind] in H1.
    apply ColumnFacts.adjust_ends_spec in H1 as (_ & _ & _ & _ & _ & ->).
    destruct (Hw L0) as (Hh & Hm & Hz). cbn. rewrite Hh, Hm, Hz.
    unfold reset_columns in H0.
    destruct (_ || _); [done|]. by injection H0 as <-. }
  destruct Hframe as (Hh2 & Hm2 & Hz2).
  rewrite Hm2 in H3.
  rewrite <- (visits_same_heap L2 L Hh2 Hz2).
  intros Hnodup.
  destruct (tree_spec_all Hpd _ _ _ _ _ _ H3) as (Hst & Hskip & Hdone).
  specialize (Hdone Hnodup).
  assert (Hheap : forall (p : option ref) r,
            heap (set_transitCoords_solver (Some (new origin "px"))
                    (set_scales_solver (Some (new_Scale (solverTree (size
                       match p with
                       | Some p => set_zoomedSolverNodes
                                     (zoomedSolverNodes L3 ++ [p]) L3
                       | None => L3
                       end))))
                       match p with
                       | Some p => set_zoomedSolverNodes
                                     (zoomedSolverNodes L3 ++ [p]) L3
                       | None => L3
                       end)) !! r = heap L3 !! r) by by intros [].
  split_and!.
  - intros v Hv. destruct (Hdone v Hv) as (n & n' & Hn & Hn' & Hpin & Hpl).
    exists n'. rewrite Hheap. split; [done|].
    destruct (isVisible n).
    + destruct (Hpl eq_refl) as (? & ? & ? & _ & _ & _ & Hx & Hy & Hhh & Hww & _).
      unfold has_rectangle. rewrite Hx, Hy, Hhh. by split_and!.
    + destruct (Hpin eq_refl) as (? & ? & ? & _ & _ & _ & Hx & Hy & Hww & Hhh).
      unfold has_rectangle. rewrite Hx, Hy, Hww, Hhh. by split_and!.
  - intros r n Hn. rewrite <- Hh2 in Hn.
    destruct (static_lookup _ _ _ _ (eq_sym Hst) Hn) as (n3 & Hn3 & Hsn).
    exists n3. rewrite Hheap. split; [done|].
    by apply static_node_fields in Hsn as (_&_&_&_&_&_&_&_&_&_&Hd&_).
  - intros r Hr. by rewrite Hheap, Hskip, Hh2.
Qed.

End Pass.

(** C4, as the code has it: no division of the layout is guarded. In
    [updateScaleValues()] the transit y is the tree height over the zoomed
    element's solver height and the transit x a width over 1 minus its
    solver x; in the rectangle of a visible node, y and height are quotients
    by the root's leaf count, and x, and the width of a node drawn as a
    column, quotients by the solver-tree width. When one of these
    denominators is zero the value stored is the one IEEE 754 gives, NaN or
    an infinity, never a finite number. Only a node that is not visible gets
    fixed width and height, 1e-6. *)
Theorem zero_denominators_propagate :
  (forall (L : OmLayout) (z : OmTreeNode) (tc : Dimensions) (sc : Scale),
     heap L !! zoomedElement L = Some z ->
     transitCoords_solver L = Some tc ->
     scales_solver L = Some sc ->
     exists L' tc',
       updateScaleValues L = Ok L' /\
       transitCoords_solver L' = Some tc' /\
       let e := solverDims (draw z) in
       (PrimFloat.is_zero (num e "height") = true -> ~ finite (num tc' "y")) /\
       (PrimFloat.is_zero (1 - num e "x") = true -> ~ finite (num tc' "x"))) /\
  (forall (r : ref) (lc : float) (a : option ref) (L L' : OmLayout)
          (n : OmTreeNode),
     heap L !! r = Some n ->
     assign_geometry r lc a L = Ok L' ->
     exists n',
       heap L' !! r = Some n' /\
       let d := solverDims (draw n') in
       (isVisible n = true ->
        exists rt,
          heap L !! tree_ref (root (model L)) = Some rt /\
          (PrimFloat.is_zero (numLeaves (draw rt)) = true ->
           ~ finite (num d "y") /\ ~ finite (num d "height")) /\
          (PrimFloat.is_zero (width (solverTree (size L))) = true ->
           ~ finite (num d "x") /\
           (subsystem_children n && negb (minimized (draw n)) = true ->
            ~ finite (num d "width")))) /\
       (isVisible n = false ->
        num d "width" = 1e-6%float /\ num d "height" = 1e-6%float)).
Proof.
  assert (Hnf : forall a b, PrimFloat.is_zero b = true -> ~ finite (a / b)).
  { intros a b Hb. unfold finite. by rewrite div_by_zero_not_finite. }
  split.
  - intros L z tc sc Hz Htc Hsc.
    destruct (ScaleFacts.updateScaleValues_transit L z tc sc Hz Htc Hsc)
      as (L' & tc' & Hrun & Htc' & Hx & Hy).
    exists L', tc'. split; [done|]. split; [done|]. cbv zeta. split.
    + rewrite Hy. apply Hnf.
    + rewrite Hx. apply Hnf.
  - intros r lc a L L' n Hn Hgeo. destruct (isVisible n) eqn:Hvis.
    + apply (assign_geometry_visible r lc a L L' n Hn Hvis) in Hgeo
        as (wn & c & rt & Hwn & Hc & Hrt & ->).
      eexists. split; [apply heap_put_eq|]. cbv zeta. split; [|done]. intros _.
      exists rt. split; [done|].
      unfold num, get_prop, get. cbn [draw solverDims set_solverDims].
      rewrite visible_rect_own. split.
      * intros HN. split; coord; cbn; by apply Hnf.
      * intros HW. split; [coord; cbn; by apply Hnf|].
        intros Hsc. coord. cbn. unfold visible_width. rewrite Hsc.
        by apply Hnf.
    + apply (assign_geometry_hidden r lc a L L' n Hn Hvis) in Hgeo
        as (pc & pcn & c & Hpc & Hpcn & Hc & ->).
      eexists. split; [apply heap_put_eq|]. cbv zeta. split; [done|]. intros _.
      unfold num, get_prop, get. cbn [draw solverDims set_solverDims].
      rewrite hidden_rect_own. by split; coord.
Qed.

Lemma zero_denominators_propagate_witness :
  exists L' tc',
    updateScaleValues Fixtures.flat_layout = Ok L' /\
    transitCoords_solver L' = Some tc' /\
    (PrimFloat.is_zero 0 = true -> ~ finite (num tc' "y")) /\
    (PrimFloat.is_zero (1 - 0.25) = true -> ~ finite (num tc' "x")).
Proof.
  exact (proj1 zero_denominators_propagate Fixtures.flat_layout
           (Fixtures.group "subsystem" 2 (Some 0%nat) 0
              (Fixtures.rect 0.25 0 0.25 1) (Fixtures.rect 0.25 0 0.25 0))
           (new origin "px")
           (Fixtures.unit_scale (solverTree Fixtures.sizes))
           eq_refl eq_refl eq_refl).
Defined.

(** The claim fails at a zoomed subsystem with no visible leaf, whose solver
    height the walk computes as 0/1 = 0: the transit y is then 600/0, an
    infinity; and at a model with no visible leaf, where y and height of the
    root are 0/0, NaN. *)
Lemma zero_denominators_not_guarded :
  let init := @_init Fixtures.plain Fixtures.empty_group_layout in
  let update := updateScaleValues (final init) in
  let walk := @_computeSolverNormalizedPositions Fixtures.plain
                (root (model Fixtures.no_leaf_layout)) 0 false None
                Fixtures.no_leaf_layout in
  (returned init /\ returned update /\
   solver_coord (final init) 1%nat "height" = Num 0 /\
   transit_coord (final update) "y" = Num infinity) /\
  (returned walk /\
   solver_coord (final walk) 0%nat "y" = Num nan /\
   solver_coord (final walk) 0%nat "height" = Num nan).
Proof.
  cbv zeta. split_and!; vm_compute; done.
Qed.

(** The heights are binary64 quotients, and sum to the parent's height up
    to rounding only: in the model of five leaves, P (height 3/5) has the
    visible children A (height 1/5) and B (height 2/5), and 1/5 + 2/5 is
    the next number after 3/5. *)
Lemma heights_do_not_add_up :
  let walk := @_computeSolverNormalizedPositions Fixtures.plain
                (root (model Fixtures.five_layout)) 0 false None
                Fixtures.five_layout in
  returned walk /\
  solver_coord (final walk) 1%nat "height" = Num (3 / 5) /\
  solver_coord (final walk) 2%nat "height" = Num (1 / 5) /\
  solver_coord (final walk) 3%nat "height" = Num (2 / 5) /\
  (1 / 5 + 2 / 5)%float = 0.6000000000000001%float /\
  (3 / 5)%float = 0.6%float /\
  PrimFloat.eqb (1 / 5 + 2 / 5) (3 / 5) = false.
Proof.
  cbv zeta. split_and!; vm_compute; done.
Qed.



(** The claim fails at a minimized input: the loop over the root's
    children does not call the walk on it, and after [_init()] its solver
    rectangle still holds no coordinate. *)
Lemma minimized_input_skipped :
  let init := @_init Fixtures.plain Fixtures.skipped_layout in
  returned init /\
  heap (final init) !! 1%nat = Some Fixtures.minimized_input /\
  solver_coord (final init) 1%nat "x" = Undefined /\
  solver_coord (final init) 1%nat "y" = Undefined /\
  solver_coord (final init) 1%nat "width" = Undefined /\
  solver_coord (final init) 1%nat "height" = Undefined.
Proof.
  cbv zeta. split_and!; vm_compute; done.
Qed.

Lemma init_assigns_visited_witness :
  let L := Fixtures.uninitialised true in
  let L' := final (@_init Fixtures.plain L) in
  (forall v, v ∈ visits L (root (model L)) 0 false None ->
     exists n', heap L' !! v_node v = Some n' /\
                has_rectangle (solverDims (draw n'))) /\
  (forall r n, heap L !! r = Some n ->
     exists n', heap L' !! r = Some n' /\ dims (draw n') = dims (draw n)) /\
  (forall r, r ∉ (v_node <$> visits L (root (model L)) 0 false None) ->
     heap L' !! r = heap L !! r).
Proof.
  refine (@init_assigns_visited Fixtures.plain (Fixtures.uninitialised true) _
            preserve_rectangle_snapshots identity_columns_only
            identity_columns_only eq_refl _ _).
  - vm_compute. reflexivity.
  - vm_compute. repeat constructor; set_solver.
Defined.

(** The two scenarios of the specification: two sibling leaves of a model
    of two leaves lie at y = 0 and y = 0.5 with height 0.5; in the chain
    root > A > B the leaf B has y = 0 and height 1, and the root the width
    of its column. *)
Example two_sibling_leaves :
  let walk := @_computeSolverNormalizedPositions Fixtures.plain
                (root (model Fixtures.two_leaves_layout)) 0 false None
                Fixtures.two_leaves_layout in
  returned walk /\
  solver_coord (final walk) 1%nat "y" = Num 0 /\
  solver_coord (final walk) 1%nat "height" = Num 0.5 /\
  solver_coord (final walk) 2%nat "y" = Num 0.5 /\
  solver_coord (final walk) 2%nat "height" = Num 0.5.
Proof. cbv zeta. split_and!; vm_compute; done. Qed.

Example chain_of_three :
  let walk := @_computeSolverNormalizedPositions Fixtures.plain
                (root (model Fixtures.chain_layout)) 0 false None
                Fixtures.chain_layout in
  returned walk /\
  solver_coord (final walk) 2%nat "y" = Num 0 /\
  solver_coord (final walk) 2%nat "height" = Num 1 /\
  solver_coord (final walk) 0%nat "width" = Num (50 / 200) /\
  visibleSolverNodes (final walk) = [2%nat] /\
  zoomedSolverNodes (final walk) = [0%nat; 1%nat; 2%nat].
Proof. cbv zeta. split_and!; vm_compute; done. Qed.

(** The claim's position fails at the layout of the witness below: the
    input, which is not visible, gets x = 150/300 = 0.5, the location of the
    partition column one level below its parent component, while that
    parent is at x = 0.25 in the partition tree and, after the walk, in the
    solver tree; only its y, 0, is the parent's. *)
Lemma hidden_x_is_next_column :
  let walk := @_computeSolverNormalizedPositions Fixtures.plain
                Fixtures.input_tree 0 false None Fixtures.input_layout in
  returned walk /\
  (isVisible <$> heap Fixtures.input_layout !! 3%nat) = Some false /\
  (parentComponent <$> heap Fixtures.input_layout !! 3%nat) = Some (Some 1%nat) /\
  solver_coord (final walk) 3%nat "x" = Num 0.5 /\
  solver_coord (final walk) 3%nat "y" = Num 0 /\
  ((fun n => get_prop (dims (draw n)) "x") <$> heap (final walk) !! 1%nat)
    = Some (Num 0.25) /\
  ((fun n => get_prop (dims (draw n)) "y") <$> heap (final walk) !! 1%nat)
    = Some (Num 0) /\
  solver_coord (final walk) 1%nat "x" = Num 0.25 /\
  PrimFloat.eqb 0.5 0.25 = false.
Proof.
  cbv zeta. split_and!; vm_compute; done.
Qed.

Lemma hidden_nodes_pinned_witness :
  exists n' pc pcn c,
    heap (final (@_computeSolverNormalizedPositions Fixtures.plain
                   Fixtures.input_tree 0 false None Fixtures.input_layout))
      !! 3%nat = Some n' /\
    parentComponent
      (Fixtures.input 3 (Some 1%nat) (Fixtures.rect 0.5 0 0.5 0)
         (Fixtures.rect 0 0 0 0)) = Some pc /\
    heap Fixtures.input_layout !! pc = Some pcn /\
    at_index (cols Fixtures.input_layout) (depth pcn + 1) = Some c /\
    let d := solverDims (draw n') in
    get_prop d "x" =
      Num (col_location c / width (partitionTree (size Fixtures.input_layout))) /\
    get_prop d "y" = get_prop (dims (draw pcn)) "y" /\
    get_prop d "width" = Num 1e-6 /\
    get_prop d "height" = Num 1e-6 /\
    PrimFloat.ltb 0 1e-6 = true.
Proof.
  refine (@hidden_nodes_pinned Fixtures.plain Fixtures.input_tree 0 false None
            Fixtures.input_layout _
            (mkVisit 3%nat 0 true None None []) _
            preserve_rectangle_snapshots _ _ _ _ _).
  - vm_compute. reflexivity.
  - vm_compute. repeat constructor; set_solver.
  - vm_compute. do 2 right. by left.
  - vm_compute. reflexivity.
  - reflexivity.
Defined.

End GeometryFacts.

(** ** Dimensions: the constructor and the copy *)
Module DimensionsUse.
Import Js Dimensions DimensionsLoops DimensionsFacts.

Lemma allowedProps_NoDup : NoDup allowedProps.
Proof. apply (bool_decide_unpack _). vm_compute. exact I. Qed.

(** The loop adds the names it finds in the order of the list. *)
Lemma initFrom_loop_managed_filter obj b l d :
  NoDup l -> (forall p, p ∈ l -> p ∉ _managedProps d) ->
  _managedProps (initFrom_loop obj b l d) =
  _managedProps d ++ filter (fun p => is_Some (obj !! p)) l.
Proof.
  revert d. induction l as [|q l IH]; intros d Hl Hd.
  - cbn. by rewrite app_nil_r.
  - apply NoDup_cons in Hl as [Hq Hl].
    rewrite initFrom_loop_cons, filter_cons.
    assert (Hqd : q ∉ _managedProps d) by (apply Hd; by left).
    rewrite IH; [|done|].
    + rewrite initFrom_step_managed. destruct (has obj q) eqn:Hhas.
      * apply has_true in Hhas. rewrite decide_True by done.
        unfold Set_add. rewrite decide_False by done.
        by rewrite <- app_assoc.
      * rewrite decide_False; [done|]. rewrite <- has_true. congruence.
    + intros p Hp. rewrite initFrom_step_managed.
      destruct (has obj q); [|apply Hd; by right].
      rewrite elem_of_Set_add. intros [->|Hin]; [done|].
      by apply (Hd p); [right|].
Qed.

Lemma initFrom_managed obj u b d :
  _managedProps (initFrom obj u b d) =
  filter (fun p => is_Some (obj !! p)) allowedProps.
Proof.
  rewrite initFrom_unfold, initFrom_loop_managed_filter.
  - by destruct b.
  - apply allowedProps_NoDup.
  - intros p _. destruct b; cbn; by intros ?%elem_of_nil.
Qed.

Lemma elem_of_managed obj u b d p :
  p ∈ _managedProps (initFrom obj u b d) <->
  p ∈ allowedProps /\ is_Some (obj !! p).
Proof. rewrite initFrom_managed, list_elem_of_filter. tauto. Qed.

Lemma initFrom_own obj u b d p :
  own (initFrom obj u b d) !! p =
  if decide (p ∈ allowedProps /\ is_Some (obj !! p)) then obj !! p
  else own d !! p.
Proof.
  rewrite initFrom_unfold, initFrom_loop_own.
  case_decide as Hp.
  - destruct Hp as [_ [v Hv]]. unfold get. by rewrite Hv.
  - by destruct b.
Qed.

Lemma initFrom_prev obj u b d p :
  prev (initFrom obj u b d) !! p =
  if b then
    if decide (p ∈ allowedProps /\ is_Some (obj !! p)) then Some (Num 0%float)
    else None
  else prev d !! p.
Proof.
  rewrite initFrom_unfold, initFrom_loop_prev. destruct b.
  - case_decide as Hp.
    + rewrite decide_True; [done|]. by destruct Hp.
    + rewrite decide_False; [done|]. intros ?. apply Hp. by split.
  - rewrite decide_False; [done|]. by intros [? _].
Qed.

Lemma initFrom_unit obj u b d : unit (initFrom obj u b d) = u.
Proof. rewrite initFrom_unfold, initFrom_loop_unit. by destruct b. Qed.

(** X1: [new Dimensions(obj, unit)] keeps of [obj] exactly the properties with
    an allowed name: they are its coordinates, with the values [obj] gives
    them, and its managed names, in the order of [allowedProps] whatever
    the order of the keys of [obj]; each has the previous value 0, and
    nothing else has one. *)
Theorem constructor_keeps_allowed (obj : gmap string value) (u : string) :
  let d := new obj u in
  unit d = u /\
  _managedProps d = filter (fun p => is_Some (obj !! p)) allowedProps /\
  (forall p, own d !! p = if decide (p ∈ allowedProps) then obj !! p else None) /\
  (forall p, prev d !! p =
             if decide (p ∈ _managedProps d) then Some (Num 0%float) else None).
Proof.
  intros d. subst d. unfold new. split_and!.
  - apply initFrom_unit.
  - apply initFrom_managed.
  - intros p. rewrite initFrom_own. cbn.
    destruct (decide (p ∈ allowedProps)) as [Ha|Ha].
    + case_decide as Hp; [done|].
      destruct (obj !! p) eqn:Hv; [|done]. destruct Hp. by split.
    + rewrite decide_False; [by rewrite lookup_empty|]. by intros [? _].
  - intros p. rewrite initFrom_prev.
    destruct (decide (p ∈ _managedProps _)) as [Hp%elem_of_managed|Hp].
    + by rewrite decide_True.
    + rewrite decide_False; [done|]. intros ?. by apply Hp, elem_of_managed.
Qed.

(** X2: although [copyFrom(other)] ends in a TypeError, the statements before
    the failing loop have run: the receiver manages the allowed names of
    [other]'s coordinates, in the order of [allowedProps], has [other]'s
    value for each, and keeps its own value for every other property. When
    [other] has only allowed coordinates and the receiver's are among
    them, the receiver's coordinates are those of [other]. *)
Theorem copyFrom_copies_coordinates (other this : Dimensions) :
  let d := final (copyFrom other this) in
  _managedProps d = filter (fun p => is_Some (own other !! p)) allowedProps /\
  (forall p, p ∈ _managedProps d -> own d !! p = own other !! p) /\
  (forall p, p ∉ _managedProps d -> own d !! p = own this !! p) /\
  (own this ⊆ own other ->
   (forall p, is_Some (own other !! p) -> p ∈ allowedProps) ->
   own d = own other).
Proof.
  intros d.
  assert (Hd : d = set_prev ∅ (initFrom (as_object other) (unit other) false this))
    by reflexivity.
  assert (Hm : _managedProps d =
               filter (fun p => is_Some (own other !! p)) allowedProps).
  { rewrite Hd. exact (initFrom_managed _ _ _ _). }
  assert (Ho : forall p, own d !! p =
                 if decide (p ∈ allowedProps /\ is_Some (own other !! p))
                 then own other !! p else own this !! p).
  { intros p. rewrite Hd. exact (initFrom_own _ _ _ _ p). }
  split_and!.
  - done.
  - intros p Hp. rewrite Hm in Hp. apply list_elem_of_filter in Hp.
    rewrite Ho, decide_True; [done|tauto].
  - intros p Hp. rewrite Ho, decide_False; [done|].
    intros [? ?]. apply Hp. rewrite Hm. by apply list_elem_of_filter.
  - intros Hsub Hall. apply map_eq. intros p. rewrite Ho.
    case_decide as Hp; [done|].
    destruct (own this !! p) as [v|] eqn:Hv.
    + symmetry. by apply (lookup_weaken _ _ _ _ Hv).
    + destruct (own other !! p) as [w|] eqn:Hw; [|done].
      destruct Hp. split; [apply Hall; by rewrite Hw|by eexists].
Qed.

(** X3: [initFrom] is idempotent: a second call with the same arguments changes
    nothing. *)
Theorem initFrom_idempotent (obj : gmap string value) (u : string)
    (initPrev : bool) (this : Dimensions) :
  initFrom obj u initPrev (initFrom obj u initPrev this) =
  initFrom obj u initPrev this.
Proof.
  apply Dimensions_eq.
  - by rewrite !initFrom_unit.
  - by rewrite !initFrom_managed.
  - apply map_eq. intros p. rewrite (initFrom_own _ _ _ (initFrom _ _ _ _)).
    case_decide as Hp; [|done]. by rewrite initFrom_own, decide_True.
  - apply map_eq. intros p. rewrite (initFrom_prev _ _ _ (initFrom _ _ _ _)).
    destruct initPrev; [|done]. by rewrite initFrom_prev.
Qed.

End DimensionsUse.

(** ** OmLayout: when the solver column widths can be computed *)
Module ColumnEdges.
Import Js OmLayout OmLayoutSpec Float64 FloatFacts ColumnFacts.

Lemma at_index_is_Some {A : Type} (arr : list A) (i : Z) :
  is_Some (at_index arr i) <-> 0 <= i < Z.of_nat (length arr).
Proof.
  unfold at_index. destruct (Z.ltb_spec i 0) as [Hlt|Hge].
  - split; [by intros [? ?]|lia].
  - rewrite lookup_lt_is_Some. lia.
Qed.

Lemma set_col_width_is_Some (i : Z) (w : float) (arr : list Column) :
  is_Some (set_col_width i w arr) <-> 0 <= i < Z.of_nat (length arr).
Proof.
  rewrite <- at_index_is_Some. unfold set_col_width.
  destruct (at_index arr i); split; intros [? ?]; try done; by eexists.
Qed.

Lemma set_col_width_locations (i : Z) (w : float) (arr arr' : list Column) :
  set_col_width i w arr = Some arr' ->
  forall j, col_location <$> at_index arr' j = col_location <$> at_index arr j.
Proof.
  intros Hset j. destruct (decide (j = i)) as [->|Hne].
  - unfold set_col_width in Hset.
    destruct (at_index arr i) as [c|] eqn:Hc; [|done].
    injection Hset as <-. apply at_index_Some in Hc as [Hi Hc].
    replace (at_index (<[Z.to_nat i:=_]> arr) i)
      with (Some (mkColumn w (col_location c))); [done|].
    symmetry. apply at_index_Some. split; [done|].
    apply list_lookup_insert_eq. by eapply lookup_lt_Some.
  - by destruct (set_col_width_lookup _ _ _ _ Hset) as (_ & _ & ->).
Qed.

Lemma shortfall_loop_is_Some cols leaf idx sum last :
  is_Some (shortfall_loop cols leaf idx sum last) <->
  Forall (fun i => is_Some (at_index cols i)) idx.
Proof.
  revert sum last. induction idx as [|i idx IH]; intros sum last; cbn.
  - split; [constructor|by eexists].
  - rewrite Forall_cons. destruct (at_index cols i) as [c|].
    + rewrite IH. split; [by split; [eexists|]|tauto].
    + split; [by intros [? ?]|by intros [[? ?] _]].
Qed.

Lemma elem_of_loop_indices (len : nat) (depth i : Z) :
  i ∈ loop_indices len depth <-> depth <= i < Z.of_nat len.
Proof. unfold loop_indices. rewrite elem_of_reverse, elem_of_seqZ. lia. Qed.

(** The loop of lines 96 to 100 reads [this.solverCols[i]] at every depth
    [i] from the zoomed element's to the last of the leaf widths. *)
Lemma loop_in_range (cols : list Column) (len : nat) (depth : Z) :
  1 <= depth <= Z.of_nat (length cols) ->
  Forall (fun i => is_Some (at_index cols i)) (loop_indices len depth) <->
  (len <= length cols)%nat.
Proof.
  intros Hd. rewrite Forall_forall. split.
  - intros Hall. destruct (decide (depth < Z.of_nat len)) as [Hlt|Hge]; [|lia].
    assert (Hlast : Z.of_nat len - 1 ∈ loop_indices len depth)
      by (apply elem_of_loop_indices; lia).
    apply Hall, at_index_is_Some in Hlast. lia.
  - intros Hlen i Hi%elem_of_loop_indices. apply at_index_is_Some. lia.
Qed.

Lemma adjust_ends_returns_iff (L : OmLayout) :
  returned (adjust_ends L) <->
  exists z, heap L !! zoomedElement L = Some z /\
    1 <= depth z <= Z.of_nat (length (solverCols L)) /\
    0 <= greatestDepth L < Z.of_nat (length (solverCols L)) /\
    (length (leafSolverWidthsPx L) <= length (solverCols L))%nat.
Proof.
  unfold adjust_ends, try.
  destruct (heap L !! zoomedElement L) as [z|]; [|split; [done|by intros (?&?&_)]].
  pose proof (shortfall_loop_is_Some (solverCols L) (leafSolverWidthsPx L)
                (loop_indices (length (leafSolverWidthsPx L)) (depth z)) 0 0)
    as Hloop.
  pose proof (set_col_width_is_Some (depth z - 1) (parentNodeWidth (size L))
                (solverCols L)) as H1.
  split.
  - destruct (shortfall_loop _ _ _ _ _) as [last|]; [|done].
    destruct (set_col_width (depth z - 1) _ _) as [c1|] eqn:Hc1; [|done].
    cbn [solverCols set_solverCols greatestDepth].
    destruct (set_col_width (greatestDepth L) last c1) as [c2|] eqn:Hc2; [|done].
    intros _. exists z. split; [done|].
    assert (Hd : 1 <= depth z <= Z.of_nat (length (solverCols L))).
    { assert (0 <= depth z - 1 < Z.of_nat (length (solverCols L)))
        by (apply H1; by eexists). lia. }
    destruct (set_col_width_lookup _ _ _ _ Hc1) as (_ & Hlen & _).
    split_and!; try lia.
    + assert (is_Some (set_col_width (greatestDepth L) last c1))
        as Hg%set_col_width_is_Some by by eexists. lia.
    + assert (is_Some (set_col_width (greatestDepth L) last c1))
        as Hg%set_col_width_is_Some by by eexists. lia.
    + apply (loop_in_range _ _ _ Hd), Hloop. by eexists.
  - intros (z' & [= <-] & Hd & Hg & Hlen).
    destruct (proj2 Hloop) as [last ->].
    { by apply loop_in_range. }
    destruct (proj2 H1) as [c1 Hc1]; [lia|]. rewrite Hc1.
    cbn [solverCols set_solverCols greatestDepth].
    destruct (set_col_width_lookup _ _ _ _ Hc1) as (_ & Hlen1 & _).
    destruct (proj2 (set_col_width_is_Some (greatestDepth L) last c1))
      as [c2 ->]; [lia|]. done.
Qed.

Lemma adjust_ends_throws_TypeError (L : OmLayout) :
  match adjust_ends L with
  | Ok _ => True
  | Throw e _ => exists msg, e = TypeError msg
  end.
Proof.
  unfold adjust_ends, try, dangling, undefined_read, undefined_write.
  repeat (case_match; try done);
    match goal with H : Throw _ _ = Throw _ _ |- _ => injection H as <- <- end;
    by eexists.
Qed.

Section Widths.
Context `{Collaborators}.

(** X4: [_computeSolverColumnWidths()] returns exactly when [maxDepth + 1] is
    a valid array length (between 0 and 2^32 - 1) and, in the arrays the
    widest-text pass of the base class hands back, the zoomed element's
    depth is between 1 and the number of solver columns, the greatest
    depth indexes a solver column, and there are no more leaf widths than
    solver columns. It throws a RangeError when [maxDepth + 1] is not a
    valid array length, and a TypeError (a property of [undefined] read or
    set) in every other case. *)
Theorem column_widths_return_iff (L : OmLayout) :
  let L1 := after_widest_text L in
  (returned (_computeSolverColumnWidths L) <->
   0 <= maxDepth (model L) + 1 <= 2 ^ 32 - 1 /\
   exists z, heap L1 !! zoomedElement L1 = Some z /\
     1 <= depth z <= Z.of_nat (length (solverCols L1)) /\
     0 <= greatestDepth L1 < Z.of_nat (length (solverCols L1)) /\
     (length (leafSolverWidthsPx L1) <= length (solverCols L1))%nat) /\
  (maxDepth (model L) + 1 < 0 \/ 2 ^ 32 - 1 < maxDepth (model L) + 1 ->
   exists L', _computeSolverColumnWidths L =
                Throw (RangeError "Invalid array length") L') /\
  (0 <= maxDepth (model L) + 1 <= 2 ^ 32 - 1 ->
   ~ returned (_computeSolverColumnWidths L) ->
   exists msg L', _computeSolverColumnWidths L = Throw (TypeError msg) L').
Proof.
  intros L1. subst L1. unfold after_widest_text, _computeSolverColumnWidths.
  unfold reset_columns. cbn [model set_greatestDepth].
  set (n := maxDepth (model L) + 1).
  destruct (Z.ltb_spec n 0) as [Hneg|Hpos];
    [|destruct (Z.ltb_spec (2 ^ 32 - 1) n) as [Hbig|Hsmall]];
    cbn [orb bind final].
  - split_and!.
    + split; [done|]. intros [? _]. lia.
    + intros _. by eexists.
    + intros ?. lia.
  - split_and!.
    + split; [done|]. intros [? _]. lia.
    + intros _. by eexists.
    + intros ?. lia.
  - split_and!.
    + rewrite adjust_ends_returns_iff. split; [intros ?; split; [lia|done]|tauto].
    + intros ?. lia.
    + intros _ Hnot.
      pose proof (adjust_ends_throws_TypeError
                    (_setColumnWidthsFromWidestText
                       (set_solverCols
                          (replicate (Z.to_nat n) (mkColumn 0 0))
                          (set_leafSolverWidthsPx
                             (replicate (Z.to_nat n) 0%float)
                             (set_greatestDepth 0 L))))) as Hthrow.
      destruct (adjust_ends _) as [L'|e L'] eqn:Hadj; [by destruct Hnot|].
      destruct Hthrow as [msg ->]. by exists msg, L'.
Qed.

(** X5: where the two assignments of lines 102 and 103 land: the column at the
    greatest depth always gets the last column width (the largest, by
    [Math.max], of 0 and the shortfalls); the column just above the zoomed
    element's depth has the parent-node width unless it is that same
    column, in which case the parent-node width is overwritten. The last
    column width is NaN as soon as one shortfall is. *)
Theorem last_width_wins (L L' : OmLayout) (z : OmTreeNode) :
  _computeSolverColumnWidths L = Ok L' ->
  heap L' !! zoomedElement L' = Some z ->
  let L1 := after_widest_text L in
  let S := shortfalls (solverCols L1) (leafSolverWidthsPx L1)
             (loop_indices (length (leafSolverWidthsPx L1)) (depth z)) 0 in
  width_at (solverCols L') (greatestDepth L') = Some (max0 S) /\
  width_at (solverCols L') (depth z - 1) =
    Some (if decide (greatestDepth L' = depth z - 1) then max0 S
          else parentNodeWidth (size L')) /\
  (Exists (fun s => PrimFloat.is_nan s = true) S ->
   PrimFloat.is_nan (max0 S) = true).
Proof.
  intros Hrun Hz L1 S.
  unfold _computeSolverColumnWidths in Hrun.
  destruct (reset_columns L) as [L0|] eqn:H0; [|done]. cbn in Hrun.
  assert (HL1 : _setColumnWidthsFromWidestText L0 = L1).
  { unfold L1, after_widest_text. by rewrite H0. }
  rewrite HL1 in Hrun.
  apply adjust_ends_spec in Hrun as (z' & c1 & Hz' & Hc1 & Hc2 & HL').
  assert (z' = z) as ->.
  { rewrite HL' in Hz. cbn in Hz. congruence. }
  fold S in Hc2.
  assert (Hsize : size L' = size L1) by by rewrite HL'.
  assert (Hg : greatestDepth L' = greatestDepth L1) by by rewrite HL'.
  rewrite Hsize, Hg.
  destruct (set_col_width_lookup _ _ _ _ Hc1) as (Hw1 & _ & _).
  destruct (set_col_width_lookup _ _ _ _ Hc2) as (Hw2 & _ & Hother).
  split_and!.
  - done.
  - case_decide as Hd.
    + by rewrite <- Hd.
    + unfold width_at in *. rewrite Hother; [done|]. congruence.
  - unfold max0. generalize 0%float. clear.
    induction S as [|s S IH]; intros acc HS; [by inversion HS|].
    cbn. apply Exists_cons in HS as [Hs|HS]; [|by apply IH].
    assert (Hn : PrimFloat.is_nan (Math_max s acc) = true)
      by by rewrite Math_max_nan, Hs.
    revert Hn. generalize (Math_max s acc). clear.
    induction S as [|s' S IH]; intros acc Hacc; [done|].
    cbn. apply IH. by rewrite Math_max_nan, Hacc, orb_true_r.
Qed.

(** X6: of what the widest-text pass hands back, [_computeSolverColumnWidths()]
    changes nothing but the widths of those two columns: the layout is
    otherwise the same, no column is added or removed, every other column
    is the same object, and every column keeps its location. *)
Theorem column_widths_frame (L L' : OmLayout) (z : OmTreeNode) :
  _computeSolverColumnWidths L = Ok L' ->
  heap L' !! zoomedElement L' = Some z ->
  let L1 := after_widest_text L in
  L' = set_solverCols (solverCols L') L1 /\
  length (solverCols L') = length (solverCols L1) /\
  (forall j, j <> depth z - 1 -> j <> greatestDepth L1 ->
     at_index (solverCols L') j = at_index (solverCols L1) j) /\
  (forall j, col_location <$> at_index (solverCols L') j =
             col_location <$> at_index (solverCols L1) j).
Proof.
  intros Hrun Hz L1.
  unfold _computeSolverColumnWidths in Hrun.
  destruct (reset_columns L) as [L0|] eqn:H0; [|done]. cbn in Hrun.
  assert (HL1 : _setColumnWidthsFromWidestText L0 = L1).
  { unfold L1, after_widest_text. by rewrite H0. }
  rewrite HL1 in Hrun.
  apply adjust_ends_spec in Hrun as (z' & c1 & Hz' & Hc1 & Hc2 & HL').
  assert (z' = z) as ->.
  { rewrite HL' in Hz. cbn in Hz. congruence. }
  destruct (set_col_width_lookup _ _ _ _ Hc1) as (_ & Hlen1 & Hother1).
  destruct (set_col_width_lookup _ _ _ _ Hc2) as (_ & Hlen2 & Hother2).
  split_and!.
  - done.
  - congruence.
  - intros j Hj1 Hj2. by rewrite Hother2, Hother1.
  - intros j. rewrite (set_col_width_locations _ _ _ _ Hc2).
    apply (set_col_width_locations _ _ _ _ Hc1).
Qed.

End Widths.

Lemma last_width_wins_witness :
  let L := Fixtures.uninitialised true in
  let L' := final (@_computeSolverColumnWidths Scenarios.shallow L) in
  let L1 := @after_widest_text Scenarios.shallow L in
  let S := shortfalls (solverCols L1) (leafSolverWidthsPx L1)
             (loop_indices (length (leafSolverWidthsPx L1)) 2) 0 in
  width_at (solverCols L') (greatestDepth L') = Some (max0 S) /\
  width_at (solverCols L') (2 - 1) =
    Some (if decide (greatestDepth L' = 2 - 1) then max0 S
          else parentNodeWidth (size L')) /\
  (Exists (fun s => PrimFloat.is_nan s = true) S ->
   PrimFloat.is_nan (max0 S) = true).
Proof.
  cbv zeta.
  refine (@last_width_wins Scenarios.shallow (Fixtures.uninitialised true) _
            (Fixtures.group "subsystem" 2 (Some 0%nat) 1
               (Fixtures.rect 0.25 0 0.25 1) (Fixtures.rect 0.25 0 0.25 0.5))
            _ _).
  - vm_compute. reflexivity.
  - vm_compute. reflexivity.
Defined.

(** At that layout the parent-node width, 20, is lost: the column above
    the zoomed element ends 120 wide. *)
Example parent_width_lost :
  let L' := final (@_computeSolverColumnWidths Scenarios.shallow
                     (Fixtures.uninitialised true)) in
  width_at (solverCols L') 1 = Some 120%float /\
  parentNodeWidth (size L') = 20%float.
Proof. cbv zeta. split; vm_compute; reflexivity. Qed.

Lemma column_widths_frame_witness :
  let L := Fixtures.uninitialised true in
  let L' := final (@_computeSolverColumnWidths Fixtures.measured L) in
  let L1 := @after_widest_text Fixtures.measured L in
  L' = set_solverCols (solverCols L') L1 /\
  length (solverCols L') = length (solverCols L1) /\
  (forall j, j <> 2 - 1 -> j <> greatestDepth L1 ->
     at_index (solverCols L') j = at_index (solverCols L1) j) /\
  (forall j, col_location <$> at_index (solverCols L') j =
             col_location <$> at_index (solverCols L1) j).
Proof.
  cbv zeta.
  refine (@column_widths_frame Fixtures.measured (Fixtures.uninitialised true) _
            (Fixtures.group "subsystem" 2 (Some 0%nat) 1
               (Fixtures.rect 0.25 0 0.25 1) (Fixtures.rect 0.25 0 0.25 0.5))
            _ _).
  - vm_compute. reflexivity.
  - vm_compute. reflexivity.
Defined.

End ColumnEdges.

(** ** OmLayout: the lists of solver nodes, and when the walk returns *)
Module WalkMore.
Import Js OmLayout OmLayoutSpec WalkSpec WalkLists WalkFacts Tactics.

(** *** The two lists *)

Lemma pushes_zoomed_static L1 L2 v :
  static L1 = static L2 -> pushes_zoomed L1 v = pushes_zoomed L2 v.
Proof.
  intros Hst. unfold pushes_zoomed. destruct (v_incoming v); [done|].
  destruct (heap L1 !! v_node v) as [n1|] eqn:Hn1.
  - destruct (static_lookup _ _ _ _ Hst Hn1) as (n2 & -> & Hn).
    apply static_node_fields in Hn as (_ & Hty & _). by rewrite Hty.
  - by rewrite (static_lookup_None _ _ _ Hst Hn1).
Qed.

Lemma pushes_visible_static L1 L2 v :
  static L1 = static L2 -> pushes_visible L1 v = pushes_visible L2 v.
Proof.
  intros Hst. unfold pushes_visible. destruct (v_incoming v); [done|].
  destruct (heap L1 !! v_node v) as [n1|] eqn:Hn1.
  - destruct (static_lookup _ _ _ _ Hst Hn1) as (n2 & -> & Hn).
    apply static_node_fields in Hn as (_&_&_&_&_&_&_&_&_&_&_&_&Hvl&Hin&_).
    by rewrite Hvl, Hin.
  - by rewrite (static_lookup_None _ _ _ Hst Hn1).
Qed.

Lemma pushed_static L1 L2 vs :
  static L1 = static L2 ->
  pushed (pushes_zoomed L1) vs = pushed (pushes_zoomed L2) vs /\
  pushed (pushes_visible L1) vs = pushed (pushes_visible L2) vs.
Proof.
  intros Hst. unfold pushed. split; f_equal; apply List.filter_ext; intros v.
  - by apply pushes_zoomed_static.
  - by apply pushes_visible_static.
Qed.

Lemma pushed_app f vs ws : pushed f (vs ++ ws) = pushed f vs ++ pushed f ws.
Proof. unfold pushed. by rewrite List.filter_app, fmap_app. Qed.

Lemma lists_after_static `{Collaborators} vs L1 L2 L' :
  static L1 = static L2 ->
  zoomedSolverNodes L1 = zoomedSolverNodes L2 ->
  visibleSolverNodes L1 = visibleSolverNodes L2 ->
  lists_after vs L1 L' -> lists_after vs L2 L'.
Proof.
  intros Hst Hz Hv [Hz' Hv']. destruct (pushed_static L1 L2 vs Hst) as [Ez Ev].
  split; congruence.
Qed.

Lemma lists_after_trans `{Collaborators} vs ws L L1 L2 :
  static L1 = static L ->
  lists_after vs L L1 -> lists_after ws L1 L2 -> lists_after (vs ++ ws) L L2.
Proof.
  intros Hst [Hz1 Hv1] [Hz2 Hv2].
  destruct (pushed_static L1 L ws Hst) as [Ez Ev].
  split; rewrite pushed_app, app_assoc; congruence.
Qed.

Lemma record_node_lists `{Collaborators} n r lc ic emp a cs L :
  heap L !! r = Some n ->
  lists_after [mkVisit r lc ic emp a cs] L (record_node n r ic emp L).
Proof.
  intros Hn. unfold lists_after, pushed, pushes_zoomed, pushes_visible, record_node.
  cbn. rewrite Hn.
  destruct emp, ic, (is_subsystem_or_root (type n)), (isVisibleLeaf n),
    (isInput n); cbn; by rewrite ?app_nil_r.
Qed.

Section Lists.
Context `{Collaborators}.
Hypothesis Hpd : preserveDims_snapshots.

Lemma children_lists cs :
  Forall lists_spec cs ->
  forall lc ic emp L L',
    for_children _computeSolverNormalizedPositions cs lc ic emp L = Ok L' ->
    lists_after (children_visits L (visits L) cs lc ic emp) L L'.
Proof.
  intros Hcs. induction Hcs as [|c cs Hc Hcs IH]; intros lc ic emp L L'.
  { cbn. intros [= <-]. split; cbn; by rewrite app_nil_r. }
  cbn [for_children children_visits]. unfold try.
  destruct (heap L !! tree_ref c) as [cn|] eqn:Hcn; [|done].
  destruct (negb (isInputOrOutput cn) || negb (minimized (draw cn))); [|apply IH].
  destruct (_computeSolverNormalizedPositions c lc ic _ L) as [L1|] eqn:Hwalk;
    [|done].
  cbn [bind].
  destruct (tree_spec_all Hpd c _ _ _ _ _ Hwalk) as (Hst1 & _ & _).
  destruct (static_lookup _ _ _ _ (eq_sym Hst1) Hcn) as (cn1 & -> & Hs).
  apply static_node_fields in Hs as (_&_&_&_&_&_&_&_&_&HN&_).
  rewrite HN. intros Hrest.
  apply (lists_after_trans _ _ L L1 L'); [done|by apply Hc|].
  rewrite <- (children_visits_static L1 L cs Hst1)
    by (apply Forall_forall; intros; by apply visits_static).
  by apply IH.
Qed.

Lemma lists_spec_all t : lists_spec t.
Proof.
  induction t as [r cs IH] using Tree_ind_Forall.
  intros lc ic emp L L'. rewrite walk_unfold. cbn [visits]. unfold try.
  destruct (heap L !! r) as [n|] eqn:Hn; [|done].
  destruct (instanceofOmTreeNode n); cbn [negb].
  2:{ intros [= <-]. split; cbn; by rewrite app_nil_r. }
  set (ic' := enters_zoomed L r ic). set (a := anchor n r ic' emp).
  destruct (visit r lc ic' emp n L) as [L3|] eqn:Hvisit; [|done].
  cbn [bind].
  destruct (visit_spec Hpd r lc ic' emp n L L3 Hn Hvisit) as (d3 & HL3 & _).
  destruct (static_record_node n r ic' emp L) as [Hst0 Hh0].
  assert (Hst3 : static L3 = static L).
  { rewrite HL3, static_put; [done|]. by rewrite Hh0. }
  assert (Hn3 : heap L3 !! r = Some (set_solverDims d3 n)).
  { rewrite HL3. apply heap_put_eq. }
  assert (Hl3 : lists_after [mkVisit r lc ic' emp a cs] L L3).
  { destruct (record_node_lists n r lc ic' emp a cs L Hn) as [Hz Hv].
    split; rewrite HL3; cbn; [apply Hz|apply Hv]. }
  rewrite Hn3.
  change (hasChildren (set_solverDims d3 n)) with (hasChildren n).
  destruct (hasChildren n).
  - intros Hrest.
    change (?v :: ?l) with ([v] ++ l).
    apply (lists_after_trans _ _ L L3 L'); [done|done|].
    rewrite <- (children_visits_static L3 L cs Hst3)
      by (apply Forall_forall; intros; by apply visits_static).
    by apply (children_lists cs IH).
  - intros [= <-]. done.
Qed.

End Lists.

(** *** A walk that returns *)

Lemma heap_put_lookup r r' n n' m L :
  heap L !! r = Some n -> static_node n' = static_node n ->
  heap L !! r' = Some m ->
  exists m', heap (put r n' L) !! r' = Some m' /\
             static_node m' = static_node m.
Proof.
  intros Hn Hs Hm. destruct (decide (r' = r)) as [->|Hne].
  - exists n'. rewrite heap_put_eq. split; [done|]. congruence.
  - exists m. by rewrite heap_put_ne.
Qed.

Lemma assign_geometry_hidden_returns r lc a L n pc pcn c :
  heap L !! r = Some n -> isVisible n = false ->
  parentComponent n = Some pc -> heap L !! pc = Some pcn ->
  at_index (cols L) (depth pcn + 1) = Some c ->
  exists L', assign_geometry r lc a L = Ok L'.
Proof.
  intros Hn Hvis Hpc Hpcn Hc. unfold assign_geometry, try.
  rewrite Hn, Hvis. cbn [negb]. rewrite Hpc, Hpcn, Hc.
  rewrite (assign_put r "x" _ L n Hn).
  destruct (heap_put_lookup r pc n
              (with_coord "x"
                 (Num (col_location c / width (partitionTree (size L)))) n)
              pcn L Hn eq_refl Hpcn) as (pcn' & -> & _).
  by eexists.
Qed.

Lemma assign_geometry_visible_returns r lc a L n wn c rt :
  heap L !! r = Some n -> isVisible n = true ->
  heap L !! default r a = Some wn ->
  at_index (solverCols L) (depth wn) = Some c ->
  heap L !! tree_ref (root (model L)) = Some rt ->
  exists L', assign_geometry r lc a L = Ok L'.
Proof.
  intros Hn Hvis Hwn Hc Hrt. unfold assign_geometry, try.
  rewrite Hn, Hvis. cbn [negb]. rewrite Hwn, Hc.
  rewrite (assign_put r "x" _ L n Hn).
  set (n1 := with_coord "x" _ n). set (L1 := put r n1 L).
  change (model L1) with (model L).
  destruct (heap_put_lookup r (tree_ref (root (model L))) n n1 rt L Hn eq_refl Hrt)
    as (rt1 & Hrt1 & _).
  fold L1 in Hrt1. rewrite Hrt1.
  rewrite (assign_put r "y" _ L1 _ (heap_put_eq _ _ _)). subst L1.
  rewrite put_put. set (n2 := with_coord "y" _ n1). set (L2 := put r n2 L).
  destruct (heap_put_lookup r (default r a) n n2 wn L Hn eq_refl Hwn)
    as (wn2 & Hwn2 & Hs2).
  fold L2 in Hwn2. rewrite Hwn2. cbv beta iota.
  apply static_node_fields in Hs2 as (_ & _ & Hd2 & _). rewrite Hd2.
  change (solverCols L2) with (solverCols L). rewrite Hc.
  assert (Hw : exists w,
             (if subsystem_children n && negb (minimized (draw n))
              then Ok (assign r "width"
                     (Num (col_width c / width (solverTree (size L2)))) L2)
              else Ok (assign r "width"
                     (Num (1 - num (solverDims (draw wn2)) "x")) L2))
             = Ok (assign r "width" (Num w) L2)).
  { destruct (_ && _); by eexists. }
  destruct Hw as [w ->]. cbn [bind].
  rewrite (assign_put r "width" _ L2 _ (heap_put_eq _ _ _)). subst L2.
  rewrite put_put. set (n3 := with_coord "width" _ n2). set (L3 := put r n3 L).
  destruct (heap_put_lookup r (default r a) n n3 wn L Hn eq_refl Hwn)
    as (wn3 & Hwn3 & _).
  fold L3 in Hwn3. rewrite Hwn3.
  change (model L3) with (model L).
  destruct (heap_put_lookup r (tree_ref (root (model L))) n n3 rt L Hn eq_refl Hrt)
    as (rt3 & Hrt3 & _).
  fold L3 in Hrt3. rewrite Hrt3. by eexists.
Qed.

Lemma ready_true L v n :
  ready L v = true -> heap L !! v_node v = Some n ->
  (isVisible n = true ->
   exists wn c rt,
     heap L !! v_workNode v = Some wn /\
     at_index (solverCols L) (depth wn) = Some c /\
     heap L !! tree_ref (root (model L)) = Some rt) /\
  (isVisible n = false ->
   exists pc pcn c,
     parentComponent n = Some pc /\ heap L !! pc = Some pcn /\
     at_index (cols L) (depth pcn + 1) = Some c).
Proof.
  unfold ready. intros Hr Hn. rewrite Hn in Hr. split; intros Hvis;
    rewrite Hvis in Hr.
  - destruct (heap L !! v_workNode v) as [wn|]; [|done].
    destruct (heap L !! tree_ref (root (model L))) as [rt|]; [|done].
    apply bool_decide_eq_true in Hr as [c Hc]. by exists wn, c, rt.
  - destruct (parentComponent n) as [pc|]; [|done].
    destruct (heap L !! pc) as [pcn|] eqn:Hpcn; [|done].
    apply bool_decide_eq_true in Hr as [c Hc]. by exists pc, pcn, c.
Qed.

Lemma static_lookup_eq L1 L2 r :
  static L1 = static L2 ->
  static_node <$> heap L1 !! r = static_node <$> heap L2 !! r.
Proof.
  intros Hst. apply (f_equal heap) in Hst. cbn in Hst.
  apply (f_equal (fun h => h !! r)) in Hst. by rewrite !lookup_fmap in Hst.
Qed.

Lemma ready_static L1 L2 v :
  static L1 = static L2 -> ready L1 v = ready L2 v.
Proof.
  intros Hst. unfold ready.
  destruct (static_fields _ _ Hst) as (Hm & _ & _ & Hcols & Hsc).
  rewrite Hm, Hcols, Hsc.
  assert (Hlook : forall r, match heap L1 !! r, heap L2 !! r with
                            | Some n1, Some n2 => static_node n1 = static_node n2
                            | None, None => True
                            | _, _ => False
                            end).
  { intros r. pose proof (static_lookup_eq L1 L2 r Hst) as Hr.
    destruct (heap L1 !! r) as [n1|], (heap L2 !! r) as [n2|]; try done.
    change (Some (static_node n1) = Some (static_node n2)) in Hr.
    congruence. }
  pose proof (Hlook (v_node v)) as Hv.
  destruct (heap L1 !! v_node v) as [n1|], (heap L2 !! v_node v) as [n2|];
    try done.
  apply static_node_fields in Hv as (_&_&_&_&Hpc&_&_&_&_&_&_&Hvis&_).
  rewrite Hvis, Hpc. destruct (isVisible n2).
  - pose proof (Hlook (v_workNode v)) as Hw.
    pose proof (Hlook (tree_ref (root (model L2)))) as Hrt.
    destruct (heap L1 !! v_workNode v) as [w1|],
      (heap L2 !! v_workNode v) as [w2|]; try done.
    destruct (heap L1 !! tree_ref (root (model L2))),
      (heap L2 !! tree_ref (root (model L2))); try done.
    apply static_node_fields in Hw as (_&_&Hd&_). by rewrite Hd.
  - destruct (parentComponent n2) as [pc|]; [|done].
    pose proof (Hlook pc) as Hp.
    destruct (heap L1 !! pc) as [p1|], (heap L2 !! pc) as [p2|]; try done.
    apply static_node_fields in Hp as (_&_&Hd&_). by rewrite Hd.
Qed.

Lemma static_is_Some L1 L2 r :
  static L1 = static L2 -> is_Some (heap L1 !! r) -> is_Some (heap L2 !! r).
Proof.
  intros Hst [n1 Hn1]. destruct (static_lookup _ _ _ _ Hst Hn1) as (n2 & ? & _).
  by exists n2.
Qed.

Section Returns.
Context `{Collaborators}.
Hypothesis Hpd : preserveDims_snapshots.

Lemma visit_returns r lc ic emp n cs L :
  heap L !! r = Some n ->
  ready L (mkVisit r lc ic emp (anchor n r ic emp) cs) = true ->
  exists L3, visit r lc ic emp n L = Ok L3.
Proof.
  intros Hn Hready. unfold visit.
  destruct (static_record_node n r ic emp L) as [Hst1 Hh1].
  set (L1 := record_node n r ic emp L) in *.
  assert (Hn1 : heap L1 !! r = Some n) by by rewrite Hh1.
  unfold call_preserveDims. rewrite Hn1.
  destruct (Hpd lc n) as (d & -> & Hd).
  fold (put r (set_solverDims d n) L1). set (L2 := put r _ L1).
  assert (Hst2 : static L2 = static L).
  { unfold L2. by rewrite static_put. }
  assert (Hn2 : heap L2 !! r = Some (set_solverDims d n)) by apply heap_put_eq.
  rewrite <- (ready_static L2 L _ Hst2) in Hready.
  destruct (ready_true L2 _ _ Hready Hn2) as [Hv Hh].
  change (isVisible (set_solverDims d n)) with (isVisible n) in *.
  change (parentComponent (set_solverDims d n)) with (parentComponent n) in *.
  destruct (isVisible n) eqn:Hvis.
  - destruct (Hv eq_refl) as (wn & c & rt & Hwn & Hc & Hrt).
    by apply (assign_geometry_visible_returns r lc _ L2
                (set_solverDims d n) wn c rt).
  - destruct (Hh eq_refl) as (pc & pcn & c & Hpc & Hpcn & Hc).
    by apply (assign_geometry_hidden_returns r lc _ L2
                (set_solverDims d n) pc pcn c).
Qed.

Lemma children_return cs :
  Forall returns_spec cs ->
  forall lc ic emp L,
    Forall (fun r => is_Some (heap L !! r)) (concat (map tree_refs cs)) ->
    Forall (fun v => ready L v = true)
      (children_visits L (visits L) cs lc ic emp) ->
    exists L',
      for_children _computeSolverNormalizedPositions cs lc ic emp L = Ok L'.
Proof.
  intros Hcs. induction Hcs as [|c cs Hc Hcs IH]; intros lc ic emp L.
  { intros _ _. by eexists. }
  cbn [map concat]. intros [Hrc Hrs]%Forall_app.
  cbn [for_children children_visits]. unfold try.
  assert (Hcn : is_Some (heap L !! tree_ref c)).
  { destruct c as [r' cs']. by apply Forall_cons in Hrc as [? _]. }
  destruct Hcn as [cn Hcn]. rewrite Hcn.
  destruct (negb (isInputOrOutput cn) || negb (minimized (draw cn)));
    [|by apply IH].
  intros [Hvc Hvs]%Forall_app.
  destruct (Hc lc ic (child_anchor cn emp) L Hrc Hvc) as [L1 Hwalk].
  rewrite Hwalk. cbn [bind].
  destruct (tree_spec_all Hpd c _ _ _ _ _ Hwalk) as (Hst1 & _ & _).
  destruct (static_lookup _ _ _ _ (eq_sym Hst1) Hcn) as (cn1 & -> & Hs).
  apply static_node_fields in Hs as (_&_&_&_&_&_&_&_&_&HN&_).
  rewrite HN. apply IH.
  - eapply Forall_impl; [exact Hrs|]. intros r'.
    by apply static_is_Some.
  - rewrite (children_visits_static L1 L cs Hst1)
      by (apply Forall_forall; intros; by apply visits_static).
    eapply Forall_impl; [exact Hvs|]. intros v.
    by rewrite (ready_static L1 L v Hst1).
Qed.

Lemma returns_spec_all t : returns_spec t.
Proof.
  induction t as [r cs IH] using Tree_ind_Forall.
  intros lc ic emp L. cbn [tree_refs]. intros [[n Hn] Hrs]%Forall_cons.
  rewrite walk_unfold. cbn [visits]. unfold try. rewrite Hn.
  destruct (instanceofOmTreeNode n); cbn [negb]; [|intros _; by eexists].
  set (ic' := enters_zoomed L r ic). set (a := anchor n r ic' emp).
  intros [Hv Hvs]%Forall_cons.
  destruct (visit_returns r lc ic' emp n cs L Hn Hv) as [L3 Hvisit].
  rewrite Hvisit. cbn [bind].
  destruct (visit_spec Hpd r lc ic' emp n L L3 Hn Hvisit) as (d3 & HL3 & _).
  destruct (static_record_node n r ic' emp L) as [Hst0 Hh0].
  assert (Hst3 : static L3 = static L).
  { rewrite HL3, static_put; [done|]. by rewrite Hh0. }
  assert (Hn3 : heap L3 !! r = Some (set_solverDims d3 n)).
  { rewrite HL3. apply heap_put_eq. }
  rewrite Hn3.
  change (hasChildren (set_solverDims d3 n)) with (hasChildren n).
  destruct (hasChildren n); [|by eexists].
  apply (children_return cs IH).
  - eapply Forall_impl; [exact Hrs|]. intros r'.
    apply static_is_Some. by symmetry.
  - rewrite (children_visits_static L3 L cs Hst3)
      by (apply Forall_forall; intros; by apply visits_static).
    eapply Forall_impl; [exact Hvs|]. intros v.
    by rewrite (ready_static L3 L v Hst3).
Qed.

End Returns.

(** *** Below a collapsed node, and outside the zoomed subtree *)

Lemma anchored_children_counters L cs :
  Forall (fun t => forall lc ic w u,
            u ∈ visits L t lc ic (Some w) -> v_leafCounter u = lc) cs ->
  forall lc ic w u,
    u ∈ children_visits L (visits L) cs lc ic (Some w) -> v_leafCounter u = lc.
Proof.
  intros Hcs. induction Hcs as [|c cs Hc Hcs IH]; intros lc ic w u.
  { by intros ?%elem_of_nil. }
  cbn [children_visits].
  destruct (heap L !! tree_ref c) as [cn|]; [|by intros ?%elem_of_nil].
  destruct (negb (isInputOrOutput cn) || negb (minimized (draw cn))); [|apply IH].
  assert (Ha : exists w', child_anchor cn (Some w) = Some w').
  { unfold child_anchor. destruct (filterParent (draw cn)); by eexists. }
  destruct Ha as [w' ->].
  intros [Hu|Hu]%elem_of_app; [by eapply Hc|by eapply IH].
Qed.

Lemma anchored_counters L t :
  forall lc ic w u, u ∈ visits L t lc ic (Some w) -> v_leafCounter u = lc.
Proof.
  induction t as [r cs IH] using Tree_ind_Forall.
  intros lc ic w u. cbn [visits].
  destruct (heap L !! r) as [n|]; [|by intros ?%elem_of_nil].
  destruct (negb (instanceofOmTreeNode n)); [by intros ?%elem_of_nil|].
  intros [->|Hu]%elem_of_cons; [done|].
  destruct (hasChildren n); [|by apply elem_of_nil in Hu].
  by eapply (anchored_children_counters L cs IH).
Qed.

Lemma outside_children L cs :
  Forall (fun t => zoomedElement L ∉ tree_refs t ->
            forall lc emp v,
              v ∈ visits L t lc false emp -> v_isChildOfZoomed v = false) cs ->
  zoomedElement L ∉ concat (map tree_refs cs) ->
  forall lc emp v,
    v ∈ children_visits L (visits L) cs lc false emp ->
    v_isChildOfZoomed v = false.
Proof.
  intros Hcs. induction Hcs as [|c cs Hc Hcs IH]; intros Hz lc emp v.
  { by intros ?%elem_of_nil. }
  cbn [map concat] in Hz. rewrite elem_of_app in Hz.
  cbn [children_visits].
  destruct (heap L !! tree_ref c) as [cn|]; [|by intros ?%elem_of_nil].
  destruct (negb (isInputOrOutput cn) || negb (minimized (draw cn)));
    [|apply IH; tauto].
  intros [Hv|Hv]%elem_of_app; [eapply Hc|eapply IH]; try exact Hv; tauto.
Qed.

Lemma visits_outside_zoom L t :
  zoomedElement L ∉ tree_refs t ->
  forall lc emp v, v ∈ visits L t lc false emp -> v_isChildOfZoomed v = false.
Proof.
  induction t as [r cs IH] using Tree_ind_Forall.
  cbn [tree_refs]. intros Hz lc emp v. cbn [visits].
  destruct (heap L !! r) as [n|]; [|by intros ?%elem_of_nil].
  destruct (negb (instanceofOmTreeNode n)); [by intros ?%elem_of_nil|].
  assert (Hr : enters_zoomed L r false = false).
  { unfold enters_zoomed. apply bool_decide_eq_false. intros ->.
    apply Hz. by left. }
  rewrite Hr. intros [->|Hv]%elem_of_cons; [done|].
  destruct (hasChildren n); [|by apply elem_of_nil in Hv].
  eapply (outside_children L cs IH); [|exact Hv].
  intros ?. apply Hz. by right.
Qed.

(** *** The order of the visits, and the zoomed subtree *)

Lemma children_visits_sublist L cs :
  Forall (fun t => forall lc ic emp,
            v_node <$> visits L t lc ic emp `sublist_of` tree_refs t) cs ->
  forall lc ic emp,
    v_node <$> children_visits L (visits L) cs lc ic emp
      `sublist_of` concat (map tree_refs cs).
Proof.
  intros Hcs. induction Hcs as [|c cs Hc Hcs IH]; intros lc ic emp.
  { apply sublist_nil_l. }
  cbn [children_visits map concat].
  destruct (heap L !! tree_ref c) as [cn|]; [|apply sublist_nil_l].
  destruct (negb (isInputOrOutput cn) || negb (minimized (draw cn))).
  - rewrite fmap_app. by apply sublist_app.
  - by apply sublist_inserts_l.
Qed.

Lemma visits_sublist L t :
  forall lc ic emp, v_node <$> visits L t lc ic emp `sublist_of` tree_refs t.
Proof.
  induction t as [r cs IH] using Tree_ind_Forall.
  intros lc ic emp. cbn [visits tree_refs].
  destruct (heap L !! r) as [n|]; [|apply sublist_nil_l].
  destruct (negb (instanceofOmTreeNode n)); [apply sublist_nil_l|].
  rewrite fmap_cons. cbn [v_node]. apply sublist_skip.
  destruct (hasChildren n); [|apply sublist_nil_l].
  by apply children_visits_sublist.
Qed.

Lemma inside_children L cs :
  Forall (fun t => forall lc emp u,
            u ∈ visits L t lc true emp -> v_isChildOfZoomed u = true) cs ->
  forall lc emp u,
    u ∈ children_visits L (visits L) cs lc true emp ->
    v_isChildOfZoomed u = true.
Proof.
  intros Hcs. induction Hcs as [|c cs Hc Hcs IH]; intros lc emp u.
  { by intros ?%elem_of_nil. }
  cbn [children_visits].
  destruct (heap L !! tree_ref c) as [cn|]; [|by intros ?%elem_of_nil].
  destruct (negb (isInputOrOutput cn) || negb (minimized (draw cn))); [|apply IH].
  intros [Hu|Hu]%elem_of_app; [by eapply Hc|by eapply IH].
Qed.

Lemma visits_inside_zoom L t :
  forall lc emp u, u ∈ visits L t lc true emp -> v_isChildOfZoomed u = true.
Proof.
  induction t as [r cs IH] using Tree_ind_Forall.
  intros lc emp u. cbn [visits].
  destruct (heap L !! r) as [n|]; [|by intros ?%elem_of_nil].
  destruct (negb (instanceofOmTreeNode n)); [by intros ?%elem_of_nil|].
  cbn [enters_zoomed]. intros [->|Hu]%elem_of_cons; [done|].
  destruct (hasChildren n); [|by apply elem_of_nil in Hu].
  by eapply (inside_children L cs IH).
Qed.

Lemma zoomed_children L cs :
  Forall (fun t => forall lc ic emp v,
            v ∈ visits L t lc ic emp -> v_node v = zoomedElement L ->
            v_isChildOfZoomed v = true) cs ->
  forall lc ic emp v,
    v ∈ children_visits L (visits L) cs lc ic emp ->
    v_node v = zoomedElement L -> v_isChildOfZoomed v = true.
Proof.
  intros Hcs. induction Hcs as [|c cs Hc Hcs IH]; intros lc ic emp v.
  { by intros ?%elem_of_nil. }
  cbn [children_visits].
  destruct (heap L !! tree_ref c) as [cn|]; [|by intros ?%elem_of_nil].
  destruct (negb (isInputOrOutput cn) || negb (minimized (draw cn))); [|apply IH].
  intros [Hv|Hv]%elem_of_app; [by eapply Hc|by eapply IH].
Qed.

Lemma visits_at_zoomed L t :
  forall lc ic emp v,
    v ∈ visits L t lc ic emp -> v_node v = zoomedElement L ->
    v_isChildOfZoomed v = true.
Proof.
  induction t as [r cs IH] using Tree_ind_Forall.
  intros lc ic emp v. cbn [visits].
  destruct (heap L !! r) as [n|]; [|by intros ?%elem_of_nil].
  destruct (negb (instanceofOmTreeNode n)); [by intros ?%elem_of_nil|].
  intros [->|Hv]%elem_of_cons.
  - cbn. intros ->. unfold enters_zoomed. destruct ic; [done|].
    by apply bool_decide_eq_true.
  - destruct (hasChildren n); [|by apply elem_of_nil in Hv].
    by eapply (zoomed_children L cs IH).
Qed.

Lemma pushed_nil f vs :
  (forall v, v ∈ vs -> f v = false) -> pushed f vs = [].
Proof.
  intros Hall. unfold pushed. induction vs as [|v vs IH]; [done|].
  cbn. rewrite Hall by by left. apply IH. intros u Hu. apply Hall. by right.
Qed.

Lemma elem_of_pushed f vs r :
  r ∈ pushed f vs <-> exists v, v ∈ vs /\ f v = true /\ v_node v = r.
Proof.
  unfold pushed. rewrite list_elem_of_fmap. split.
  - intros (v & -> & Hv). apply list_elem_of_In, List.filter_In in Hv as [Hv Hf].
    exists v. by rewrite list_elem_of_In.
  - intros (v & Hv & Hf & <-). exists v. split; [done|].
    apply list_elem_of_In, List.filter_In. by rewrite <- list_elem_of_In.
Qed.

End WalkMore.

(** ** OmLayout: further properties of the solver geometry pass *)
Module WalkProperties.
Import Js OmLayout OmLayoutSpec WalkSpec WalkLists WalkFacts WalkMore Tactics.

Section Pass.
Context `{Collaborators}.

(** X7: when a call of the walk returns, it has appended to
    [zoomedSolverNodes], in the order of the visits, the nodes of type
    subsystem or root that it met inside the zoomed subtree with a null
    [earliestMinimizedParent] (no collapsed ancestor, no filter parent),
    and to [visibleSolverNodes] the visible leaves met in the same way
    that are not inputs; it removes and reorders nothing. *)
Theorem walk_pushes (t : Tree) (lc : float) (ic : bool) (emp : option ref)
    (L L' : OmLayout) :
  preserveDims_snapshots ->
  _computeSolverNormalizedPositions t lc ic emp L = Ok L' ->
  let vs := visits L t lc ic emp in
  zoomedSolverNodes L' = zoomedSolverNodes L ++ pushed (pushes_zoomed L) vs /\
  visibleSolverNodes L' =
    visibleSolverNodes L ++ pushed (pushes_visible L) vs /\
  (forall r n, r ∈ pushed (pushes_zoomed L) vs -> heap L !! r = Some n ->
     is_subsystem_or_root (type n) = true) /\
  (forall r n, r ∈ pushed (pushes_visible L) vs -> heap L !! r = Some n ->
     isVisibleLeaf n = true /\ isInput n = false).
Proof.
  intros Hpd Hwalk vs.
  destruct (lists_spec_all Hpd t lc ic emp L L' Hwalk) as [Hz Hv].
  split_and!; [done|done| |].
  - intros r n (v & _ & Hf & <-)%elem_of_pushed Hn.
    unfold pushes_zoomed in Hf. rewrite Hn in Hf.
    destruct (v_incoming v); [done|]. by apply andb_true_iff in Hf as [_ ?].
  - intros r n (v & _ & Hf & <-)%elem_of_pushed Hn.
    unfold pushes_visible in Hf. rewrite Hn in Hf.
    destruct (v_incoming v); [done|].
    apply andb_true_iff in Hf as [[_ ?]%andb_true_iff ?%negb_true_iff]. done.
Qed.

(** X8: a call on a subtree that does not hold the zoomed element, made from
    outside the zoomed subtree, pushes nothing on the two lists. *)
Theorem walk_outside_zoom (t : Tree) (lc : float) (emp : option ref)
    (L L' : OmLayout) :
  preserveDims_snapshots ->
  zoomedElement L ∉ tree_refs t ->
  _computeSolverNormalizedPositions t lc false emp L = Ok L' ->
  zoomedSolverNodes L' = zoomedSolverNodes L /\
  visibleSolverNodes L' = visibleSolverNodes L.
Proof.
  intros Hpd Hz Hwalk.
  destruct (lists_spec_all Hpd t lc false emp L L' Hwalk) as [-> ->].
  pose proof (visits_outside_zoom L t Hz lc emp) as Hout.
  rewrite !pushed_nil, !app_nil_r; [done| |].
  - intros v Hv%Hout. unfold pushes_visible. rewrite Hv.
    by repeat case_match.
  - intros v Hv%Hout. unfold pushes_zoomed. rewrite Hv.
    by repeat case_match.
Qed.

(** X9: the walk returns, without a TypeError, on every layout in which each
    reference of the tree names a node object and each visit finds what
    it reads: a node that is not visible its parent component and the
    partition column one level below it, a visible node its work node,
    the solver column at the work node's depth, and the root. *)
Theorem well_formed_walk_returns (t : Tree) (lc : float) (ic : bool)
    (emp : option ref) (L : OmLayout) :
  preserveDims_snapshots ->
  all_nodes_exist L t = true ->
  forallb (ready L) (visits L t lc ic emp) = true ->
  exists L', _computeSolverNormalizedPositions t lc ic emp L = Ok L'.
Proof.
  intros Hpd Hrefs Hready. apply (returns_spec_all Hpd).
  - apply Forall_forall. intros r Hr%list_elem_of_In.
    unfold all_nodes_exist in Hrefs.
    rewrite List.forallb_forall in Hrefs.
    specialize (Hrefs r Hr). by apply bool_decide_eq_true in Hrefs.
  - apply Forall_forall. intros v Hv%list_elem_of_In.
    rewrite List.forallb_forall in Hready. by apply Hready.
Qed.

(** X10: a visible node met below a collapsed node, with that node as its
    work node, is given the x, y and height of the collapsed node: it is
    drawn over it. *)
Theorem collapsed_descendants_overlay (t : Tree) (lc : float) (ic : bool)
    (emp : option ref) (L L' : OmLayout) (v u : Visit) (nv nu : OmTreeNode) :
  preserveDims_snapshots ->
  _computeSolverNormalizedPositions t lc ic emp L = Ok L' ->
  NoDup (v_node <$> visits L t lc ic emp) ->
  v ∈ visits L t lc ic emp ->
  heap L !! v_node v = Some nv ->
  hasChildren nv = true -> isVisible nv = true ->
  v_anchor v = Some (v_node v) ->
  u ∈ below L v -> v_anchor u = Some (v_node v) ->
  heap L !! v_node u = Some nu -> isVisible nu = true ->
  is_Some (heap L' !! v_node v) /\ is_Some (heap L' !! v_node u) /\
  solver_coord L' (v_node u) "x" = solver_coord L' (v_node v) "x" /\
  solver_coord L' (v_node u) "y" = solver_coord L' (v_node v) "y" /\
  solver_coord L' (v_node u) "height" = solver_coord L' (v_node v) "height".
Proof.
  intros Hpd Hwalk Hnd Hv Hnv Hcv Hvv Hav Hu Hau Hnu Hvu.
  destruct (tree_spec_all Hpd t lc ic emp L L' Hwalk) as (_ & _ & Hdone).
  assert (Hu' : u ∈ visits L t lc ic emp)
    by by eapply (visits_below L t lc ic emp v nv u).
  assert (Hlc : v_leafCounter u = v_leafCounter v).
  { unfold below in Hu. rewrite Hav in Hu.
    by eapply (anchored_children_counters L (v_children v));
      [apply Forall_forall; intros; by eapply anchored_counters|]. }
  destruct (Hdone Hnd v Hv) as (nv0 & nv' & Hnv0 & Hnv' & _ & Hpv).
  destruct (Hdone Hnd u Hu') as (nu0 & nu' & Hnu0 & Hnu' & _ & Hpu).
  assert (nv0 = nv) as -> by congruence.
  assert (nu0 = nu) as -> by congruence.
  destruct (Hpv Hvv) as (wn & c & rt & Hwn & Hc & Hrt & Hx & Hy & Hh & _).
  destruct (Hpu Hvu) as (wn2 & c2 & rt2 & Hwn2 & Hc2 & Hrt2 & Hx2 & Hy2 & Hh2 & _).
  unfold v_workNode in Hwn, Hwn2. rewrite Hav in Hwn. rewrite Hau in Hwn2.
  cbn in Hwn, Hwn2.
  assert (wn2 = wn) as -> by congruence.
  assert (c2 = c) as -> by congruence.
  assert (rt2 = rt) as -> by congruence.
  unfold solver_coord, get_prop, get. rewrite Hnv', Hnu'.
  rewrite Hx, Hy, Hh, Hx2, Hy2, Hh2, Hlc. split_and!; by try eexists.
Qed.

(** X11: a call on a node that is not visible and has no parent component
    throws a TypeError at line 151, before it has given the node's solver
    rectangle any coordinate. *)
Theorem hidden_without_parent_throws (r : ref) (cs : list Tree) (lc : float)
    (ic : bool) (emp : option ref) (L : OmLayout) (n : OmTreeNode) :
  preserveDims_snapshots ->
  heap L !! r = Some n ->
  instanceofOmTreeNode n = true ->
  isVisible n = false ->
  parentComponent n = None ->
  exists L' n',
    _computeSolverNormalizedPositions (TNode r cs) lc ic emp L =
      Throw (undefined_read "depth") L' /\
    heap L' !! r = Some n' /\
    own (solverDims (draw n')) = own (solverDims (draw n)) /\
    static L' = static L.
Proof.
  intros Hpd Hn Hi Hvis Hpc. rewrite walk_unfold. unfold try.
  rewrite Hn, Hi. cbn [negb]. unfold visit.
  destruct (static_record_node n r (enters_zoomed L r ic) emp L) as [Hst1 Hh1].
  set (L1 := record_node n r _ emp L) in *.
  assert (Hn1 : heap L1 !! r = Some n) by by rewrite Hh1.
  unfold call_preserveDims. rewrite Hn1.
  destruct (Hpd lc n) as (d & -> & Hd).
  fold (put r (set_solverDims d n) L1). set (L2 := put r _ L1).
  unfold assign_geometry, try. unfold L2 at 1. rewrite heap_put_eq.
  change (isVisible (set_solverDims d n)) with (isVisible n).
  change (parentComponent (set_solverDims d n)) with (parentComponent n).
  rewrite Hvis, Hpc. cbn [negb bind].
  exists L2, (set_solverDims d n). split_and!; [done|apply heap_put_eq|done|].
  unfold L2. by rewrite static_put.
Qed.

(** X12: on a tree whose node objects are distinct, the walk visits the
    nodes in the order of a pre-order traversal and none twice; when it
    returns, every node it visited holds the rectangle of its visit, and
    the node objects outside the tree are untouched. *)
Theorem distinct_nodes_visited_once (t : Tree) (lc : float) (ic : bool)
    (emp : option ref) (L L' : OmLayout) :
  preserveDims_snapshots ->
  NoDup (tree_refs t) ->
  _computeSolverNormalizedPositions t lc ic emp L = Ok L' ->
  (v_node <$> visits L t lc ic emp) `sublist_of` tree_refs t /\
  NoDup (v_node <$> visits L t lc ic emp) /\
  (forall v, v ∈ visits L t lc ic emp -> visit_done L v L') /\
  (forall r, r ∉ tree_refs t -> heap L' !! r = heap L !! r).
Proof.
  intros Hpd Hnd Hwalk.
  pose proof (visits_sublist L t lc ic emp) as Hsub.
  assert (Hnv : NoDup (v_node <$> visits L t lc ic emp))
    by by eapply sublist_NoDup.
  destruct (tree_spec_all Hpd t lc ic emp L L' Hwalk) as (_ & Hframe & Hdone).
  split_and!; [done|done|by apply Hdone|].
  intros r Hr. apply Hframe. intros Hin. apply Hr.
  by eapply elem_of_sublist.
Qed.

(** X13: when a call of the walk returns, every node it met at or below
    the zoomed element with a null [earliestMinimizedParent] is on
    [zoomedSolverNodes] if its type is subsystem or root, and on
    [visibleSolverNodes] if it is a visible leaf that is not an input. *)
Theorem zoomed_subtree_listed (t : Tree) (lc : float) (ic : bool)
    (emp : option ref) (L L' : OmLayout) (z u : Visit) (nz nu : OmTreeNode) :
  preserveDims_snapshots ->
  _computeSolverNormalizedPositions t lc ic emp L = Ok L' ->
  z ∈ visits L t lc ic emp ->
  v_node z = zoomedElement L ->
  heap L !! v_node z = Some nz ->
  u = z \/ (hasChildren nz = true /\ u ∈ below L z) ->
  heap L !! v_node u = Some nu ->
  v_incoming u = None ->
  (is_subsystem_or_root (type nu) = true ->
   v_node u ∈ zoomedSolverNodes L') /\
  (isVisibleLeaf nu = true -> isInput nu = false ->
   v_node u ∈ visibleSolverNodes L').
Proof.
  intros Hpd Hwalk Hz Hzoom Hnz Hu Hnu Hinc.
  destruct (lists_spec_all Hpd t lc ic emp L L' Hwalk) as [-> ->].
  pose proof (visits_at_zoomed L t lc ic emp z Hz Hzoom) as Hfz.
  assert (Huv : u ∈ visits L t lc ic emp /\ v_isChildOfZoomed u = true).
  { destruct Hu as [->|[Hc Hu]]; [done|]. split.
    - by eapply (visits_below L t lc ic emp z nz u).
    - unfold below in Hu. rewrite Hfz in Hu.
      eapply (inside_children L (v_children z)); [|exact Hu].
      apply Forall_forall. intros; by eapply visits_inside_zoom. }
  destruct Huv as [Huv Hfu]. split.
  - intros Hty. apply elem_of_app. right. apply elem_of_pushed.
    exists u. split_and!; [done| |done].
    unfold pushes_zoomed. by rewrite Hinc, Hnu, Hfu, Hty.
  - intros Hvl Hin. apply elem_of_app. right. apply elem_of_pushed.
    exists u. split_and!; [done| |done].
    unfold pushes_visible. by rewrite Hinc, Hnu, Hfu, Hvl, Hin.
Qed.

(** X14: after [_init()] with [showSolvers] true, [zoomedSolverNodes] holds
    what it held, then the nodes the walk from the root pushed, then the
    zoomed element's parent when it has one; [visibleSolverNodes] holds
    what it held, then what the walk pushed. [_init()] does not empty the
    lists: only the constructor does. *)
Theorem init_solver_node_lists (L L' : OmLayout) (z : OmTreeNode) :
  preserveDims_snapshots ->
  columns_only _setColumnWidthsFromWidestText ->
  columns_only _setColumnLocations ->
  keeps_solver_lists _setColumnWidthsFromWidestText ->
  keeps_solver_lists _setColumnLocations ->
  showSolvers L = true ->
  _init L = Ok L' ->
  heap L !! zoomedElement L = Some z ->
  let vs := visits L (root (model L)) 0 false None in
  zoomedSolverNodes L' =
    zoomedSolverNodes L ++ pushed (pushes_zoomed L) vs
      ++ option_list (parent z) /\
  visibleSolverNodes L' =
    visibleSolverNodes L ++ pushed (pushes_visible L) vs.
Proof.
  intros Hpd Hw Hl Hkw Hkl Hs Hinit Hz vs. unfold _init in Hinit.
  rewrite Hs in Hinit.
  destruct (_computeSolverColumnWidths L) as [L1|] eqn:H1; [|done].
  cbn [bind] in Hinit. set (L2 := _setColumnLocations L1) in *.
  destruct (_computeSolverNormalizedPositions _ _ _ _ L2) as [L3|] eqn:H3;
    [|done].
  cbn [bind] in Hinit. unfold try in Hinit.
  destruct (heap L3 !! zoomedElement L3) as [z3|] eqn:Hz3; [|done].
  cbn [bind] in Hinit. injection Hinit as <-.
  assert (Hframe : heap L2 = heap L /\ model L2 = model L /\
                   zoomedElement L2 = zoomedElement L /\
                   zoomedSolverNodes L2 = zoomedSolverNodes L /\
                   visibleSolverNodes L2 = visibleSolverNodes L).
  { unfold L2. destruct (Hl L1) as (-> & -> & ->).
    destruct (Hkl L1) as (-> & ->).
    unfold _computeSolverColumnWidths in H1.
    destruct (reset_columns L) as [L0|] eqn:H0; [|done]. cbn [bind] in H1.
    apply ColumnFacts.adjust_ends_spec in H1 as (_ & _ & _ & _ & _ & ->).
    destruct (Hw L0) as (Hh & Hm & Hz0). destruct (Hkw L0) as (Hzl & Hvl).
    cbn. rewrite Hh, Hm, Hz0, Hzl, Hvl.
    unfold reset_columns in H0.
    destruct (_ || _); [done|]. by injection H0 as <-. }
  destruct Hframe as (Hh2 & Hm2 & Hz2 & Hzl2 & Hvl2).
  destruct (lists_spec_all Hpd _ _ _ _ _ _ H3) as [Hzs Hvs].
  destruct (tree_spec_all Hpd _ _ _ _ _ _ H3) as (Hst3 & _ & _).
  assert (Hvisits : visits L2 (root (model L2)) 0 false None = vs).
  { unfold vs. rewrite Hm2. by apply visits_same_heap. }
  rewrite Hvisits in Hzs, Hvs.
  assert (Hpz : pushed (pushes_zoomed L2) vs = pushed (pushes_zoomed L) vs).
  { unfold pushed. f_equal. apply List.filter_ext. intros v.
    unfold pushes_zoomed. by rewrite Hh2. }
  assert (Hpv : pushed (pushes_visible L2) vs = pushed (pushes_visible L) vs).
  { unfold pushed. f_equal. apply List.filter_ext. intros v.
    unfold pushes_visible. by rewrite Hh2. }
  assert (Hpar : parent z3 = parent z).
  { destruct (static_fields _ _ Hst3) as (_ & Hze & _).
    rewrite Hze, Hz2 in Hz3. rewrite <- Hh2 in Hz.
    destruct (static_lookup _ _ _ _ Hst3 Hz3) as (z2 & Hz2' & Hs2).
    assert (z2 = z) as -> by congruence.
    by apply static_node_fields in Hs2 as (_&_&_&Hp&_). }
  rewrite Hpar. split.
  - destruct (parent z); cbn; rewrite Hzs, Hzl2, Hpz.
    + by rewrite <- app_assoc.
    + by rewrite app_nil_r.
  - destruct (parent z); cbn; by rewrite Hvs, Hvl2, Hpv.
Qed.

End Pass.

Lemma identity_keeps_solver_lists : keeps_solver_lists (fun L => L).
Proof. by intros L. Qed.

Lemma walk_pushes_witness :
  let L := Fixtures.chain_layout in
  let L' := final (@_computeSolverNormalizedPositions Fixtures.plain
                     (root (model L)) 0 false None L) in
  let vs := visits L (root (model L)) 0 false None in
  zoomedSolverNodes L' = zoomedSolverNodes L ++ pushed (pushes_zoomed L) vs /\
  visibleSolverNodes L' =
    visibleSolverNodes L ++ pushed (pushes_visible L) vs /\
  (forall r n, r ∈ pushed (pushes_zoomed L) vs -> heap L !! r = Some n ->
     is_subsystem_or_root (type n) = true) /\
  (forall r n, r ∈ pushed (pushes_visible L) vs -> heap L !! r = Some n ->
     isVisibleLeaf n = true /\ isInput n = false).
Proof.
  cbv zeta.
  refine (@walk_pushes Fixtures.plain (root (model Fixtures.chain_layout)) 0
            false None Fixtures.chain_layout _
            GeometryFacts.preserve_rectangle_snapshots _).
  vm_compute. reflexivity.
Defined.

Lemma walk_outside_zoom_witness :
  let L := Fixtures.zoomed_layout in
  let L' := final (@_computeSolverNormalizedPositions Fixtures.plain
                     (TNode 2%nat []) 0 false None L) in
  zoomedSolverNodes L' = zoomedSolverNodes L /\
  visibleSolverNodes L' = visibleSolverNodes L.
Proof.
  cbv zeta.
  refine (@walk_outside_zoom Fixtures.plain (TNode 2%nat []) 0 None
            Fixtures.zoomed_layout _
            GeometryFacts.preserve_rectangle_snapshots _ _).
  - intros Hin. cbn in Hin. apply list_elem_of_singleton in Hin.
    discriminate Hin.
  - vm_compute. reflexivity.
Defined.

Lemma well_formed_walk_returns_witness :
  exists L',
    @_computeSolverNormalizedPositions Fixtures.plain Fixtures.five_tree 0
      false None Fixtures.five_layout = Ok L'.
Proof.
  refine (@well_formed_walk_returns Fixtures.plain Fixtures.five_tree 0 false
            None Fixtures.five_layout
            GeometryFacts.preserve_rectangle_snapshots _ _).
  - vm_compute. reflexivity.
  - vm_compute. reflexivity.
Defined.

Lemma collapsed_descendants_overlay_witness :
  let L := Scenarios.collapsed_layout in
  let L' := final (@_computeSolverNormalizedPositions Fixtures.plain
                     (root (model L)) 0 false None L) in
  is_Some (heap L' !! 1%nat) /\ is_Some (heap L' !! 2%nat) /\
  solver_coord L' 2%nat "x" = solver_coord L' 1%nat "x" /\
  solver_coord L' 2%nat "y" = solver_coord L' 1%nat "y" /\
  solver_coord L' 2%nat "height" = solver_coord L' 1%nat "height".
Proof.
  cbv zeta.
  refine (@collapsed_descendants_overlay Fixtures.plain
            (root (model Scenarios.collapsed_layout)) 0 false None
            Scenarios.collapsed_layout _
            (mkVisit 1%nat 0 true None (Some 1%nat) [TNode 2%nat []])
            (mkVisit 2%nat 0 true (Some 1%nat) (Some 1%nat) [])
            (Scenarios.collapsed 2 (Some 0%nat) 1 Fixtures.stale Fixtures.stale)
            (Fixtures.leaf "subsystem" 3 (Some 1%nat) Fixtures.stale
               Fixtures.stale)
            GeometryFacts.preserve_rectangle_snapshots _ _ _ _ _ _ _ _ _ _ _).
  - vm_compute. reflexivity.
  - vm_compute. repeat constructor; set_solver.
  - vm_compute. right. by left.
  - vm_compute. reflexivity.
  - reflexivity.
  - reflexivity.
  - reflexivity.
  - vm_compute. by left.
  - reflexivity.
  - vm_compute. reflexivity.
  - reflexivity.
Defined.

Lemma hidden_without_parent_throws_witness :
  exists L' n',
    @_computeSolverNormalizedPositions Fixtures.plain (TNode 0%nat []) 0 false
      None Scenarios.hidden_root_layout =
      Throw (undefined_read "depth") L' /\
    heap L' !! 0%nat = Some n' /\
    own (solverDims (draw n')) = own (solverDims (draw Scenarios.hidden_root)) /\
    static L' = static Scenarios.hidden_root_layout.
Proof.
  exact (@hidden_without_parent_throws Fixtures.plain 0%nat [] 0 false None
           Scenarios.hidden_root_layout Scenarios.hidden_root
           GeometryFacts.preserve_rectangle_snapshots
           eq_refl eq_refl eq_refl eq_refl).
Defined.

Lemma distinct_nodes_visited_once_witness :
  let L := Fixtures.five_layout in
  let t := Fixtures.five_tree in
  let L' := final (@_computeSolverNormalizedPositions Fixtures.plain t 0 false
                     None L) in
  (v_node <$> visits L t 0 false None) `sublist_of` tree_refs t /\
  NoDup (v_node <$> visits L t 0 false None) /\
  (forall v, v ∈ visits L t 0 false None -> visit_done L v L') /\
  (forall r, r ∉ tree_refs t -> heap L' !! r = heap L !! r).
Proof.
  cbv zeta.
  refine (@distinct_nodes_visited_once Fixtures.plain Fixtures.five_tree 0
            false None Fixtures.five_layout _
            GeometryFacts.preserve_rectangle_snapshots _ _).
  - vm_compute. repeat constructor; set_solver.
  - vm_compute. reflexivity.
Defined.

Lemma zoomed_subtree_listed_witness :
  let L := Fixtures.chain_layout in
  let L' := final (@_computeSolverNormalizedPositions Fixtures.plain
                     (root (model L)) 0 false None L) in
  (is_subsystem_or_root "subsystem" = true -> 2%nat ∈ zoomedSolverNodes L') /\
  (true = true -> false = false -> 2%nat ∈ visibleSolverNodes L').
Proof.
  cbv zeta.
  refine (@zoomed_subtree_listed Fixtures.plain
            (root (model Fixtures.chain_layout)) 0 false None
            Fixtures.chain_layout _
            (mkVisit 0%nat 0 true None None [TNode 1%nat [TNode 2%nat []]])
            (mkVisit 2%nat 0 true None (Some 2%nat) [])
            (Fixtures.group "root" 1 None 1 (Fixtures.rect 0 0 0 0)
               (Fixtures.rect 0 0 0 0))
            (Fixtures.leaf "subsystem" 3 (Some 1%nat) (Fixtures.rect 0 0 0 0)
               (Fixtures.rect 0 0 0 0))
            GeometryFacts.preserve_rectangle_snapshots _ _ _ _ _ _ _).
  - vm_compute. reflexivity.
  - vm_compute. by left.
  - reflexivity.
  - vm_compute. reflexivity.
  - right. split; [reflexivity|]. vm_compute. right. by left.
  - vm_compute. reflexivity.
  - reflexivity.
Defined.

Lemma init_solver_node_lists_witness :
  let L := Fixtures.uninitialised true in
  let L' := final (@_init Fixtures.plain L) in
  let vs := visits L (root (model L)) 0 false None in
  zoomedSolverNodes L' =
    zoomedSolverNodes L ++ pushed (pushes_zoomed L) vs
      ++ option_list (Some 0%nat) /\
  visibleSolverNodes L' =
    visibleSolverNodes L ++ pushed (pushes_visible L) vs.
Proof.
  cbv zeta.
  refine (@init_solver_node_lists Fixtures.plain (Fixtures.uninitialised true) _
            (Fixtures.group "subsystem" 2 (Some 0%nat) 1
               (Fixtures.rect 0.25 0 0.25 1) (Fixtures.rect 0.25 0 0.25 0.5))
            GeometryFacts.preserve_rectangle_snapshots
            GeometryFacts.identity_columns_only
            GeometryFacts.identity_columns_only
            identity_keeps_solver_lists identity_keeps_solver_lists
            eq_refl _ _).
  - vm_compute. reflexivity.
  - vm_compute. reflexivity.
Defined.

(** The lists of that layout after [_init()]: the zoomed subsystem, then
    its parent, the root; and the output, the only visible leaf. *)
Example init_lists_zoomed :
  let L' := final (@_init Fixtures.plain (Fixtures.uninitialised true)) in
  zoomedSolverNodes L' = [1%nat; 0%nat] /\ visibleSolverNodes L' = [2%nat].
Proof. cbv zeta. split; vm_compute; reflexivity. Qed.

End WalkProperties.

(** ** OmLayout: the scale methods in sequence *)
Module ScaleUse.
Import Js OmLayout OmLayoutSpec WalkSpec DimensionsLoops DimensionsFacts
  ScaleFacts Tactics.

Lemma set_prop_twice (d : Dimensions) (vx vy : value) :
  set_prop "y" vy (set_prop "x" vx (set_prop "y" vy (set_prop "x" vx d))) =
  set_prop "y" vy (set_prop "x" vx d).
Proof.
  apply Dimensions_eq; try done. cbn. apply map_eq. intros p.
  destruct (decide (p = "y")) as [->|Hy]; [by coord|].
  destruct (decide (p = "x")) as [->|Hx]; by coord.
Qed.

(** What [updateScaleValues()] does to the layout when it returns. *)
Lemma updateScaleValues_unfold (L L1 : OmLayout) :
  updateScaleValues L = Ok L1 ->
  exists z tc sc,
    heap L !! zoomedElement L = Some z /\
    transitCoords_solver L = Some tc /\
    scales_solver L = Some sc /\
    let e := solverDims (draw z) in
    let t := solverTree (size L) in
    let vx := Num ((if truthy (get_prop e "x")
                    then width t - parentNodeWidth (size L) else width t)
                   / (1 - num e "x")) in
    let vy := Num (height t / num e "height") in
    let sx := mkScaler (num e "x", 1%float)
                (if truthy (get_prop e "x") then parentNodeWidth (size L)
                 else 0%float, width t) in
    let sy := mkScaler (num e "y", (num e "y" + num e "height")%float)
                (0%float, height t) in
    L1 = set_scales_solver (Some (mkScale sx sy (scale_prev sc)))
           (set_transitCoords_solver
              (Some (set_prop "y" vy (set_prop "x" vx tc))) L).
Proof.
  unfold updateScaleValues, try.
  destruct (heap L !! zoomedElement L) as [z|]; [|done].
  destruct (transitCoords_solver L) as [tc|]; [|done]. cbn.
  destruct (scales_solver L) as [sc|]; [|done].
  intros [= <-]. by exists z, tc, sc.
Qed.

(** X15: [updateScaleValues()] is idempotent, and of the layout it changes
    nothing but the solver transit coordinates x and y and the two solver
    scalers: the node objects, the columns, the lists, and the previous
    values kept by both are as they were. *)
Theorem updateScaleValues_idempotent (L L1 : OmLayout) :
  updateScaleValues L = Ok L1 ->
  updateScaleValues L1 = Ok L1 /\
  L1 = set_scales_solver (scales_solver L1)
         (set_transitCoords_solver (transitCoords_solver L1) L) /\
  (prev <$> transitCoords_solver L1) = (prev <$> transitCoords_solver L) /\
  (scale_prev <$> scales_solver L1) = (scale_prev <$> scales_solver L).
Proof.
  intros Hrun.
  destruct (updateScaleValues_unfold L L1 Hrun)
    as (z & tc & sc & Hz & Htc & Hsc & HL1).
  cbv zeta in HL1. split_and!.
  - rewrite HL1 at 1. unfold updateScaleValues, try.
    cbn [heap zoomedElement set_scales_solver set_transitCoords_solver
         transitCoords_solver scales_solver size].
    rewrite Hz. cbn [scale_x scale_y scale_prev set_range set_domain domain range].
    rewrite set_prop_twice. by rewrite HL1.
  - by rewrite HL1.
  - by rewrite HL1, Htc.
  - by rewrite HL1, Hsc.
Qed.

(** X16: [preservePreviousScaleValues()] followed by [updateScaleValues()], on
    transit coordinates that manage x and y (as those [_init()] creates
    do): both return, and afterwards the previous x and y of the transit
    coordinates are the values they had before the two calls, while x and y
    are the new quotients. *)
Theorem update_after_preserve (L : OmLayout) (z : OmTreeNode)
    (tc : Dimensions) (sc : Scale) :
  heap L !! zoomedElement L = Some z ->
  transitCoords_solver L = Some tc ->
  scales_solver L = Some sc ->
  "x" ∈ _managedProps tc -> "y" ∈ _managedProps tc ->
  let e := solverDims (draw z) in
  let t := solverTree (size L) in
  exists L1 L2 tc2,
    preservePreviousScaleValues L = Ok L1 /\
    updateScaleValues L1 = Ok L2 /\
    transitCoords_solver L2 = Some tc2 /\
    prev tc2 !! "x" = Some (get_prop tc "x") /\
    prev tc2 !! "y" = Some (get_prop tc "y") /\
    get_prop tc2 "x" =
      Num ((if truthy (get_prop e "x")
            then width t - parentNodeWidth (size L) else width t)
           / (1 - num e "x")) /\
    get_prop tc2 "y" = Num (height t / num e "height").
Proof.
  intros Hz Htc Hsc Hx Hy e t.
  unfold preservePreviousScaleValues, try. rewrite Htc, preserve_unfold.
  cbn [set_transitCoords_solver scales_solver]. rewrite Hsc.
  set (tc1 := preserve_loop (_managedProps tc) (set_prev ∅ tc)).
  exists (set_scales_solver (Some (Scale_preserve sc))
            (set_transitCoords_solver (Some tc1) L)).
  unfold updateScaleValues, try.
  cbn [heap zoomedElement set_scales_solver set_transitCoords_solver
       transitCoords_solver scales_solver size].
  rewrite Hz. do 2 eexists. split_and!; try reflexivity.
  - cbn [prev set_prop set_own]. unfold tc1.
    by rewrite preserve_loop_prev, decide_True.
  - cbn [prev set_prop set_own]. unfold tc1.
    by rewrite preserve_loop_prev, decide_True.
  - unfold get_prop, get. cbn. by rewrite lookup_insert_ne, lookup_insert_eq.
  - unfold get_prop, get. cbn. by rewrite lookup_insert_eq.
Qed.

Section WithoutSolvers.
Context `{Collaborators}.

(** X17: with [showSolvers] false and no solver scale, [_init()] returns and
    the next [updateScaleValues()] throws a TypeError on
    [this.scales.solver.x], after it has overwritten the transit
    coordinates x and y that [_init()] had set to 0. *)
Theorem update_without_scale_throws (L : OmLayout) (z : OmTreeNode) :
  showSolvers L = false ->
  scales_solver L = None ->
  heap L !! zoomedElement L = Some z ->
  let e := solverDims (draw z) in
  let t := solverTree (size L) in
  exists L1 L2,
    _init L = Ok L1 /\
    updateScaleValues L1 = Throw (undefined_read "x") L2 /\
    transit_coord L1 "x" = Num 0 /\ transit_coord L1 "y" = Num 0 /\
    transit_coord L2 "x" =
      Num ((if truthy (get_prop e "x")
            then width t - parentNodeWidth (size L) else width t)
           / (1 - num e "x")) /\
    transit_coord L2 "y" = Num (height t / num e "height").
Proof.
  intros Hs Hsc Hz e t. rewrite (init_without_solvers L Hs).
  exists (set_transitCoords_solver (Some (new origin "px")) L).
  unfold updateScaleValues, try.
  cbn [heap zoomedElement set_transitCoords_solver transitCoords_solver
       scales_solver size].
  rewrite Hz, Hsc. eexists. split_and!; reflexivity.
Qed.

End WithoutSolvers.

Lemma updateScaleValues_idempotent_witness :
  let L := Fixtures.zoomed_layout in
  let L1 := final (updateScaleValues L) in
  updateScaleValues L1 = Ok L1 /\
  L1 = set_scales_solver (scales_solver L1)
         (set_transitCoords_solver (transitCoords_solver L1) L) /\
  (prev <$> transitCoords_solver L1) = (prev <$> transitCoords_solver L) /\
  (scale_prev <$> scales_solver L1) = (scale_prev <$> scales_solver L).
Proof.
  cbv zeta.
  refine (updateScaleValues_idempotent Fixtures.zoomed_layout _ _).
  vm_compute. reflexivity.
Defined.

Lemma update_after_preserve_witness :
  exists L1 L2 tc2,
    preservePreviousScaleValues Fixtures.zoomed_layout = Ok L1 /\
    updateScaleValues L1 = Ok L2 /\
    transitCoords_solver L2 = Some tc2 /\
    prev tc2 !! "x" = Some (Num 0) /\
    prev tc2 !! "y" = Some (Num 0) /\
    get_prop tc2 "x" = Num ((200 - 20) / (1 - 0.25)) /\
    get_prop tc2 "y" = Num (600 / 0.5).
Proof.
  refine (update_after_preserve Fixtures.zoomed_layout
            (Fixtures.group "subsystem" 2 (Some 0%nat) 1
               (Fixtures.rect 0.25 0 0.25 1) (Fixtures.rect 0.25 0 0.25 0.5))
            (new origin "px")
            (Fixtures.unit_scale (solverTree Fixtures.sizes))
            eq_refl eq_refl eq_refl _ _).
  - vm_compute. by left.
  - vm_compute. right. by left.
Defined.

Lemma update_without_scale_throws_witness :
  exists L1 L2,
    @_init Fixtures.plain (Fixtures.uninitialised false) = Ok L1 /\
    updateScaleValues L1 = Throw (undefined_read "x") L2 /\
    transit_coord L1 "x" = Num 0 /\ transit_coord L1 "y" = Num 0 /\
    transit_coord L2 "x" = Num ((200 - 20) / (1 - 0.25)) /\
    transit_coord L2 "y" = Num (600 / 0.5).
Proof.
  exact (@update_without_scale_throws Fixtures.plain
           (Fixtures.uninitialised false)
           (Fixtures.group "subsystem" 2 (Some 0%nat) 1
              (Fixtures.rect 0.25 0 0.25 1) (Fixtures.rect 0.25 0 0.25 0.5))
           eq_refl eq_refl eq_refl).
Defined.

End ScaleUse.

(** ** OmLayout: the solver names *)
Module SolverTextFacts.
Import SolverText.

Lemma substring_app_prefix (s t : string) :
  String.substring 0 (String.length s) (s +:+ t) = s.
Proof. induction s as [|a s IH]; simpl; [by destruct t|by f_equal]. Qed.

Lemma substring_app_suffix (s t : string) :
  String.substring (String.length s) (String.length t) (s +:+ t) = t.
Proof.
  induction s as [|a s IH]; simpl; [|done].
  induction t as [|b t IHt]; simpl; [done|by f_equal].
Qed.

Lemma length_app (s t : string) :
  String.length (s +:+ t) = (String.length s + String.length t)%nat.
Proof. induction s as [|a s IH]; simpl; [done|by f_equal]. Qed.

(** X18: [getSolverText(node)]: when linear solver names are shown the text is
    the node's [linear_solver], whatever [solve_subsystems] is; otherwise
    it is the node's [nonlinear_solver], followed by " (sub_solve)" exactly
    when the node owns a true [solve_subsystems], and then the text is a
    string from which the name is recovered by cutting the last 12
    characters, even for a node without a [nonlinear_solver], whose text is
    "undefined (sub_solve)". The text is undefined only when the name is
    and nothing is appended. *)
Theorem getSolverText_spec (showLinearSolverNames : bool) (node : SolverNames) :
  let name := if showLinearSolverNames then linear_solver node
              else nonlinear_solver node in
  let marked := negb showLinearSolverNames && hasOwn_solve_subsystems node
                && solve_subsystems node in
  (showLinearSolverNames = true ->
   getSolverText showLinearSolverNames node = linear_solver node) /\
  (marked = false -> getSolverText showLinearSolverNames node = name) /\
  (marked = true ->
   exists s, getSolverText showLinearSolverNames node = Some s /\
     String.length s = (String.length (ToString name) + 12)%nat /\
     String.substring 0 (String.length (ToString name)) s = ToString name /\
     String.substring (String.length (ToString name)) 12 s = " (sub_solve)") /\
  (marked = true -> name = None ->
   getSolverText showLinearSolverNames node = Some "undefined (sub_solve)") /\
  (getSolverText showLinearSolverNames node = None ->
   name = None /\ marked = false).
Proof.
  intros name marked. unfold getSolverText. fold name marked. split_and!.
  - intros ->. done.
  - by intros ->.
  - intros ->. eexists. split; [done|]. split_and!.
    + by rewrite length_app.
    + apply substring_app_prefix.
    + apply (substring_app_suffix (ToString name) sub_solve).
  - by intros -> ->.
  - destruct marked; [done|]. by intros ->.
Qed.

End SolverTextFacts.
